(** * Data-block reader of the SST table format (yb/rocksdb/table/block.cc)

    A shallow embedding of the entry codec, the block handle and the block
    cursor ([BlockIter]), followed by the properties proved about them.

    Conventions of the embedding

    - A byte buffer is a [list byte]; a [const char*] into the block is the
      offset (a [Z]) of the byte it points to, counted from [data_].
    - [uint32_t] values are [Z]; every place where the source computes in
      32 bits carries an explicit [u32] (reduction modulo 2^32).
    - Operations that can read outside the buffer, subtract pointers of
      different objects or dereference a null pointer live in the [option]
      monad: [None] is undefined behaviour.  [assert]/[DCHECK] are compiled
      out (release build) and recorded in comments only.
    - Loops are fixpoints on a fuel computed from the state at loop entry;
      a loop that outlives its fuel yields [None] as well.  The theorems
      that state a result prove it as [Some]. *)

From Stdlib Require Import ZArith List Lia Bool Sorted.
From Stdlib.Strings Require Import String Byte.
Import ListNotations.
Open Scope Z_scope.

(** ** Bytes, 32-bit words and raw reads *)

Definition Bytes := list byte.

Definition u8 (b : byte) : Z := Z.of_N (Byte.to_N b).

Definition u32 (x : Z) : Z := x mod 2 ^ 32.

(** [len] is [size()] of a buffer, as an integer. *)
Definition len (d : Bytes) : Z := Z.of_nat (List.length d).

(** The byte at offset [p], when [p] lies inside the buffer. *)
Definition byte_at (d : Bytes) (p : Z) : option Z :=
  if (p <? 0) || (len d <=? p) then None
  else option_map u8 (nth_error d (Z.to_nat p)).

(** Reads made by the entry codec.  The codec compares against [limit]
    before every read, so the default is never observed when [limit] lies
    inside the buffer (see [DecodeEntry_reads_below_limit]). *)
Definition peek (d : Bytes) (p : Z) : Z :=
  match byte_at d p with Some b => b | None => 0 end.

(** [Slice(p, n)] read as bytes; [None] when the range leaves the buffer. *)
Definition slice (d : Bytes) (p n : Z) : option Bytes :=
  if (0 <=? p) && (0 <=? n) && (p + n <=? len d)
  then Some (firstn (Z.to_nat n) (skipn (Z.to_nat p) d))
  else None.

Notation "x <- m ;; k" :=
  (match m with Some x => k | None => None end)
  (at level 61, m at next level, right associativity).

Notation "' p <- m ;; k" :=
  (match m with Some p => k | None => None end)
  (at level 61, p pattern, m at next level, right associativity).

(** Modelled from the spec: [DecodeFixed32] of util/coding.h is not in the
    source tree; section 6.2 fixes it as a 4-byte little-endian integer. *)
Definition DecodeFixed32 (d : Bytes) (p : Z) : option Z :=
  b0 <- byte_at d p ;;
  b1 <- byte_at d (p + 1) ;;
  b2 <- byte_at d (p + 2) ;;
  b3 <- byte_at d (p + 3) ;;
  Some (b0 + b1 * 256 + b2 * 65536 + b3 * 16777216).

(** Modelled from the spec: [GetVarint32Ptr] of util/coding.h is not in the
    source tree; section 6.2 fixes a varint32 as base-128 little-endian
    groups, high bit = continuation, at most 5 bytes.  The result is the
    pointer past the varint and the decoded 32-bit value; [None] is the
    null pointer. *)
Fixpoint GetVarint32PtrFallback (n : nat) (d : Bytes) (p limit shift result : Z)
  : option (Z * Z) :=
  match n with
  | O => None
  | S n' =>
      if (shift <=? 28) && (p <? limit) then
        let b := peek d p in
        if Z.land b 128 =? 0
        then Some (p + 1, Z.lor result (u32 (Z.shiftl b shift)))
        else GetVarint32PtrFallback n' d (p + 1) limit (shift + 7)
               (Z.lor result (u32 (Z.shiftl (Z.land b 127) shift)))
      else None
  end.

Definition GetVarint32Ptr (d : Bytes) (p limit : Z) : option (Z * Z) :=
  if (p <? limit) && (Z.land (peek d p) 128 =? 0)
  then Some (p + 1, peek d p)
  else GetVarint32PtrFallback 5 d p limit 0 0.

(** ** Entry codec *)

(** What [DecodeEntry] hands back on success: the pointer to the key delta
    and the three header values. *)
Record EntryHeader := mkHeader {
  key_ptr : Z;
  shared : Z;
  non_shared : Z;
  value_length : Z
}.

(** [DecodeEntry(p, limit, &shared, &non_shared, &value_length)];
    [None] is the [nullptr] result. *)
Definition DecodeEntry (d : Bytes) (p limit : Z) : option EntryHeader :=
  if limit - p <? 3 then None
  else
    let sh := peek d p in
    let ns := peek d (p + 1) in
    let vl := peek d (p + 2) in
    h <- (if Z.lor (Z.lor sh ns) vl <? 128 then
            (* Fast path: all three values are encoded in one byte each *)
            Some (mkHeader (p + 3) sh ns vl)
          else
            ' (p1, sh) <- GetVarint32Ptr d p limit ;;
            ' (p2, ns) <- GetVarint32Ptr d p1 limit ;;
            ' (p3, vl) <- GetVarint32Ptr d p2 limit ;;
            Some (mkHeader p3 sh ns vl)) ;;
    if u32 (limit - key_ptr h) <? u32 (non_shared h + value_length h)
    then None
    else Some h.

(** ** Status, slices, comparator and the auxiliary indexes *)

(** Modelled from the spec: [Status] is declared in util/status.h, which is
    not in the source tree.  Sections 6.4 and 7: a status is OK or an error
    of a kind with a message; block.cc builds [Corruption] and [Incomplete]
    ones. *)
Inductive Status :=
| OK
| Corruption (msg : string)
| Incomplete (msg : string).

Definition BadBlockContentsError : Status := Corruption "bad block contents".

Definition BadEntryInBlockError : Status := Corruption "bad entry in block".

Definition status_ok (s : Status) : bool :=
  match s with OK => true | _ => false end.

(** The value slice of a cursor.  [SliceAt off n] points [n] bytes at offset
    [off] of the block; [SliceEmpty] is the default or cleared slice, which
    points at a static empty string outside the block. *)
Inductive Slice :=
| SliceAt (off n : Z)
| SliceEmpty.

(** [Comparator::Compare]: negative, zero or positive. *)
Definition Comparator := Bytes -> Bytes -> Z.

(** [BlockHashIndex::GetRestartIndex]: [first_index] and [num_blocks] of the
    bucket of the key, or a null pointer. *)
Definition BlockHashIndex := Bytes -> option (Z * Z).

(** [BlockPrefixIndex::GetBlocks]: the array [block_ids]; its length is the
    returned [num_blocks]. *)
Definition BlockPrefixIndex := Bytes -> list Z.

(** ** Cursor *)

(** Modelled from the spec: the members of [BlockIter] are declared in
    block.h, which is not in the source tree.  Section 3.4 lists them; their
    names are those block.cc uses. *)
Record BlockIter := mkIter {
  comparator_ : option Comparator;
  data_ : option Bytes;            (* underlying block contents, or nullptr *)
  restarts_ : Z;                   (* offset of the restart array *)
  num_restarts_ : Z;               (* number of uint32 entries in it *)
  current_ : Z;                    (* offset in data_ of the current entry *)
  restart_index_ : Z;              (* index of the restart block of current_ *)
  key_ : Bytes;                    (* contents of the IterKey *)
  value_ : Slice;
  status_ : Status;
  hash_index_ : option BlockHashIndex;
  prefix_index_ : option BlockPrefixIndex
}.

Definition set_current (c : BlockIter) (v : Z) : BlockIter :=
  mkIter (comparator_ c) (data_ c) (restarts_ c) (num_restarts_ c) v
         (restart_index_ c) (key_ c) (value_ c) (status_ c)
         (hash_index_ c) (prefix_index_ c).

Definition set_restart_index (c : BlockIter) (v : Z) : BlockIter :=
  mkIter (comparator_ c) (data_ c) (restarts_ c) (num_restarts_ c) (current_ c)
         v (key_ c) (value_ c) (status_ c) (hash_index_ c) (prefix_index_ c).

Definition set_key (c : BlockIter) (v : Bytes) : BlockIter :=
  mkIter (comparator_ c) (data_ c) (restarts_ c) (num_restarts_ c) (current_ c)
         (restart_index_ c) v (value_ c) (status_ c)
         (hash_index_ c) (prefix_index_ c).

Definition set_value (c : BlockIter) (v : Slice) : BlockIter :=
  mkIter (comparator_ c) (data_ c) (restarts_ c) (num_restarts_ c) (current_ c)
         (restart_index_ c) (key_ c) v (status_ c)
         (hash_index_ c) (prefix_index_ c).

(** Modelled from the spec: [SetStatus] is declared in block.h; section 4.2
    has the cursor handed back in corruption state with the given status. *)
Definition SetStatus (c : BlockIter) (s : Status) : BlockIter :=
  mkIter (comparator_ c) (data_ c) (restarts_ c) (num_restarts_ c) (current_ c)
         (restart_index_ c) (key_ c) (value_ c) s
         (hash_index_ c) (prefix_index_ c).

(** Modelled from the spec: the default-constructed cursor of block.h, the
    state Uninitialized of section 4.3: no comparator, no data, status OK. *)
Definition BlockIter_default : BlockIter :=
  mkIter None None 0 0 0 0 [] SliceEmpty OK None None.

(** Modelled from the spec: [Valid] is declared in block.h.  Section 3.4:
    the cursor is valid iff [current < restart_offset]. *)
Definition Valid (c : BlockIter) : bool := current_ c <? restarts_ c.

(** Modelled from the spec: [Compare] is declared in block.h; it hands both
    keys to the comparator of the cursor (section 3.4), which does not
    exist before [Initialize]. *)
Definition Compare (c : BlockIter) (a b : Bytes) : option Z :=
  cmp <- comparator_ c ;; Some (cmp a b).

(** Modelled from the spec: [NextEntryOffset] is declared in block.h, which
    is not in the source tree.  Section 4.3.1: the offset of the next entry
    is the end offset of the current entry, that is of the value slice; the
    source narrows the pointer difference to 32 bits. *)
Definition NextEntryOffset (c : BlockIter) : option Z :=
  match data_ c, value_ c with
  | Some _, SliceAt off n => Some (u32 (off + n))
  | _, _ => None
  end.

(** Modelled from the spec: [GetRestartPoint] is declared in block.h.
    Section 3.1: restart offset [index] is the little-endian fixed32 at
    [restarts_ + 4 * index].  (The source asserts [index < num_restarts_].) *)
Definition GetRestartPoint (c : BlockIter) (index : Z) : option Z :=
  d <- data_ c ;; DecodeFixed32 d (restarts_ c + index * 4).

(** Modelled from the spec: [SeekToRestartPoint] is declared in block.h.
    Section 4.3.2 step 3: the key is cleared, [restart_index_] is set and the
    value becomes the empty slice at the restart offset, so that the next
    parse lands on it; [current_] is fixed by that parse. *)
Definition SeekToRestartPoint (c : BlockIter) (index : Z) : option BlockIter :=
  let c := set_restart_index (set_key c []) index in
  offset <- GetRestartPoint c index ;;
  Some (set_value c (SliceAt offset 0)).

Definition CorruptionError (c : BlockIter) : BlockIter :=
  mkIter (comparator_ c) (data_ c) (restarts_ c) (num_restarts_ c)
         (restarts_ c) (num_restarts_ c) [] SliceEmpty BadEntryInBlockError
         (hash_index_ c) (prefix_index_ c).

(** The loop that closes [ParseNextKey]:
    [while (restart_index_ + 1 < num_restarts_ &&
            GetRestartPoint(restart_index_ + 1) < current_) ++restart_index_;] *)
Fixpoint advance_restart_index (fuel : nat) (c : BlockIter) : option BlockIter :=
  match fuel with
  | O => None
  | S fuel' =>
      if u32 (restart_index_ c + 1) <? num_restarts_ c then
        rp <- GetRestartPoint c (u32 (restart_index_ c + 1)) ;;
        if rp <? current_ c
        then advance_restart_index fuel'
               (set_restart_index c (u32 (restart_index_ c + 1)))
        else Some c
      else Some c
  end.

(** [ParseNextKey]: the cursor after the call and the returned [bool]. *)
Definition ParseNextKey (c : BlockIter) : option (BlockIter * bool) :=
  d <- data_ c ;;
  off <- NextEntryOffset c ;;
  let c := set_current c off in
  if restarts_ c <=? off then
    (* No more entries to return.  Mark as invalid. *)
    Some (set_restart_index (set_current c (restarts_ c)) (num_restarts_ c),
          false)
  else
    match DecodeEntry d off (restarts_ c) with
    | None => Some (CorruptionError c, false)
    | Some h =>
        if len (key_ c) <? shared h then Some (CorruptionError c, false)
        else
          delta <- slice d (key_ptr h) (non_shared h) ;;
          let key :=
            if shared h =? 0 then delta
            else firstn (Z.to_nat (shared h)) (key_ c) ++ delta in
          let c := set_value (set_key c key)
                     (SliceAt (key_ptr h + non_shared h) (value_length h)) in
          c <- advance_restart_index (Z.to_nat (num_restarts_ c) + 2) c ;;
          Some (c, true)
    end.

Definition Next (c : BlockIter) : option BlockIter :=
  (* assert(Valid()) *)
  ' (c, _) <- ParseNextKey c ;; Some c.

(** First loop of [Prev]: scan backwards to a restart point before
    [original].  The boolean tells that [Prev] returned from inside it. *)
Fixpoint Prev_rewind (fuel : nat) (original : Z) (c : BlockIter)
  : option (BlockIter * bool) :=
  match fuel with
  | O => None
  | S fuel' =>
      rp <- GetRestartPoint c (restart_index_ c) ;;
      if original <=? rp then
        if restart_index_ c =? 0 then
          (* No more entries *)
          Some (set_restart_index (set_current c (restarts_ c))
                  (num_restarts_ c), true)
        else Prev_rewind fuel' original
               (set_restart_index c (u32 (restart_index_ c - 1)))
      else Some (c, false)
  end.

(** Second loop of [Prev]:
    [do {} while (ParseNextKey() && NextEntryOffset() < original);] *)
Fixpoint Prev_walk (fuel : nat) (original : Z) (c : BlockIter)
  : option BlockIter :=
  match fuel with
  | O => None
  | S fuel' =>
      ' (c, ok) <- ParseNextKey c ;;
      if ok then
        off <- NextEntryOffset c ;;
        if off <? original then Prev_walk fuel' original c else Some c
      else Some c
  end.

Definition Prev (c : BlockIter) : option BlockIter :=
  (* assert(Valid()) *)
  let original := current_ c in
  ' (c, returned) <- Prev_rewind (Z.to_nat (restart_index_ c) + 1) original c ;;
  if returned then Some c
  else
    c <- SeekToRestartPoint c (restart_index_ c) ;;
    Prev_walk (Z.to_nat (restarts_ c) + 2) original c.

(** [Initialize]; the source checks [data_ == nullptr] and
    [num_restarts > 0] with DCHECK. *)
Definition Initialize (c : BlockIter) (comparator : Comparator) (data : Bytes)
    (restarts num_restarts : Z) (hash_index : option BlockHashIndex)
    (prefix_index : option BlockPrefixIndex) : BlockIter :=
  mkIter (Some comparator) (Some data) restarts num_restarts
         restarts num_restarts (key_ c) (value_ c) (status_ c)
         hash_index prefix_index.

(** ** Binary search over the restart array *)

(** What one execution of the body of the [BinarySeek] loop finds at [mid]
    before it moves [left] or [right]. *)
Inductive Probe :=
| ProbeCorrupt            (* the entry does not decode or has shared != 0 *)
| ProbeSmaller (mid : Z)  (* cmp < 0 *)
| ProbeGreater (mid : Z)  (* cmp > 0 *)
| ProbeEqual (mid : Z).

(** [uint32_t mid = (left + right + 1) / 2;] *)
Definition BinarySeek_mid (left right : Z) : Z := u32 (left + right + 1) / 2.

(** The body of the loop up to the three-way branch. *)
Definition BinarySeek_probe (c : BlockIter) (target : Bytes) (left right : Z)
  : option Probe :=
  let mid := BinarySeek_mid left right in
  region_offset <- GetRestartPoint c mid ;;
  d <- data_ c ;;
  match DecodeEntry d region_offset (restarts_ c) with
  | None => Some ProbeCorrupt
  | Some h =>
      if negb (shared h =? 0) then Some ProbeCorrupt
      else
        mid_key <- slice d (key_ptr h) (non_shared h) ;;
        cmp <- Compare c mid_key target ;;
        Some (if cmp <? 0 then ProbeSmaller mid
              else if 0 <? cmp then ProbeGreater mid
              else ProbeEqual mid)
  end.

(** The values of [left] and [right] after the branch. *)
Definition BinarySeek_branch (p : Probe) (left right : Z) : option (Z * Z) :=
  match p with
  | ProbeCorrupt => None
  | ProbeSmaller mid => Some (mid, right)           (* left = mid *)
  | ProbeGreater mid => Some (left, u32 (mid - 1))  (* right = mid - 1 *)
  | ProbeEqual mid => Some (mid, mid)               (* left = right = mid *)
  end.

(** [while (left < right) { ... }]; the result is the cursor and [*index]
    when the function returns true, [None] for the index when it returns
    false. *)
Fixpoint BinarySeek_loop (fuel : nat) (c : BlockIter) (target : Bytes)
    (left right : Z) : option (BlockIter * option Z) :=
  match fuel with
  | O => None
  | S fuel' =>
      if left <? right then
        p <- BinarySeek_probe c target left right ;;
        match BinarySeek_branch p left right with
        | None => Some (CorruptionError c, None)
        | Some (left', right') => BinarySeek_loop fuel' c target left' right'
        end
      else Some (c, Some left)
  end.

(** [BinarySeek(target, left, right, &index)]; the source asserts
    [left <= right]. *)
Definition BinarySeek (c : BlockIter) (target : Bytes) (left right : Z)
  : option (BlockIter * option Z) :=
  BinarySeek_loop (Z.to_nat (right - left) + 1) c target left right.

(** [CompareBlockKey(block_index, target)]: the cursor after the call and
    the returned comparison. *)
Definition CompareBlockKey (c : BlockIter) (block_index : Z) (target : Bytes)
  : option (BlockIter * Z) :=
  region_offset <- GetRestartPoint c block_index ;;
  d <- data_ c ;;
  match DecodeEntry d region_offset (restarts_ c) with
  | None => Some (CorruptionError c, 1)  (* Return target is smaller *)
  | Some h =>
      if negb (shared h =? 0) then Some (CorruptionError c, 1)
      else
        block_key <- slice d (key_ptr h) (non_shared h) ;;
        cmp <- Compare c block_key target ;;
        Some (c, cmp)
  end.

(** [block_ids[i]]. *)
Definition block_id (block_ids : list Z) (i : Z) : option Z :=
  if (i <? 0) || (Z.of_nat (List.length block_ids) <=? i) then None
  else nth_error block_ids (Z.to_nat i).

(** The loop of [BinaryBlockIndexSeek].  It ends with the final [left] and
    [right], or with [None] in their place when the function returned false
    from inside the loop. *)
Fixpoint BinaryBlockIndexSeek_loop (fuel : nat) (c : BlockIter)
    (target : Bytes) (block_ids : list Z) (left right : Z)
  : option (BlockIter * option (Z * Z)) :=
  match fuel with
  | O => None
  | S fuel' =>
      if left <=? right then
        let mid := u32 (left + right) / 2 in
        id <- block_id block_ids mid ;;
        ' (c, cmp) <- CompareBlockKey c id target ;;
        if negb (status_ok (status_ c)) then Some (c, None)
        else if cmp <? 0 then
          (* Key at "target" is larger than "mid". *)
          BinaryBlockIndexSeek_loop fuel' c target block_ids
            (u32 (mid + 1)) right
        else if left =? right then Some (c, Some (left, right))
        else BinaryBlockIndexSeek_loop fuel' c target block_ids left mid
      else Some (c, Some (left, right))
  end.

(** The part of [BinaryBlockIndexSeek] after the loop. *)
Definition BinaryBlockIndexSeek_settle (c : BlockIter) (target : Bytes)
    (block_ids : list Z) (left_bound left right : Z)
  : option (BlockIter * option Z) :=
  if left =? right then
    id <- block_id block_ids left ;;
    if 0 <? id then
      gap <- (if left =? left_bound then Some true
              else prev <- block_id block_ids (u32 (left - 1)) ;;
                   Some (negb (prev =? u32 (id - 1)))) ;;
      if gap : bool then
        ' (c, cmp) <- CompareBlockKey c (u32 (id - 1)) target ;;
        if 0 <? cmp then Some (set_current c (restarts_ c), None)
        else Some (c, Some id)
      else Some (c, Some id)
    else Some (c, Some id)
  else
    (* assert(left > right); mark iterator invalid *)
    Some (set_current c (restarts_ c), None).

Definition BinaryBlockIndexSeek (c : BlockIter) (target : Bytes)
    (block_ids : list Z) (left right : Z) : option (BlockIter * option Z) :=
  (* assert(left <= right) *)
  let left_bound := left in
  ' (c, settled) <- BinaryBlockIndexSeek_loop (Z.to_nat (right - left) + 2)
                      c target block_ids left right ;;
  match settled with
  | None => Some (c, None)
  | Some (l, r) => BinaryBlockIndexSeek_settle c target block_ids left_bound l r
  end.

Definition HashSeek (c : BlockIter) (target : Bytes)
  : option (BlockIter * option Z) :=
  hash_index <- hash_index_ c ;;
  match hash_index target with
  | None => Some (set_current c (restarts_ c), None)
  | Some (first_index, num_blocks) =>
      let left := first_index in
      let right := u32 (first_index + num_blocks - 1) in
      BinarySeek c target left right
  end.

Definition PrefixSeek (c : BlockIter) (target : Bytes)
  : option (BlockIter * option Z) :=
  prefix_index <- prefix_index_ c ;;
  let block_ids := prefix_index target in
  let num_blocks := Z.of_nat (List.length block_ids) in
  if num_blocks =? 0 then Some (set_current c (restarts_ c), None)
  else BinaryBlockIndexSeek c target block_ids 0 (u32 (num_blocks - 1)).

(** The linear search that closes [Seek]:
    [while (true) { if (!ParseNextKey() || Compare(key, target) >= 0) return; }] *)
Fixpoint Seek_scan (fuel : nat) (c : BlockIter) (target : Bytes)
  : option BlockIter :=
  match fuel with
  | O => None
  | S fuel' =>
      ' (c, ok) <- ParseNextKey c ;;
      if negb ok then Some c
      else
        cmp <- Compare c (key_ c) target ;;
        if 0 <=? cmp then Some c else Seek_scan fuel' c target
  end.

Definition Seek (c : BlockIter) (target : Bytes) : option BlockIter :=
  match data_ c with
  | None => Some c  (* Not init yet *)
  | Some _ =>
      ' (c, ok) <-
        (match prefix_index_ c with
         | Some _ => PrefixSeek c target
         | None =>
             match hash_index_ c with
             | Some _ => HashSeek c target
             | None => BinarySeek c target 0 (u32 (num_restarts_ c - 1))
             end
         end) ;;
      match ok with
      | None => Some c
      | Some index =>
          c <- SeekToRestartPoint c index ;;
          (* Linear search (within restart block) for first key >= target *)
          Seek_scan (Z.to_nat (restarts_ c) + 2) c target
      end
  end.

Definition SeekToFirst (c : BlockIter) : option BlockIter :=
  match data_ c with
  | None => Some c  (* Not init yet *)
  | Some _ =>
      c <- SeekToRestartPoint c 0 ;;
      ' (c, _) <- ParseNextKey c ;;
      Some c
  end.

(** [while (ParseNextKey() && NextEntryOffset() < restarts_) {}] *)
Fixpoint SeekToLast_walk (fuel : nat) (c : BlockIter) : option BlockIter :=
  match fuel with
  | O => None
  | S fuel' =>
      ' (c, ok) <- ParseNextKey c ;;
      if ok then
        off <- NextEntryOffset c ;;
        if off <? restarts_ c then SeekToLast_walk fuel' c else Some c
      else Some c
  end.

Definition SeekToLast (c : BlockIter) : option BlockIter :=
  match data_ c with
  | None => Some c  (* Not init yet *)
  | Some _ =>
      c <- SeekToRestartPoint c (u32 (num_restarts_ c - 1)) ;;
      SeekToLast_walk (Z.to_nat (restarts_ c) + 2) c
  end.

(** ** Block handle *)

(** Empty block: 0 data keys, one restart point and [num_restarts]. *)
Definition kMinBlockSize : Z := 2 * 4.

(** Modelled from the spec: the members of [Block] are declared in block.h.
    Section 4.2: the buffer, its size (logically 0 for a degenerate block)
    and the restart offset, with the optional hash and prefix index. *)
Record Block := mkBlock {
  b_data_ : Bytes;                 (* contents_.data *)
  b_size_ : Z;                     (* 0 is the error marker *)
  b_restart_offset_ : Z;           (* offset in data_ of the restart array *)
  b_hash_index_ : option BlockHashIndex;
  b_prefix_index_ : option BlockPrefixIndex
}.

(** [DecodeFixed32(data_ + size_ - sizeof(uint32_t))]; the source asserts
    [size_ >= kMinBlockSize]. *)
Definition NumRestarts (data : Bytes) (size : Z) : option Z :=
  DecodeFixed32 data (size - 4).

(** The constructor [Block::Block].  [restart_offset_] is a [uint32_t]: the
    difference, computed in [size_t], is narrowed when it is stored.  The
    field is left unset by the source when the buffer is shorter than 4
    bytes; 0 stands for that. *)
Definition Block_Block (contents : Bytes) : option Block :=
  let size := len contents in
  if size <? 4 then
    Some (mkBlock contents 0 (* Error marker *) 0 None None)
  else
    n <- NumRestarts contents size ;;
    let restart_offset := u32 (u32 size - u32 (1 + n) * 4) in
    if size - 4 <? restart_offset then
      (* The size is too small for NumRestarts() and therefore
         restart_offset_ wrapped around. *)
      Some (mkBlock contents 0 restart_offset None None)
    else Some (mkBlock contents size restart_offset None None).

Definition SetBlockHashIndex (b : Block) (h : BlockHashIndex) : Block :=
  mkBlock (b_data_ b) (b_size_ b) (b_restart_offset_ b) (Some h)
          (b_prefix_index_ b).

Definition SetBlockPrefixIndex (b : Block) (p : BlockPrefixIndex) : Block :=
  mkBlock (b_data_ b) (b_size_ b) (b_restart_offset_ b) (b_hash_index_ b)
          (Some p).

(** What [NewIterator] returns: the caller's cursor or a fresh [BlockIter],
    or one of the two stock iterators of the table layer. *)
Inductive InternalIterator :=
| ErrorInternalIterator (s : Status)  (* NewErrorInternalIterator(s) *)
| EmptyInternalIterator               (* NewEmptyInternalIterator() *)
| BlockIterator (it : BlockIter).

(** Modelled from the spec: the stock iterators are defined in
    table/internal_iterator.h, which is not in the source tree.  Section
    4.2: the error iterator reports the status it was built with, the empty
    iterator is invalid with status OK. *)
Definition iterator_status (i : InternalIterator) : Status :=
  match i with
  | ErrorInternalIterator s => s
  | EmptyInternalIterator => OK
  | BlockIterator it => status_ it
  end.

Definition iterator_valid (i : InternalIterator) : bool :=
  match i with
  | BlockIterator it => Valid it
  | _ => false
  end.

(** [Block::NewIterator(cmp, iter, total_order_seek)]; [iter] is [None] for
    a null pointer. *)
Definition NewIterator (b : Block) (cmp : Comparator) (iter : option BlockIter)
    (total_order_seek : bool) : option InternalIterator :=
  if b_size_ b <? kMinBlockSize then
    match iter with
    | Some it => Some (BlockIterator (SetStatus it BadBlockContentsError))
    | None => Some (ErrorInternalIterator BadBlockContentsError)
    end
  else
    num_restarts <- NumRestarts (b_data_ b) (b_size_ b) ;;
    if num_restarts =? 0 then
      match iter with
      | Some it => Some (BlockIterator (SetStatus it OK))
      | None => Some EmptyInternalIterator
      end
    else
      let hash_index_ptr :=
        if total_order_seek then None else b_hash_index_ b in
      let prefix_index_ptr :=
        if total_order_seek then None else b_prefix_index_ b in
      match iter with
      | Some it =>
          Some (BlockIterator
                  (Initialize it cmp (b_data_ b) (b_restart_offset_ b)
                     num_restarts hash_index_ptr prefix_index_ptr))
      | None =>
          Some (BlockIterator
                  (Initialize BlockIter_default cmp (b_data_ b)
                     (b_restart_offset_ b) num_restarts
                     hash_index_ptr prefix_index_ptr))
      end.

(** [yb::Result<Slice>]. *)
Inductive Result :=
| ResultOk (s : Bytes)
| ResultError (s : Status).

Definition GetMiddleKey (b : Block) : option Result :=
  if b_size_ b <? kMinBlockSize then Some (ResultError BadBlockContentsError)
  else if b_size_ b =? kMinBlockSize then
    Some (ResultError (Incomplete "Empty block"))
  else
    n <- NumRestarts (b_data_ b) (b_size_ b) ;;
    let restart_idx := n / 2 in
    entry_offset <-
      DecodeFixed32 (b_data_ b) (b_restart_offset_ b + restart_idx * 4) ;;
    match DecodeEntry (b_data_ b) entry_offset (b_restart_offset_ b) with
    | None => Some (ResultError BadEntryInBlockError)
    | Some h =>
        if negb (shared h =? 0) then Some (ResultError BadEntryInBlockError)
        else
          key <- slice (b_data_ b) (key_ptr h) (non_shared h) ;;
          Some (ResultOk key)
    end.

(** ** Concrete buffers *)

Definition byte_of (n : N) : byte :=
  match Byte.of_N n with Some b => b | None => x00 end.

Definition bytes_of (l : list N) : Bytes := map byte_of l.

(** The bytewise comparator ([memcmp] order, shorter prefix first). *)
Fixpoint bytewise (a b : Bytes) : Z :=
  match a, b with
  | [], [] => 0
  | [], _ :: _ => -1
  | _ :: _, [] => 1
  | x :: a', y :: b' =>
      if u8 x <? u8 y then -1
      else if u8 y <? u8 x then 1
      else bytewise a' b'
  end.

(** ** Well-formed blocks

    The layout a block builder produces, read off the buffer with the
    reader's own codec: the entries tile the region in front of the restart
    array, every restart offset is the offset of an entry that shares no
    prefix, and the restart offsets ascend from 0. *)

Record Entry := mkEntry {
  e_off : Z;        (* offset of the entry *)
  e_shared : Z;     (* its shared-prefix length *)
  e_key : Bytes;    (* its full, reconstructed key *)
  e_voff : Z;       (* offset of its value *)
  e_vlen : Z        (* length of its value *)
}.

(** The entry at [off] when the key of the entry before it is [prev]. *)
Definition entry_at (d : Bytes) (limit off : Z) (prev : Bytes) : option Entry :=
  h <- DecodeEntry d off limit ;;
  if len prev <? shared h then None
  else
    delta <- slice d (key_ptr h) (non_shared h) ;;
    Some (mkEntry off (shared h)
            (firstn (Z.to_nat (shared h)) prev ++ delta)
            (key_ptr h + non_shared h) (value_length h)).

(** [es] are the entries from [off] up to [limit], in order. *)
Fixpoint entries_from (d : Bytes) (limit off : Z) (prev : Bytes)
    (es : list Entry) : Prop :=
  match es with
  | [] => off = limit
  | e :: es' =>
      off < limit /\
      entry_at d limit off prev = Some e /\
      entries_from d limit (e_voff e + e_vlen e) (e_key e) es'
  end.

(** Offset of the restart array of a buffer that ends in the restart
    offsets [rs] and their count. *)
Definition restarts_of (d : Bytes) (rs : list Z) : Z :=
  len d - (Z.of_nat (List.length rs) + 1) * 4.

Definition num_restarts_of (rs : list Z) : Z := Z.of_nat (List.length rs).

Record well_formed (d : Bytes) (es : list Entry) (rs : list Z) : Prop := {
  wf_size : len d < 2 ^ 32;
  wf_limit : 0 <= restarts_of d rs;
  wf_num_restarts : NumRestarts d (len d) = Some (num_restarts_of rs);
  wf_restart_array :
    forall i r, nth_error rs i = Some r ->
      DecodeFixed32 d (restarts_of d rs + Z.of_nat i * 4) = Some r;
  wf_first_restart : nth_error rs 0 = Some 0;
  wf_restarts_ascending : StronglySorted Z.lt rs;
  wf_entries : entries_from d (restarts_of d rs) 0 [] es;
  wf_restart_entries :
    forall r, In r rs ->
      (r = 0 /\ es = []) \/
      (exists e, In e es /\ e_off e = r /\ e_shared e = 0)
}.

(** The cursor reads the block [d] whose restart offsets are [rs]. *)
Definition cursor_over (d : Bytes) (rs : list Z) (c : BlockIter) : Prop :=
  data_ c = Some d /\
  restarts_ c = restarts_of d rs /\
  num_restarts_ c = num_restarts_of rs.

(** The cursor exposes the entry [e]. *)
Definition at_entry (c : BlockIter) (e : Entry) : Prop :=
  current_ c = e_off e /\
  key_ c = e_key e /\
  value_ c = SliceAt (e_voff e) (e_vlen e).

(** ** The comparator as a total order *)

Record total_order (cmp : Comparator) : Prop := {
  cmp_swap : forall a b, cmp a b < 0 <-> 0 < cmp b a;
  cmp_trans : forall a b c, cmp a b <= 0 -> cmp b c <= 0 -> cmp a c <= 0
}.

(** Keys ascend along the entries, strictly or not. *)
Definition keys_ascending (cmp : Comparator) (es : list Entry) : Prop :=
  StronglySorted (fun a b => cmp (e_key a) (e_key b) <= 0) es.

Definition keys_increasing (cmp : Comparator) (es : list Entry) : Prop :=
  StronglySorted (fun a b => cmp (e_key a) (e_key b) < 0) es.

(** ** The two readings of the restart-index invariant *)

(** [restart_index_] is the largest index whose restart offset is
    [<= current_]. *)
Definition restart_index_is_largest (c : BlockIter) : Prop :=
  (exists rp, GetRestartPoint c (restart_index_ c) = Some rp /\ rp <= current_ c) /\
  (forall i rp, restart_index_ c < i < num_restarts_ c ->
     GetRestartPoint c i = Some rp -> current_ c < rp).

(** The restart offset at [restart_index_] is [<= current_] and no later
    restart offset lies below [current_]. *)
Definition restart_index_brackets (c : BlockIter) : Prop :=
  (exists rp, GetRestartPoint c (restart_index_ c) = Some rp /\ rp <= current_ c) /\
  (forall i rp, restart_index_ c < i < num_restarts_ c ->
     GetRestartPoint c i = Some rp -> current_ c <= rp).

(** ** States of the [BinarySeek] loop *)

(** [BinarySeek_reaches c target l0 r0 l r]: the loop started with
    [left = l0], [right = r0] comes to its head with [left = l],
    [right = r]. *)
Inductive BinarySeek_reaches (c : BlockIter) (target : Bytes) (l0 r0 : Z)
  : Z -> Z -> Prop :=
| reaches_start : BinarySeek_reaches c target l0 r0 l0 r0
| reaches_step : forall l r p l' r',
    BinarySeek_reaches c target l0 r0 l r ->
    l < r ->
    BinarySeek_probe c target l r = Some p ->
    BinarySeek_branch p l r = Some (l', r') ->
    BinarySeek_reaches c target l0 r0 l' r'.

(** ** Cursor operations *)

Inductive Op :=
| OpNext
| OpPrev
| OpSeek (target : Bytes)
| OpSeekToFirst
| OpSeekToLast.

Definition run_op (o : Op) (c : BlockIter) : option BlockIter :=
  match o with
  | OpNext => Next c
  | OpPrev => Prev c
  | OpSeek target => Seek c target
  | OpSeekToFirst => SeekToFirst c
  | OpSeekToLast => SeekToLast c
  end.

(** The state [CorruptionError] leaves behind. *)
Definition corrupt (c : BlockIter) : Prop :=
  current_ c = restarts_ c /\
  restart_index_ c = num_restarts_ c /\
  key_ c = [] /\
  value_ c = SliceEmpty /\
  status_ c = BadEntryInBlockError.

(** What no cursor operation touches, and the status. *)
Definition same_frame (c c' : BlockIter) : Prop :=
  comparator_ c' = comparator_ c /\
  data_ c' = data_ c /\
  restarts_ c' = restarts_ c /\
  num_restarts_ c' = num_restarts_ c /\
  hash_index_ c' = hash_index_ c /\
  prefix_index_ c' = prefix_index_ c.

(** The cursor is valid at the entry [e] of the block: it exposes [e] and
    its restart index is an index of the restart array. *)
Definition cursor_at (d : Bytes) (rs : list Z) (c : BlockIter) (e : Entry)
  : Prop :=
  cursor_over d rs c /\
  at_entry c e /\
  0 <= restart_index_ c < num_restarts_ c.

(** The restart offsets, as the cursor reads them, ascend. *)
Definition restart_offsets_ascend (c : BlockIter) : Prop :=
  forall i j ri rj,
    0 <= i -> i < j -> j < num_restarts_ c ->
    GetRestartPoint c i = Some ri -> GetRestartPoint c j = Some rj ->
    ri < rj.

(** The cursor [ParseNextKey] builds for a decoded entry, before it
    adjusts the restart index. *)
Definition parsed (c : BlockIter) (off : Z) (h : EntryHeader) (delta : Bytes)
  : BlockIter :=
  set_value
    (set_key (set_current c off)
       (firstn (Z.to_nat (shared h)) (key_ c) ++ delta))
    (SliceAt (key_ptr h + non_shared h) (value_length h)).

(** The cursor [ParseNextKey] leaves when no entry is left. *)
Definition at_end (c : BlockIter) : BlockIter :=
  set_restart_index (set_current c (restarts_ c)) (num_restarts_ c).

(** The next [ParseNextKey] starts at offset [off] with [prev] as the
    previous key. *)
Definition poised (c : BlockIter) (off : Z) (prev : Bytes) : Prop :=
  (exists o n, value_ c = SliceAt o n /\ o + n = off) /\ key_ c = prev.

(** The key at every restart point other than the first entry is strictly
    greater than the key of the entry before it. *)
Definition restart_keys_strict (cmp : Comparator) (es : list Entry)
    (rs : list Z) : Prop :=
  forall b p e after,
    es = b ++ p :: e :: after -> In (e_off e) rs ->
    cmp (e_key p) (e_key e) < 0.

(** The three-way branch of [BinarySeek] on a comparison result. *)
Definition probe_of (cmp : Z) (mid : Z) : Probe :=
  if cmp <? 0 then ProbeSmaller mid
  else if 0 <? cmp then ProbeGreater mid
  else ProbeEqual mid.

(** The restart point [i] is the first one, or its key is not beyond the
    target. *)
Definition not_beyond (cmp : Comparator) (es : list Entry) (rs : list Z)
    (target : Bytes) (i : Z) : Prop :=
  i = 0 \/
  exists er r0,
    nth_error rs (Z.to_nat i) = Some r0 /\ In er es /\ e_off er = r0 /\
    cmp (e_key er) target <= 0.

(** A step keeps the status, or ends in the state of [CorruptionError]. *)
Definition carried (c c' : BlockIter) : Prop :=
  status_ c' = status_ c \/ corrupt c'.

(** [ParseNextKey] meets a decode failure at [off]: the codec rejects the
    entry, or the entry shares more than the previous key holds. *)
Definition parse_fails (c : BlockIter) (d : Bytes) (off : Z) : Prop :=
  DecodeEntry d off (restarts_ c) = None \/
  exists h, DecodeEntry d off (restarts_ c) = Some h /\ len (key_ c) < shared h.

(** A probe at a restart offset [r] meets a decode failure: the codec
    rejects the entry, or the entry has a shared prefix. *)
Definition probe_fails (c : BlockIter) (d : Bytes) (r : Z) : Prop :=
  DecodeEntry d r (restarts_ c) = None \/
  exists h, DecodeEntry d r (restarts_ c) = Some h /\ shared h <> 0.

(** A sequence of operations, in order. *)
Fixpoint run_ops (os : list Op) (c : BlockIter) : option BlockIter :=
  match os with
  | [] => Some c
  | o :: os' => c' <- run_op o c ;; run_ops os' c'
  end.

(** [er] is the entry at restart point [i]. *)
Definition restart_entry (es : list Entry) (rs : list Z) (i : Z) (er : Entry)
  : Prop :=
  0 <= i /\
  exists r, nth_error rs (Z.to_nat i) = Some r /\ In er es /\ e_off er = r.

(** The candidate [block_ids[left]] = [id] has no candidate [id - 1] just
    to its left: it is the first candidate, or a gap precedes it. *)
Definition gap_before (block_ids : list Z) (left_bound left id : Z) : Prop :=
  left = left_bound \/ block_id block_ids (left - 1) <> Some (id - 1).

(** The next [ParseNextKey] starts at or beyond the restart point of
    [restart_index_]. *)
Definition parse_ready (c : BlockIter) : Prop :=
  0 <= restart_index_ c < num_restarts_ c /\
  exists rp off,
    GetRestartPoint c (restart_index_ c) = Some rp /\
    NextEntryOffset c = Some off /\ rp <= off.

(** What holds of the restart index of a valid cursor. *)
Definition restart_index_invariant (c : BlockIter) : Prop :=
  Valid c = true -> restart_index_brackets c /\ parse_ready c.

(** A cursor without auxiliary index over a buffer whose restart array can
    be read and ascends. *)
Definition plain_cursor (c : BlockIter) : Prop :=
  0 < num_restarts_ c < 2 ^ 31 /\
  0 <= restarts_ c < 2 ^ 32 /\
  restart_offsets_ascend c /\
  (forall i, 0 <= i < num_restarts_ c ->
     exists rp, GetRestartPoint c i = Some rp) /\
  hash_index_ c = None /\ prefix_index_ c = None.

(** ** Concrete blocks *)

(** A cursor as [NewIterator] hands it out for a fresh buffer, with no
    auxiliary index. *)
Definition new_cursor (d : Bytes) (cmp : Comparator) : option BlockIter :=
  b <- Block_Block d ;;
  it <- NewIterator b cmp None true ;;
  match it with
  | BlockIterator c => Some c
  | _ => None
  end.

(** One entry ("foo", "BARS"), one restart point. *)
Definition block_foo : Bytes :=
  bytes_of [0; 3; 4; 102; 111; 111; 66; 65; 82; 83;
            0; 0; 0; 0;  1; 0; 0; 0]%N.

(** Two entries ("abc", "A") and ("def", "D"), each at a restart point. *)
Definition block_abc_def : Bytes :=
  bytes_of [0; 3; 1; 97; 98; 99; 65;  0; 3; 1; 100; 101; 102; 68;
            0; 0; 0; 0;  7; 0; 0; 0;  2; 0; 0; 0]%N.

Definition entries_abc_def : list Entry :=
  [ mkEntry 0 0 (bytes_of [97; 98; 99]%N) 6 1;
    mkEntry 7 0 (bytes_of [100; 101; 102]%N) 13 1 ].

(** Two entries ("foo", "1") and ("for", "2"); the second shares two key
    bytes with the first; one restart point. *)
Definition block_foo_for : Bytes :=
  bytes_of [0; 3; 1; 102; 111; 111; 49;  2; 1; 1; 114; 50;
            0; 0; 0; 0;  1; 0; 0; 0]%N.

Definition entries_foo_for : list Entry :=
  [ mkEntry 0 0 (bytes_of [102; 111; 111]%N) 6 1;
    mkEntry 7 2 (bytes_of [102; 111; 114]%N) 11 1 ].

(** Two entries with the same key "b", each at a restart point. *)
Definition block_b_b : Bytes :=
  bytes_of [0; 1; 1; 98; 49;  0; 1; 1; 98; 50;
            0; 0; 0; 0;  5; 0; 0; 0;  2; 0; 0; 0]%N.

Definition entries_b_b : list Entry :=
  [ mkEntry 0 0 (bytes_of [98]%N) 4 1;
    mkEntry 5 0 (bytes_of [98]%N) 9 1 ].

(** An entry whose header declares non_shared = 2^32 - 1 and
    value_length = 2 (slow path: 00, FF FF FF FF 0F, 02), followed by one
    more byte of the entry region, one restart point. *)
Definition block_wrapped_lengths : Bytes :=
  bytes_of [0; 255; 255; 255; 255; 15; 2; 0;
            0; 0; 0; 0;  1; 0; 0; 0]%N.

(** Seven zero bytes: a three-byte entry (0, 0, 0) and num_restarts = 0. *)
Definition block_seven_zeros : Bytes := bytes_of [0; 0; 0; 0; 0; 0; 0]%N.


(** Four entries "a", "c", "d", "f" with restart points at "a", "c" and
    "f". *)
Definition block_a_cd_f : Bytes :=
  bytes_of [0; 1; 0; 97;  0; 1; 0; 99;  0; 1; 0; 100;  0; 1; 0; 102;
            0; 0; 0; 0;  4; 0; 0; 0;  12; 0; 0; 0;  3; 0; 0; 0]%N.

Definition entries_a_cd_f : list Entry :=
  [ mkEntry 0 0 (bytes_of [97]%N) 4 0;
    mkEntry 4 0 (bytes_of [99]%N) 8 0;
    mkEntry 8 0 (bytes_of [100]%N) 12 0;
    mkEntry 12 0 (bytes_of [102]%N) 16 0 ].

(** The cursors [NewIterator] creates over these blocks with the bytewise
    comparator and no auxiliary index. *)
Definition cursor_on (d : Bytes) (restarts num_restarts : Z) : BlockIter :=
  Initialize BlockIter_default bytewise d restarts num_restarts None None.

Definition cursor_foo : BlockIter := cursor_on block_foo 10 1.

Definition cursor_abc_def : BlockIter := cursor_on block_abc_def 14 2.

Definition cursor_foo_for : BlockIter := cursor_on block_foo_for 12 1.

Definition cursor_b_b : BlockIter := cursor_on block_b_b 10 2.

Definition cursor_a_cd_f : BlockIter := cursor_on block_a_cd_f 16 3.

(** [cursor_abc_def] after [SeekToRestartPoint(0)]. *)
Definition cursor_abc_def_restart0 : BlockIter :=
  set_value (set_restart_index (set_key cursor_abc_def []) 0) (SliceAt 0 0).

(** [cursor_abc_def] valid at its second entry, as [SeekToLast] leaves it. *)
Definition cursor_abc_def_at_def : BlockIter :=
  mkIter (Some bytewise) (Some block_abc_def) 14 2 7 1
         (bytes_of [100; 101; 102]%N) (SliceAt 13 1) OK None None.

(** [cursor_b_b] valid at its second entry. *)
Definition cursor_b_b_at_second : BlockIter :=
  mkIter (Some bytewise) (Some block_b_b) 10 2 5 1
         (bytes_of [98]%N) (SliceAt 9 1) OK None None.


(** A prefix index that proposes the restart points 0 and 2 for every key. *)
Definition prefix_index_0_2 : BlockPrefixIndex := fun _ => [0; 2].


(** [cursor_abc_def] valid at its first entry, as [SeekToFirst] leaves it. *)
Definition cursor_abc_def_at_abc : BlockIter :=
  mkIter (Some bytewise) (Some block_abc_def) 14 2 0 0
         (bytes_of [97; 98; 99]%N) (SliceAt 6 1) OK None None.

(** ** Further notions *)

(** The cursor reads the block and, when it is valid, exposes one of its
    entries with a restart index inside the restart array. *)
Definition positioned (d : Bytes) (es : list Entry) (rs : list Z)
    (c : BlockIter) : Prop :=
  cursor_over d rs c /\
  (Valid c = true ->
   exists e, In e es /\ at_entry c e /\
             0 <= restart_index_ c < num_restarts_ c).

(** The invalid state the reader marks the end with. *)
Definition invalidated (c : BlockIter) : Prop :=
  Valid c = false /\
  current_ c = restarts_ c /\ restart_index_ c = num_restarts_ c.

(** The restart point [i] is the left end [l0] of the range the binary
    search started with, or its key is not beyond the target. *)
Definition not_beyond_from (cmp : Comparator) (es : list Entry) (rs : list Z)
    (target : Bytes) (l0 i : Z) : Prop :=
  i = l0 \/
  exists er, restart_entry es rs i er /\ cmp (e_key er) target <= 0.

(** The key of every restart point behind [i] is beyond the target. *)
Definition beyond_after (cmp : Comparator) (es : list Entry) (rs : list Z)
    (target : Bytes) (i : Z) : Prop :=
  forall j er, i < j -> restart_entry es rs j er -> 0 < cmp (e_key er) target.

(** The key of [e] is below the target. *)
Definition below (cmp : Comparator) (target : Bytes) (e : Entry) : Prop :=
  cmp (e_key e) target < 0.

(** What [Seek] runs once a restart index is chosen: the cursor is put in
    front of the restart point and scans forward. *)
Definition Seek_from (c : BlockIter) (target : Bytes) (index : Z)
  : option BlockIter :=
  c <- SeekToRestartPoint c index ;;
  Seek_scan (Z.to_nat (restarts_ c) + 2) c target.



(** Two cursors differ in their position only: in [current_],
    [restart_index_], [key_] and [value_]. *)
Definition same_but_position (c1 c2 : BlockIter) : Prop :=
  same_frame c1 c2 /\ status_ c2 = status_ c1.

(** ** Arbitrary block contents *)




(** ** Meeting a decode failure *)

(** The next [ParseNextKey] of the cursor meets a decode failure: an entry
    lies at the offset it starts from, and the codec rejects it or it
    shares more bytes than the key the cursor holds. *)
Definition decode_fails (c : BlockIter) : Prop :=
  exists d off,
    data_ c = Some d /\ NextEntryOffset c = Some off /\
    off < restarts_ c /\ parse_fails c d off.

(** A probe of restart point [i] meets a decode failure. *)
Definition probe_fails_at (c : BlockIter) (i : Z) : Prop :=
  exists d r,
    data_ c = Some d /\ GetRestartPoint c i = Some r /\ probe_fails c d r.

(** [walks continue c c']: calls of [ParseNextKey] that succeed lead from
    [c] to [c'], and after each of them the loop that makes them goes on:
    [continue] holds of the cursor. *)
Inductive walks (continue : BlockIter -> Prop) : BlockIter -> BlockIter -> Prop :=
| walks_here : forall c, walks continue c c
| walks_step : forall c c1 c2,
    ParseNextKey c = Some (c1, true) ->
    continue c1 ->
    walks continue c1 c2 ->
    walks continue c c2.

(** The loop of [SeekToLast] goes on: [NextEntryOffset() < restarts_]. *)
Definition SeekToLast_goes_on (c : BlockIter) : Prop :=
  exists off, NextEntryOffset c = Some off /\ off < restarts_ c.

(** The second loop of [Prev] goes on: [NextEntryOffset() < original]. *)
Definition Prev_goes_on (original : Z) (c : BlockIter) : Prop :=
  exists off, NextEntryOffset c = Some off /\ off < original.

(** The linear search of [Seek] goes on: [Compare(key_, target) < 0]. *)
Definition Seek_goes_on (target : Bytes) (c : BlockIter) : Prop :=
  exists v, Compare c (key_ c) target = Some v /\ v < 0.

(** The index search [Seek] starts with, by the indexes attached. *)
Definition Seek_index (c : BlockIter) (target : Bytes)
  : option (BlockIter * option Z) :=
  match prefix_index_ c with
  | Some _ => PrefixSeek c target
  | None =>
      match hash_index_ c with
      | Some _ => HashSeek c target
      | None => BinarySeek c target 0 (u32 (num_restarts_ c - 1))
      end
  end.

(** [BinaryBlockIndexSeek_reaches c target block_ids l0 r0 l r]: the loop
    of [BinaryBlockIndexSeek] started with [left = l0], [right = r0] comes
    to its head with [left = l], [right = r]. *)
Inductive BinaryBlockIndexSeek_reaches (c : BlockIter) (target : Bytes)
    (block_ids : list Z) (l0 r0 : Z) : Z -> Z -> Prop :=
| index_reaches_start :
    BinaryBlockIndexSeek_reaches c target block_ids l0 r0 l0 r0
| index_reaches_right : forall l r id v,
    BinaryBlockIndexSeek_reaches c target block_ids l0 r0 l r ->
    l <= r ->
    block_id block_ids (u32 (l + r) / 2) = Some id ->
    CompareBlockKey c id target = Some (c, v) ->
    v < 0 ->
    BinaryBlockIndexSeek_reaches c target block_ids l0 r0
      (u32 (u32 (l + r) / 2 + 1)) r
| index_reaches_left : forall l r id v,
    BinaryBlockIndexSeek_reaches c target block_ids l0 r0 l r ->
    l < r ->
    block_id block_ids (u32 (l + r) / 2) = Some id ->
    CompareBlockKey c id target = Some (c, v) ->
    0 <= v ->
    BinaryBlockIndexSeek_reaches c target block_ids l0 r0
      l (u32 (l + r) / 2).

(** ** Further concrete cursors *)

(** A hash index whose bucket for every key is the restart points 1 and 2. *)
Definition hash_index_1_2 : BlockHashIndex := fun _ => Some (1, 2).

Definition cursor_a_cd_f_hash : BlockIter :=
  Initialize BlockIter_default bytewise block_a_cd_f 16 3
    (Some hash_index_1_2) None.

(** A cursor that was handed back with BadBlockContents for a short buffer
    and is then initialized over [block_a_cd_f] with a prefix index:
    [Initialize] leaves the status alone. *)
Definition cursor_a_cd_f_prefix_bad : BlockIter :=
  Initialize (SetStatus BlockIter_default BadBlockContentsError) bytewise
    block_a_cd_f 16 3 None (Some prefix_index_0_2).

(** One entry ("a", no value) that claims to share one byte with a key
    before it, at the only restart point. *)
Definition block_shared_at_restart : Bytes :=
  bytes_of [1; 1; 0; 97;  0; 0; 0; 0;  1; 0; 0; 0]%N.

Definition cursor_shared_at_restart : BlockIter :=
  cursor_on block_shared_at_restart 4 1.

(** One entry ("a", no value) and a restart array whose only offset, 9,
    points behind the entries. *)
Definition block_restart_beyond : Bytes :=
  bytes_of [0; 1; 0; 97;  9; 0; 0; 0;  1; 0; 0; 0]%N.

Definition cursor_restart_beyond : BlockIter :=
  cursor_on block_restart_beyond 4 1.

(** [cursor_abc_def] as [SeekToFirst] and [Next] leave it: valid at its
    second entry, the restart index still at the first restart point. *)
Definition cursor_abc_def_lagging : BlockIter :=
  mkIter (Some bytewise) (Some block_abc_def) 14 2 7 0
         (bytes_of [100; 101; 102]%N) (SliceAt 13 1) OK None None.








(** An entry ("a", "") followed by an entry that claims a value of 100
    bytes; one restart point. *)
Definition block_a_then_long_value : Bytes :=
  bytes_of [0; 1; 0; 97;  0; 1; 100; 98;  0; 0; 0; 0;  1; 0; 0; 0]%N.

Definition cursor_a_then_long_value : BlockIter :=
  cursor_on block_a_then_long_value 8 1.

(** [cursor_a_then_long_value] after [SeekToRestartPoint(0)], and valid at
    the entry "a". *)
Definition cursor_a_then_long_value_restart0 : BlockIter :=
  set_value (set_restart_index (set_key cursor_a_then_long_value []) 0)
    (SliceAt 0 0).

Definition cursor_a_then_long_value_at_a : BlockIter :=
  mkIter (Some bytewise) (Some block_a_then_long_value) 8 1 0 0
         (bytes_of [97]%N) (SliceAt 4 0) OK None None.

(** * Properties *)

(** Closed goals over concrete buffers. *)
Ltac crunch :=
  vm_compute;
  repeat match goal with |- _ /\ _ => split end;
  first [reflexivity | intros; discriminate].

(** ** Words and raw reads *)

Lemma u32_range : forall x, 0 <= u32 x < 2 ^ 32.
Proof. intros x. unfold u32. apply Z.mod_pos_bound. lia. Qed.

Lemma u32_small : forall x, 0 <= x < 2 ^ 32 -> u32 x = x.
Proof. intros x H. unfold u32. apply Z.mod_small. exact H. Qed.

Lemma u8_range : forall b, 0 <= u8 b < 256.
Proof.
  intros b. unfold u8. pose proof (Byte.to_N_bounded b) as H. lia.
Qed.

Lemma len_nonneg : forall d, 0 <= len d.
Proof. intros d. unfold len. lia. Qed.

Lemma byte_at_Some : forall d p v,
  byte_at d p = Some v -> 0 <= p < len d /\ 0 <= v < 256.
Proof.
  intros d p v. unfold byte_at.
  destruct (p <? 0) eqn:Hp; simpl; [discriminate|].
  destruct (len d <=? p) eqn:Hl; simpl; [discriminate|].
  destruct (nth_error d (Z.to_nat p)) as [b|]; simpl; [|discriminate].
  intros [= <-]. pose proof (u8_range b). lia.
Qed.

Lemma byte_at_defined : forall d p,
  0 <= p < len d -> exists v, byte_at d p = Some v.
Proof.
  intros d p H. unfold byte_at.
  replace (p <? 0) with false by (symmetry; apply Z.ltb_ge; lia).
  replace (len d <=? p) with false by (symmetry; apply Z.leb_gt; lia).
  simpl. destruct (nth_error d (Z.to_nat p)) as [b|] eqn:E.
  - eexists; reflexivity.
  - apply nth_error_None in E. unfold len in H. lia.
Qed.

Lemma peek_range : forall d p, 0 <= peek d p < 256.
Proof.
  intros d p. unfold peek. destruct (byte_at d p) as [v|] eqn:E.
  - apply byte_at_Some in E. lia.
  - lia.
Qed.

Lemma DecodeFixed32_Some : forall d p v,
  DecodeFixed32 d p = Some v ->
  0 <= p /\ p + 4 <= len d /\ 0 <= v < 2 ^ 32.
Proof.
  intros d p v. unfold DecodeFixed32.
  destruct (byte_at d p) as [b0|] eqn:E0; [|discriminate].
  destruct (byte_at d (p + 1)) as [b1|] eqn:E1; [|discriminate].
  destruct (byte_at d (p + 2)) as [b2|] eqn:E2; [|discriminate].
  destruct (byte_at d (p + 3)) as [b3|] eqn:E3; [|discriminate].
  intros [= <-].
  apply byte_at_Some in E0, E1, E2, E3.
  change (2 ^ 32) with 4294967296. lia.
Qed.

Lemma DecodeFixed32_defined : forall d p,
  0 <= p -> p + 4 <= len d -> exists v, DecodeFixed32 d p = Some v.
Proof.
  intros d p H0 H1. unfold DecodeFixed32.
  destruct (byte_at_defined d p) as [b0 ->]; [lia|].
  destruct (byte_at_defined d (p + 1)) as [b1 ->]; [lia|].
  destruct (byte_at_defined d (p + 2)) as [b2 ->]; [lia|].
  destruct (byte_at_defined d (p + 3)) as [b3 ->]; [lia|].
  eexists; reflexivity.
Qed.

(** ** Entry codec *)

Lemma GetVarint32PtrFallback_Some : forall n d p limit shift result p' v,
  0 <= result ->
  GetVarint32PtrFallback n d p limit shift result = Some (p', v) ->
  p < p' <= limit /\ 0 <= v.
Proof.
  induction n as [|n IH]; intros d p limit shift result p' v Hr; simpl.
  - discriminate.
  - destruct ((shift <=? 28) && (p <? limit)) eqn:Hc; [|discriminate].
    apply andb_prop in Hc. destruct Hc as [_ Hp]. apply Z.ltb_lt in Hp.
    destruct (Z.land (peek d p) 128 =? 0).
    + intros [= <- <-]. split; [lia|].
      apply Z.lor_nonneg. split; [exact Hr|]. apply u32_range.
    + intros H. apply IH in H.
      * lia.
      * apply Z.lor_nonneg. split; [exact Hr|]. apply u32_range.
Qed.

Lemma GetVarint32Ptr_Some : forall d p limit p' v,
  GetVarint32Ptr d p limit = Some (p', v) -> p < p' <= limit /\ 0 <= v.
Proof.
  intros d p limit p' v. unfold GetVarint32Ptr.
  destruct ((p <? limit) && (Z.land (peek d p) 128 =? 0)) eqn:Hc.
  - apply andb_prop in Hc. destruct Hc as [Hp _]. apply Z.ltb_lt in Hp.
    intros [= <- <-]. pose proof (peek_range d p). lia.
  - apply GetVarint32PtrFallback_Some. lia.
Qed.

Lemma DecodeEntry_Some : forall d p limit h,
  DecodeEntry d p limit = Some h ->
  p + 3 <= key_ptr h <= limit /\
  0 <= shared h /\ 0 <= non_shared h /\ 0 <= value_length h /\
  u32 (non_shared h + value_length h) <= u32 (limit - key_ptr h).
Proof.
  intros d p limit h. unfold DecodeEntry.
  destruct (limit - p <? 3) eqn:H3; [discriminate|]. apply Z.ltb_ge in H3.
  match goal with
  | |- context [if ?b then Some (mkHeader _ _ _ _) else _] => destruct b
  end.
  - destruct (u32 (limit - (p + 3)) <? u32 (peek d (p + 1) + peek d (p + 2)))
      eqn:Hb; simpl in *; rewrite Hb; [discriminate|].
    apply Z.ltb_ge in Hb. intros [= <-]; simpl.
    pose proof (peek_range d p). pose proof (peek_range d (p + 1)).
    pose proof (peek_range d (p + 2)). lia.
  - destruct (GetVarint32Ptr d p limit) as [[p1 sh]|] eqn:E1; [|discriminate].
    destruct (GetVarint32Ptr d p1 limit) as [[p2 ns]|] eqn:E2; [|discriminate].
    destruct (GetVarint32Ptr d p2 limit) as [[p3 vl]|] eqn:E3; [|discriminate].
    simpl. destruct (u32 (limit - p3) <? u32 (ns + vl)) eqn:Hb; [discriminate|].
    apply Z.ltb_ge in Hb. intros [= <-]; simpl.
    apply GetVarint32Ptr_Some in E1, E2, E3. lia.
Qed.

(** An accepted entry ends inside the region when its two lengths do not
    wrap around in 32 bits. *)
Lemma DecodeEntry_end : forall d p limit h,
  0 <= p -> limit < 2 ^ 32 ->
  DecodeEntry d p limit = Some h ->
  u32 (key_ptr h + non_shared h + value_length h)
  = key_ptr h + u32 (non_shared h + value_length h) /\
  p + 3 <= key_ptr h + u32 (non_shared h + value_length h) <= limit.
Proof.
  intros d p limit h Hp Hl H. apply DecodeEntry_Some in H.
  destruct H as (Hk & _ & _ & _ & Hb).
  rewrite (u32_small (limit - key_ptr h)) in Hb by lia.
  pose proof (u32_range (non_shared h + value_length h)) as Hr.
  split; [|lia].
  unfold u32 in *.
  rewrite <- Z.add_assoc, <- Zplus_mod_idemp_r.
  apply Z.mod_small. lia.
Qed.

(** ** The trailing bounds check of the entry codec *)

(** C2, evaluated at the failing input.  The header of
    [block_wrapped_lengths] declares non_shared = 2^32 - 1 and
    value_length = 2.  Their 32-bit sum is 1, so the single byte left before
    [limit] passes the check: [DecodeEntry] accepts an entry whose declared
    body ends far past [limit], and the key slice that [SeekToFirst] then
    builds leaves the buffer. *)
Theorem DecodeEntry_accepts_wrapped_lengths :
  exists h,
    DecodeEntry block_wrapped_lengths 0 8 = Some h /\
    non_shared h = 2 ^ 32 - 1 /\ value_length h = 2 /\
    8 - key_ptr h < non_shared h + value_length h /\
    (c <- new_cursor block_wrapped_lengths bytewise ;; SeekToFirst c) = None.
Proof.
  exists (mkHeader 7 0 4294967295 2).
  split; [vm_compute; reflexivity|]. simpl.
  split; [reflexivity|]. split; [reflexivity|]. split; [lia|].
  vm_compute. reflexivity.
Qed.

(** ** Uninitialized cursors *)

(** C10.  On a cursor whose [data_] is null, [Seek], [SeekToFirst] and
    [SeekToLast] return at once and leave every field as it was; the cursor
    therefore keeps its validity and its status. *)
Theorem seek_on_uninitialized_cursor_is_noop :
  forall (c : BlockIter) (target : Bytes),
    data_ c = None ->
    Seek c target = Some c /\
    SeekToFirst c = Some c /\
    SeekToLast c = Some c.
Proof.
  intros c target H. unfold Seek, SeekToFirst, SeekToLast.
  rewrite H. repeat split.
Qed.

Lemma seek_on_uninitialized_cursor_is_noop_witness :
  data_ BlockIter_default = None /\
  Valid BlockIter_default = false /\
  Seek BlockIter_default [] = Some BlockIter_default /\
  SeekToFirst BlockIter_default = Some BlockIter_default /\
  SeekToLast BlockIter_default = Some BlockIter_default.
Proof.
  split; [reflexivity|]. split; [reflexivity|].
  apply (seek_on_uninitialized_cursor_is_noop BlockIter_default []).
  reflexivity.
Defined.

(** ** Buffers shorter than the minimum block *)

Lemma NewIterator_below_min : forall b cmp iter total_order_seek,
  b_size_ b < kMinBlockSize ->
  exists it, NewIterator b cmp iter total_order_seek = Some it /\
             iterator_status it = BadBlockContentsError.
Proof.
  intros b cmp iter tos H. unfold NewIterator.
  apply Z.ltb_lt in H. rewrite H.
  destruct iter as [it|]; eexists; split; reflexivity.
Qed.

Lemma GetMiddleKey_below_min : forall b,
  b_size_ b < kMinBlockSize ->
  GetMiddleKey b = Some (ResultError BadBlockContentsError).
Proof.
  intros b H. unfold GetMiddleKey. apply Z.ltb_lt in H. rewrite H. reflexivity.
Qed.

(** C9.  A buffer of 4 to 7 bytes whose trailer passes the wrap check of
    the constructor keeps its size (it is not marked degenerate); all the
    same [NewIterator] returns an iterator whose status is
    BadBlockContents and [GetMiddleKey] returns BadBlockContents, because
    both compare [size_] with [kMinBlockSize]. *)
Theorem short_block_not_degenerate_but_rejected :
  forall (contents : Bytes) (n : Z),
    4 <= len contents < 8 ->
    NumRestarts contents (len contents) = Some n ->
    u32 (u32 (len contents) - u32 (1 + n) * 4) <= len contents - 4 ->
    exists b,
      Block_Block contents = Some b /\
      b_size_ b = len contents /\ b_size_ b <> 0 /\
      (forall cmp iter total_order_seek,
         exists it, NewIterator b cmp iter total_order_seek = Some it /\
                    iterator_status it = BadBlockContentsError) /\
      GetMiddleKey b = Some (ResultError BadBlockContentsError).
Proof.
  intros contents n Hlen Hn Hwrap. unfold Block_Block.
  replace (len contents <? 4) with false by (symmetry; apply Z.ltb_ge; lia).
  rewrite Hn.
  replace (len contents - 4 <? u32 (u32 (len contents) - u32 (1 + n) * 4))
    with false by (symmetry; apply Z.ltb_ge; lia).
  eexists. split; [reflexivity|]. simpl.
  split; [reflexivity|]. split; [lia|]. split.
  - intros. apply NewIterator_below_min. simpl. unfold kMinBlockSize. lia.
  - apply GetMiddleKey_below_min. simpl. unfold kMinBlockSize. lia.
Qed.

Lemma short_block_not_degenerate_but_rejected_witness :
  exists b,
    Block_Block (bytes_of [0; 0; 0; 0]%N) = Some b /\
    b_size_ b = 4 /\ b_size_ b <> 0 /\
    (forall cmp iter total_order_seek,
       exists it, NewIterator b cmp iter total_order_seek = Some it /\
                  iterator_status it = BadBlockContentsError) /\
    GetMiddleKey b = Some (ResultError BadBlockContentsError).
Proof.
  apply (short_block_not_degenerate_but_rejected (bytes_of [0; 0; 0; 0]%N) 0).
  - crunch.
  - crunch.
  - crunch.
Defined.

(** ** The middle key *)

(** C7 as stated fails.  [block_seven_zeros] holds one entry (0, 0, 0) in
    front of num_restarts = 0.  The constructor does not mark it degenerate,
    its size is not that of the empty block, and the entry at the restart
    offset of index 0 decodes with shared = 0; yet [GetMiddleKey] answers
    BadBlockContents, neither that entry's key nor BadEntryInBlock. *)
Lemma middle_key_of_short_block :
  exists b h,
    Block_Block block_seven_zeros = Some b /\
    b_size_ b <> 0 /\ b_size_ b <> kMinBlockSize /\
    NumRestarts (b_data_ b) (b_size_ b) = Some 0 /\
    DecodeFixed32 (b_data_ b) (b_restart_offset_ b + (0 / 2) * 4) = Some 0 /\
    DecodeEntry (b_data_ b) 0 (b_restart_offset_ b) = Some h /\ shared h = 0 /\
    GetMiddleKey b = Some (ResultError BadBlockContentsError).
Proof.
  exists (mkBlock block_seven_zeros 7 3 None None), (mkHeader 3 0 0 0).
  crunch.
Qed.

(** C7, amended.  [GetMiddleKey] answers by the size the constructor left:
    below the 8-byte minimum (a degenerate block, or a buffer of 4 to 7
    bytes) BadBlockContents; exactly 8 bytes Incomplete; above it, when the
    restart offset of index num_restarts / 2 lies inside the buffer, the
    unshared key bytes of the entry at that offset if the entry decodes with
    shared = 0 and its key bytes lie inside the buffer, and BadEntryInBlock
    if the entry does not decode or has shared <> 0. *)
Theorem GetMiddleKey_by_size :
  forall (contents : Bytes) (b : Block),
    Block_Block contents = Some b ->
    (b_size_ b < kMinBlockSize ->
       GetMiddleKey b = Some (ResultError BadBlockContentsError)) /\
    (b_size_ b = kMinBlockSize ->
       GetMiddleKey b = Some (ResultError (Incomplete "Empty block"))) /\
    (kMinBlockSize < b_size_ b ->
       forall n entry_offset,
         NumRestarts contents (len contents) = Some n ->
         DecodeFixed32 contents (b_restart_offset_ b + (n / 2) * 4)
           = Some entry_offset ->
         (forall h key,
            DecodeEntry contents entry_offset (b_restart_offset_ b) = Some h ->
            shared h = 0 ->
            slice contents (key_ptr h) (non_shared h) = Some key ->
            GetMiddleKey b = Some (ResultOk key)) /\
         (forall h,
            DecodeEntry contents entry_offset (b_restart_offset_ b) = Some h ->
            shared h <> 0 ->
            GetMiddleKey b = Some (ResultError BadEntryInBlockError)) /\
         (DecodeEntry contents entry_offset (b_restart_offset_ b) = None ->
            GetMiddleKey b = Some (ResultError BadEntryInBlockError))).
Proof.
  intros contents b Hb.
  assert (Hdata : b_data_ b = contents /\
                  (b_size_ b = 0 \/ b_size_ b = len contents)).
  { unfold Block_Block in Hb.
    destruct (len contents <? 4); [injection Hb as <-; simpl; auto|].
    destruct (NumRestarts contents (len contents)); [|discriminate].
    destruct (_ <? _); injection Hb as <-; simpl; auto. }
  destruct Hdata as [Hd Hs].
  split; [apply GetMiddleKey_below_min|]. split.
  - intros H. unfold GetMiddleKey. rewrite H. reflexivity.
  - intros Hbig n entry_offset Hn Hoff.
    assert (Hsz : b_size_ b = len contents)
      by (unfold kMinBlockSize in Hbig; lia).
    unfold GetMiddleKey.
    replace (b_size_ b <? kMinBlockSize) with false
      by (symmetry; apply Z.ltb_ge; lia).
    replace (b_size_ b =? kMinBlockSize) with false
      by (symmetry; apply Z.eqb_neq; lia).
    rewrite Hd, Hsz, Hn, Hoff.
    split; [|split].
    + intros h key Hh Hsh Hk. rewrite Hh, Hsh, Hk. reflexivity.
    + intros h Hh Hsh. rewrite Hh.
      replace (shared h =? 0) with false by (symmetry; apply Z.eqb_neq; lia).
      reflexivity.
    + intros Hh. rewrite Hh. reflexivity.
Qed.

Lemma GetMiddleKey_by_size_witness :
  exists b,
    Block_Block block_abc_def = Some b /\
    GetMiddleKey b = Some (ResultOk (bytes_of [100; 101; 102]%N)).
Proof.
  exists (mkBlock block_abc_def 26 14 None None).
  split; [vm_compute; reflexivity|].
  refine (proj1 (proj2 (proj2
    (GetMiddleKey_by_size block_abc_def (mkBlock block_abc_def 26 14 None None) _))
    _ 2 7 _ _) (mkHeader 10 0 3 1) _ _ _ _);
    crunch.
Defined.

(** ** The midpoint of the binary seek *)

Lemma BinarySeek_mid_bounds : forall l r,
  0 <= l -> l < r -> r < 2 ^ 31 ->
  BinarySeek_mid l r = (l + r + 1) / 2 /\ l < BinarySeek_mid l r <= r.
Proof.
  intros l r Hl Hlr Hr. unfold BinarySeek_mid.
  change (2 ^ 31) with 2147483648 in Hr.
  rewrite u32_small by (change (2 ^ 32) with 4294967296; lia).
  split; [reflexivity|]. Z.div_mod_to_equations. lia.
Qed.

Lemma BinarySeek_probe_mid : forall c target l r p,
  BinarySeek_probe c target l r = Some p ->
  match p with
  | ProbeCorrupt => True
  | ProbeSmaller mid | ProbeGreater mid | ProbeEqual mid =>
      mid = BinarySeek_mid l r
  end.
Proof.
  intros c target l r p. unfold BinarySeek_probe.
  destruct (GetRestartPoint c (BinarySeek_mid l r)); [|discriminate].
  destruct (data_ c); [|discriminate].
  destruct (DecodeEntry _ _ _) as [h|]; [|intros [= <-]; exact I].
  destruct (negb (shared h =? 0)); [intros [= <-]; exact I|].
  destruct (slice _ _ _); [|discriminate].
  destruct (Compare _ _ _) as [cmp|]; [|discriminate].
  intros [= <-].
  destruct (cmp <? 0); [reflexivity|]. destruct (0 <? cmp); reflexivity.
Qed.

Lemma BinarySeek_reaches_range : forall c target l0 r0 l r,
  0 <= l0 <= r0 -> r0 < 2 ^ 31 ->
  BinarySeek_reaches c target l0 r0 l r ->
  l0 <= l /\ l <= r /\ r <= r0.
Proof.
  intros c target l0 r0 l r H0 Hr0 Hreach.
  induction Hreach as [|l r p l' r' _ IH Hlr Hp Hb]; [lia|].
  destruct IH as (IH1 & IH2 & IH3).
  assert (Hr0' : r0 < 2147483648) by exact Hr0.
  pose proof (BinarySeek_mid_bounds l r ltac:(lia) Hlr ltac:(lia)) as [_ Hm].
  apply BinarySeek_probe_mid in Hp.
  destruct p as [|mid|mid|mid]; simpl in Hb; try discriminate;
    injection Hb as <- <-; subst mid.
  - lia.
  - rewrite u32_small by (change (2 ^ 32) with 4294967296; lia). lia.
  - lia.
Qed.



(** ** The restart-index loop of [ParseNextKey] *)

Lemma GetRestartPoint_set_restart_index : forall c v i,
  GetRestartPoint (set_restart_index c v) i = GetRestartPoint c i.
Proof. reflexivity. Qed.

Lemma same_frame_refl : forall c, same_frame c c.
Proof. intros c. repeat split. Qed.

Lemma same_frame_trans : forall a b c,
  same_frame a b -> same_frame b c -> same_frame a c.
Proof.
  unfold same_frame. intros a b c (A1 & A2 & A3 & A4 & A5 & A6)
    (B1 & B2 & B3 & B4 & B5 & B6).
  repeat split; congruence.
Qed.

Lemma same_frame_GetRestartPoint : forall c c' i,
  same_frame c c' -> GetRestartPoint c' i = GetRestartPoint c i.
Proof.
  intros c c' i (_ & Hd & Hr & _). unfold GetRestartPoint. rewrite Hd, Hr.
  reflexivity.
Qed.

(** What the loop has established when it stops. *)
Lemma advance_restart_index_spec : forall fuel c c',
  0 <= restart_index_ c < num_restarts_ c -> num_restarts_ c < 2 ^ 32 ->
  advance_restart_index fuel c = Some c' ->
  exists ri',
    c' = set_restart_index c ri' /\
    restart_index_ c <= ri' < num_restarts_ c /\
    (ri' = restart_index_ c \/
     exists rp, GetRestartPoint c ri' = Some rp /\ rp < current_ c) /\
    (ri' + 1 < num_restarts_ c ->
     exists rp, GetRestartPoint c (ri' + 1) = Some rp /\ current_ c <= rp).
Proof.
  induction fuel as [|fuel IH]; intros c c' Hri Hnr; simpl; [discriminate|].
  rewrite (u32_small (restart_index_ c + 1)) by lia.
  destruct (restart_index_ c + 1 <? num_restarts_ c) eqn:Hlt.
  - apply Z.ltb_lt in Hlt.
    destruct (GetRestartPoint c (restart_index_ c + 1)) as [rp|] eqn:Hrp;
      [|discriminate].
    destruct (rp <? current_ c) eqn:Hcur.
    + apply Z.ltb_lt in Hcur. intros H. apply IH in H; simpl; try lia.
      destruct H as (ri' & -> & Hle & Hlow & Hup). simpl in *.
      exists ri'. split; [destruct c; reflexivity|].
      split; [lia|]. split; [|exact Hup].
      right. destruct Hlow as [->|Hlow]; [exists rp; auto|exact Hlow].
    + apply Z.ltb_ge in Hcur. intros [= <-].
      exists (restart_index_ c). split; [destruct c; reflexivity|].
      split; [lia|]. split; [left; reflexivity|].
      intros _; exists rp; auto.
  - apply Z.ltb_ge in Hlt. intros [= <-].
    exists (restart_index_ c). split; [destruct c; reflexivity|].
    split; [lia|]. split; [left; reflexivity|]. lia.
Qed.

(** The loop ends within its fuel when the restart array can be read. *)
Lemma advance_restart_index_defined : forall fuel c,
  (forall i, 0 <= i < num_restarts_ c ->
     exists rp, GetRestartPoint c i = Some rp) ->
  0 <= restart_index_ c < num_restarts_ c -> num_restarts_ c < 2 ^ 32 ->
  num_restarts_ c - restart_index_ c <= Z.of_nat fuel ->
  exists c', advance_restart_index fuel c = Some c'.
Proof.
  induction fuel as [|fuel IH]; intros c Hread Hri Hnr Hfuel; [simpl in Hfuel; lia|].
  simpl. rewrite (u32_small (restart_index_ c + 1)) by lia.
  destruct (restart_index_ c + 1 <? num_restarts_ c) eqn:Hlt;
    [|eexists; reflexivity].
  apply Z.ltb_lt in Hlt.
  destruct (Hread (restart_index_ c + 1)) as [rp ->]; [lia|].
  destruct (rp <? current_ c); [|eexists; reflexivity].
  apply IH; simpl; try lia. exact Hread.
Qed.

(** ** One step of parsing *)

Lemma ParseNextKey_true : forall c c',
  ParseNextKey c = Some (c', true) ->
  exists d off h delta,
    data_ c = Some d /\
    NextEntryOffset c = Some off /\
    off < restarts_ c /\
    DecodeEntry d off (restarts_ c) = Some h /\
    shared h <= len (key_ c) /\
    slice d (key_ptr h) (non_shared h) = Some delta /\
    advance_restart_index (Z.to_nat (num_restarts_ c) + 2)
      (parsed c off h delta) = Some c'.
Proof.
  intros c c'. unfold ParseNextKey.
  destruct (data_ c) as [d|]; [|discriminate].
  destruct (NextEntryOffset c) as [off|]; [|discriminate].
  simpl. destruct (restarts_ c <=? off) eqn:Hend; [discriminate|].
  apply Z.leb_gt in Hend.
  destruct (DecodeEntry d off (restarts_ c)) as [h|] eqn:Hh; [|discriminate].
  destruct (len (key_ c) <? shared h) eqn:Hsh; [discriminate|].
  apply Z.ltb_ge in Hsh.
  destruct (slice d (key_ptr h) (non_shared h)) as [delta|] eqn:Hdelta;
    [|discriminate].
  assert (Hkey : (if shared h =? 0 then delta
                  else firstn (Z.to_nat (shared h)) (key_ c) ++ delta)
                 = firstn (Z.to_nat (shared h)) (key_ c) ++ delta).
  { destruct (shared h =? 0) eqn:E; [|reflexivity].
    apply Z.eqb_eq in E. rewrite E. reflexivity. }
  rewrite Hkey.
  match goal with
  | |- context [advance_restart_index ?f ?x] =>
      destruct (advance_restart_index f x) as [c1|] eqn:Hadv; [|discriminate]
  end.
  intros [= <-]. exists d, off, h, delta. repeat split; auto.
Qed.

Lemma ParseNextKey_false : forall c c',
  ParseNextKey c = Some (c', false) ->
  exists off,
    NextEntryOffset c = Some off /\
    (c' = at_end (set_current c off) \/
     c' = CorruptionError (set_current c off)).
Proof.
  intros c c'. unfold ParseNextKey.
  destruct (data_ c) as [d|]; [|discriminate].
  destruct (NextEntryOffset c) as [off|]; [|discriminate].
  simpl. destruct (restarts_ c <=? off) eqn:Hend.
  { intros [= <-]. exists off. split; [reflexivity|]. left. reflexivity. }
  destruct (DecodeEntry d off (restarts_ c)) as [h|] eqn:Hh.
  2:{ intros [= <-]. exists off. split; [reflexivity|]. right. reflexivity. }
  destruct (len (key_ c) <? shared h) eqn:Hsh.
  { intros [= <-]. exists off. split; [reflexivity|]. right. reflexivity. }
  destruct (slice d (key_ptr h) (non_shared h)) as [delta|]; [|discriminate].
  match goal with
  | |- context [advance_restart_index ?f ?x] =>
      destruct (advance_restart_index f x) as [c1|]; discriminate
  end.
Qed.

Lemma NextEntryOffset_Some : forall c off,
  NextEntryOffset c = Some off ->
  exists o n, value_ c = SliceAt o n /\ off = u32 (o + n) /\ 0 <= off < 2 ^ 32.
Proof.
  intros c off. unfold NextEntryOffset.
  destruct (data_ c); [|discriminate].
  destruct (value_ c) as [o n|]; [|discriminate].
  intros [= <-]. exists o, n. repeat split; apply u32_range.
Qed.

(** ** The restart index after a parse *)

(** C3 as stated fails.  On [block_abc_def] the restart offsets are 0 and
    7.  After [SeekToFirst] and [Next] the cursor is valid at offset 7 with
    restart_index_ = 0, although restart offset 1 is 7 <= current_: the loop
    of [ParseNextKey] advances only past restart offsets that are strictly
    below [current_]. *)
Lemma restart_index_lags_at_restart_point :
  exists c,
    (c0 <- SeekToFirst cursor_abc_def ;; Next c0) = Some c /\
    Valid c = true /\
    current_ c = 7 /\ restart_index_ c = 0 /\ num_restarts_ c = 2 /\
    GetRestartPoint c 1 = Some 7 /\
    ~ restart_index_is_largest c.
Proof.
  eexists. split; [vm_compute; reflexivity|].
  split; [reflexivity|]. split; [reflexivity|]. split; [reflexivity|].
  split; [reflexivity|]. split; [crunch|].
  intros [_ H]. specialize (H 1 7). simpl in H.
  assert (7 < 7) by (apply H; [lia|crunch]). lia.
Qed.

(** Let the restart index of the cursor be an index of the restart array
    whose offset is not beyond the entry about to be parsed, and let the
    restart offsets ascend.  After a successful [ParseNextKey] the restart
    offset at [restart_index_] is <= [current_], every restart offset of a
    larger index is >= [current_], and the entry parsed ends beyond
    [current_]. *)
Lemma ParseNextKey_restart_index_step :
  forall (c c' : BlockIter) (rp off : Z),
    0 <= restart_index_ c < num_restarts_ c ->
    num_restarts_ c < 2 ^ 32 ->
    restarts_ c < 2 ^ 32 ->
    restart_offsets_ascend c ->
    GetRestartPoint c (restart_index_ c) = Some rp ->
    NextEntryOffset c = Some off ->
    rp <= off ->
    ParseNextKey c = Some (c', true) ->
    restart_index_brackets c' /\
    0 <= restart_index_ c' < num_restarts_ c' /\
    exists off', NextEntryOffset c' = Some off' /\ current_ c' < off'.
Proof.
  intros c c' rp off Hri Hnr HR Hasc Hrp Hoff Hle Hparse.
  apply ParseNextKey_true in Hparse.
  destruct Hparse as (d & off1 & h & delta & Hd & Hoff1 & Hlt & Hh & Hsh & Hdelta & Hadv).
  rewrite Hoff in Hoff1. injection Hoff1 as <-.
  apply advance_restart_index_spec in Hadv; [|exact Hri|exact Hnr].
  destruct Hadv as (ri' & -> & Hrange & Hlow & Hup).
  change (restart_index_ (parsed c off h delta)) with (restart_index_ c) in *.
  change (num_restarts_ (parsed c off h delta)) with (num_restarts_ c) in *.
  change (current_ (parsed c off h delta)) with off in *.
  assert (HG : forall i, GetRestartPoint (parsed c off h delta) i
                         = GetRestartPoint c i) by reflexivity.
  split; [|split].
  - split.
    + simpl. change (GetRestartPoint (set_restart_index (parsed c off h delta) ri') ri')
        with (GetRestartPoint c ri').
      destruct Hlow as [->|(rp' & Hrp' & Hlt')].
      * exists rp. auto.
      * rewrite HG in Hrp'. exists rp'. split; [exact Hrp'|lia].
    + simpl. intros i rpi Hi Hrpi.
      change (GetRestartPoint (set_restart_index (parsed c off h delta) ri') i)
        with (GetRestartPoint c i) in Hrpi.
      destruct (Hup ltac:(lia)) as (rp1 & Hrp1 & Hle1). rewrite HG in Hrp1.
      destruct (Z.eq_dec i (ri' + 1)) as [->|Hne].
      * rewrite Hrp1 in Hrpi. injection Hrpi as <-. exact Hle1.
      * assert (rp1 < rpi) by (apply (Hasc (ri' + 1) i); auto; lia). lia.
  - simpl. lia.
  - apply NextEntryOffset_Some in Hoff. destruct Hoff as (? & ? & _ & _ & Hoff).
    destruct (DecodeEntry_end d off (restarts_ c) h) as [He1 He2]; auto; [lia|].
    exists (key_ptr h + u32 (non_shared h + value_length h)). split.
    + unfold NextEntryOffset. simpl. rewrite Hd, He1. reflexivity.
    + simpl. lia.
Qed.

(** ** Well-formed blocks *)

Lemma entry_at_Some : forall d limit off prev e,
  entry_at d limit off prev = Some e ->
  exists h delta,
    DecodeEntry d off limit = Some h /\
    shared h <= len prev /\
    slice d (key_ptr h) (non_shared h) = Some delta /\
    e = mkEntry off (shared h) (firstn (Z.to_nat (shared h)) prev ++ delta)
          (key_ptr h + non_shared h) (value_length h).
Proof.
  intros d limit off prev e. unfold entry_at.
  destruct (DecodeEntry d off limit) as [h|]; [|discriminate].
  destruct (len prev <? shared h) eqn:Hsh; [discriminate|].
  apply Z.ltb_ge in Hsh.
  destruct (slice d (key_ptr h) (non_shared h)) as [delta|] eqn:Hd;
    [|discriminate].
  intros [= <-]. exists h, delta. auto.
Qed.

(** An entry that shares nothing reads the same after any key. *)
Lemma entry_at_shared0 : forall d limit off prev prev' e,
  entry_at d limit off prev = Some e -> e_shared e = 0 ->
  entry_at d limit off prev' = Some e.
Proof.
  intros d limit off prev prev' e H Hsh.
  apply entry_at_Some in H. destruct H as (h & delta & Hh & _ & Hd & ->).
  simpl in Hsh. unfold entry_at. rewrite Hh, Hsh.
  replace (len prev' <? 0) with false
    by (symmetry; apply Z.ltb_ge; apply len_nonneg).
  rewrite Hd. reflexivity.
Qed.

Lemma entry_at_span : forall d limit off prev e,
  0 <= off -> limit < 2 ^ 32 ->
  entry_at d limit off prev = Some e ->
  e_off e = off /\ off + 3 <= e_voff e /\ 0 <= e_vlen e /\ 0 <= e_shared e.
Proof.
  intros d limit off prev e Hoff Hl H.
  apply entry_at_Some in H. destruct H as (h & delta & Hh & _ & _ & ->).
  apply DecodeEntry_Some in Hh. simpl. lia.
Qed.

Lemma entries_from_le : forall d limit off prev es,
  entries_from d limit off prev es -> off <= limit.
Proof. intros d limit off prev [|e es]; simpl; lia. Qed.

(** Offsets grow along the entries. *)
Lemma entries_from_offsets : forall d limit es off prev,
  0 <= off -> limit < 2 ^ 32 ->
  entries_from d limit off prev es ->
  Forall (fun e => off <= e_off e /\ e_off e + 3 <= e_voff e + e_vlen e
                   /\ e_voff e + e_vlen e <= limit) es /\
  StronglySorted (fun a b => e_off a < e_off b) es.
Proof.
  intros d limit es. induction es as [|e es IH]; intros off prev Hoff Hl H.
  - split; constructor.
  - simpl in H. destruct H as (Hlt & He & Hrest).
    destruct (entry_at_span _ _ _ _ _ Hoff Hl He) as (Ho & Hv & Hn & _).
    pose proof (entries_from_le _ _ _ _ _ Hrest) as Hend.
    assert (H0 : 0 <= e_voff e + e_vlen e) by lia.
    destruct (IH _ _ H0 Hl Hrest) as [IH1 IH2].
    split.
    + constructor; [lia|].
      eapply Forall_impl; [|exact IH1]. simpl. intros a Ha. lia.
    + constructor; [exact IH2|].
      eapply Forall_impl; [|exact IH1]. simpl. intros a Ha. lia.
Qed.

(** The entries from any entry on are laid out after the entry before it. *)
Lemma entries_from_app : forall d limit es1 es2 off prev,
  entries_from d limit off prev (es1 ++ es2) ->
  exists off' prev',
    entries_from d limit off' prev' es2 /\
    (es1 = [] -> off' = off /\ prev' = prev) /\
    (forall b p, es1 = b ++ [p] ->
       off' = e_voff p + e_vlen p /\ prev' = e_key p).
Proof.
  intros d limit es1. induction es1 as [|e es1 IH]; intros es2 off prev H.
  - exists off, prev. split; [exact H|]. split; [auto|].
    intros b p Hb. destruct b; discriminate.
  - simpl in H. destruct H as (_ & _ & Hrest).
    destruct (IH _ _ _ Hrest) as (off' & prev' & H' & Hnil & Hsnoc).
    exists off', prev'. split; [exact H'|]. split; [discriminate|].
    intros b p Hb. destruct es1 as [|e1 es1].
    + destruct b as [|x b]; [|destruct b; discriminate].
      injection Hb as <-. apply Hnil. reflexivity.
    + destruct b as [|x b]; [discriminate|]. injection Hb as <- Hb.
      apply (Hsnoc b p). exact Hb.
Qed.

Lemma entries_from_restart : forall d limit off prev e es,
  entries_from d limit off prev (e :: es) -> e_shared e = 0 ->
  entries_from d limit off [] (e :: es).
Proof.
  intros d limit off prev e es (Hlt & He & Hrest) Hsh.
  simpl. repeat split; auto. eapply entry_at_shared0; eauto.
Qed.

Lemma StronglySorted_nth_lt : forall (l : list Z) i j a b,
  StronglySorted Z.lt l -> (i < j)%nat ->
  nth_error l i = Some a -> nth_error l j = Some b -> a < b.
Proof.
  intros l i j a b Hs. revert i j.
  induction Hs as [|x l Hs IH Hall]; intros i j Hij Ha Hb.
  - destruct i; discriminate.
  - destruct j as [|j]; [lia|]. simpl in Hb. destruct i as [|i].
    + simpl in Ha. injection Ha as <-.
      rewrite Forall_forall in Hall. apply Hall.
      eapply nth_error_In; eauto.
    + simpl in Ha. apply (IH i j); auto. lia.
Qed.

Lemma restart_nth : forall (rs : list Z) i,
  0 <= i < num_restarts_of rs ->
  exists r, nth_error rs (Z.to_nat i) = Some r.
Proof.
  intros rs i Hi. destruct (nth_error rs (Z.to_nat i)) as [r|] eqn:E.
  - exists r. reflexivity.
  - apply nth_error_None in E. unfold num_restarts_of in Hi. lia.
Qed.

Section WellFormed.

Variables (d : Bytes) (es : list Entry) (rs : list Z).
Hypothesis WF : well_formed d es rs.

Let R := restarts_of d rs.
Let nr := num_restarts_of rs.

Lemma wf_bounds : 0 <= R < 2 ^ 32 /\ 1 <= nr < 2 ^ 32.
Proof.
  pose proof (wf_size _ _ _ WF) as Hs. pose proof (wf_limit _ _ _ WF) as Hl.
  pose proof (wf_first_restart _ _ _ WF) as Hf.
  pose proof (len_nonneg d).
  subst R nr. unfold restarts_of, num_restarts_of in *.
  destruct rs as [|r0 rs']; [discriminate|]. simpl List.length in *.
  change (2 ^ 32) with 4294967296 in *. lia.
Qed.

Lemma wf_GetRestartPoint : forall c i r,
  cursor_over d rs c -> 0 <= i ->
  nth_error rs (Z.to_nat i) = Some r ->
  GetRestartPoint c i = Some r.
Proof.
  intros c i r (Hd & Hr & _) Hi Hn. unfold GetRestartPoint.
  rewrite Hd, Hr. apply (wf_restart_array _ _ _ WF) in Hn.
  rewrite Z2Nat.id in Hn by lia. exact Hn.
Qed.

Lemma wf_GetRestartPoint_defined : forall c i,
  cursor_over d rs c -> 0 <= i < num_restarts_ c ->
  exists r, nth_error rs (Z.to_nat i) = Some r /\ GetRestartPoint c i = Some r.
Proof.
  intros c i Hc Hi. destruct Hc as (Hd & Hr & Hn).
  destruct (restart_nth rs i) as [r Hnth]; [lia|].
  exists r. split; [exact Hnth|].
  apply wf_GetRestartPoint; [repeat split; auto|lia|exact Hnth].
Qed.

Lemma wf_restart_offsets_ascend : forall c,
  cursor_over d rs c -> restart_offsets_ascend c.
Proof.
  intros c Hc i j ri rj Hi Hij Hj Hri Hrj.
  destruct (wf_GetRestartPoint_defined c i Hc ltac:(lia)) as (ri' & Hni & Hgi).
  destruct (wf_GetRestartPoint_defined c j Hc ltac:(lia)) as (rj' & Hnj & Hgj).
  rewrite Hgi in Hri. rewrite Hgj in Hrj.
  injection Hri as <-. injection Hrj as <-.
  eapply StronglySorted_nth_lt;
    [exact (wf_restarts_ascending _ _ _ WF)| |exact Hni|exact Hnj].
  lia.
Qed.

(** The entries from a restart point on. *)
Lemma wf_restart_entries_from : forall r,
  In r rs -> es <> [] ->
  exists before e after,
    es = before ++ e :: after /\ e_off e = r /\ e_shared e = 0 /\
    entries_from d R r [] (e :: after).
Proof.
  intros r Hr Hne.
  destruct (wf_restart_entries _ _ _ WF r Hr) as [[_ Hnil]|(e & He & Hoff & Hsh)];
    [contradiction|].
  apply in_split in He. destruct He as (before & after & Hes).
  exists before, e, after.
  split; [exact Hes|]. split; [exact Hoff|]. split; [exact Hsh|].
  pose proof (wf_entries _ _ _ WF) as Hall. fold R in Hall.
  rewrite Hes in Hall. apply entries_from_app in Hall.
  destruct Hall as (off' & prev' & H' & _ & _).
  pose proof H' as (_ & Hat & _).
  destruct wf_bounds as [HR _].
  assert (Hoff' : off' = r).
  { apply entry_at_Some in Hat. destruct Hat as (h & dl & _ & _ & _ & ->).
    simpl in Hoff. exact Hoff. }
  subst off'. exact (entries_from_restart _ _ _ prev' _ _ H' Hsh).
Qed.

End WellFormed.

(** ** Walking a well-formed block *)

Section Walk.

Variables (d : Bytes) (es : list Entry) (rs : list Z).
Hypothesis WF : well_formed d es rs.

Let R := restarts_of d rs.
Let nr := num_restarts_of rs.

(** [ParseNextKey] in front of an entry lands on it. *)
Lemma ParseNextKey_entry : forall c off e,
  cursor_over d rs c ->
  0 <= restart_index_ c < num_restarts_ c ->
  poised c off (key_ c) ->
  0 <= off < R ->
  entry_at d R off (key_ c) = Some e ->
  exists c',
    ParseNextKey c = Some (c', true) /\
    at_entry c' e /\
    same_frame c c' /\ status_ c' = status_ c /\
    restart_index_ c <= restart_index_ c' < num_restarts_ c'.
Proof.
  intros c off e Hc Hri Hp Hoff He.
  destruct (wf_bounds d es rs WF) as [HR Hnr]. fold R in HR. fold nr in Hnr.
  pose proof Hc as (Hd & Hr & Hn). fold R in Hr. fold nr in Hn.
  destruct Hp as [(o & n & Hv & Hon) _].
  apply entry_at_Some in He.
  destruct He as (h & delta & Hh & Hsh & Hdelta & ->).
  assert (Hadv : exists c', advance_restart_index
                   (Z.to_nat (num_restarts_ c) + 2) (parsed c off h delta)
                 = Some c').
  { apply advance_restart_index_defined; simpl.
    - intros i Hi.
      destruct (wf_GetRestartPoint_defined d es rs WF c i Hc Hi) as (r & _ & Hg).
      exists r. exact Hg.
    - exact Hri.
    - lia.
    - lia. }
  destruct Hadv as [c' Hadv].
  exists c'. split.
  - unfold ParseNextKey. rewrite Hd. unfold NextEntryOffset. rewrite Hd, Hv.
    rewrite Hon. rewrite (u32_small off) by lia. simpl.
    rewrite Hr. replace (R <=? off) with false by (symmetry; apply Z.leb_gt; lia).
    rewrite Hh.
    replace (len (key_ c) <? shared h) with false
      by (symmetry; apply Z.ltb_ge; lia).
    rewrite Hdelta.
    assert (Hkey : (if shared h =? 0 then delta
                    else firstn (Z.to_nat (shared h)) (key_ c) ++ delta)
                   = firstn (Z.to_nat (shared h)) (key_ c) ++ delta).
    { destruct (shared h =? 0) eqn:E; [|reflexivity].
      apply Z.eqb_eq in E. rewrite E. reflexivity. }
    rewrite Hkey. fold (parsed c off h delta). rewrite Hadv. reflexivity.
  - apply advance_restart_index_spec in Hadv; simpl; [|exact Hri|lia].
    destruct Hadv as (ri' & -> & Hrange & _). simpl in Hrange.
    split; [repeat split|]. split; [repeat split|]. split; [reflexivity|].
    simpl. lia.
Qed.

(** [ParseNextKey] at the end of the entries invalidates the cursor. *)
Lemma ParseNextKey_end : forall c prev,
  cursor_over d rs c -> poised c R prev ->
  ParseNextKey c = Some (at_end (set_current c R), false).
Proof.
  intros c prev (Hd & Hr & Hn) [(o & n & Hv & Hon) _].
  destruct (wf_bounds d es rs WF) as [HR _]. fold R in HR, Hr.
  unfold ParseNextKey. rewrite Hd. unfold NextEntryOffset. rewrite Hd, Hv, Hon.
  rewrite (u32_small R) by lia. rewrite <- Hr. simpl.
  rewrite Z.leb_refl. reflexivity.
Qed.

Lemma at_entry_poised : forall c e,
  at_entry c e -> poised c (e_voff e + e_vlen e) (e_key e).
Proof.
  intros c e (_ & Hk & Hv). split; [|exact Hk].
  exists (e_voff e), (e_vlen e). auto.
Qed.

Lemma cursor_over_frame : forall c c',
  cursor_over d rs c -> same_frame c c' -> cursor_over d rs c'.
Proof.
  intros c c' (Hd & Hr & Hn) (_ & Hd' & Hr' & Hn' & _).
  repeat split; congruence.
Qed.

End Walk.

(** ** Moving backwards *)

Lemma split_before : forall (A : Type) (f : A -> Z) (l l1 l2 l3 l4 : list A) x y,
  StronglySorted (fun a b => f a < f b) l ->
  l = l1 ++ x :: l2 -> l = l3 ++ y :: l4 -> f x < f y ->
  exists m, l3 = l1 ++ x :: m.
Proof.
  intros A f l l1. revert l.
  induction l1 as [|a l1 IH]; intros l l2 l3 l4 x y Hs H1 H2 Hlt.
  - destruct l3 as [|z l3].
    + subst l. injection H2 as -> _. lia.
    + subst l. injection H2 as -> _. exists l3. reflexivity.
  - destruct l3 as [|z l3].
    + subst l. simpl in H2. injection H2 as -> Ht.
      inversion Hs as [|? ? _ Hall]; subst.
      rewrite Forall_forall in Hall.
      assert (f y < f x) by (apply Hall; apply in_elt). lia.
    + subst l. simpl in H2. injection H2 as -> Ht.
      inversion Hs as [|? ? Hs' _]; subst.
      destruct (IH _ l2 l3 l4 x y Hs' eq_refl Ht Hlt) as [m ->].
      exists m. reflexivity.
Qed.

Lemma at_end_set_restart_index : forall c v,
  at_end (set_restart_index c v) = at_end c.
Proof. intros [] v. reflexivity. Qed.

Section Backwards.

Variables (d : Bytes) (es : list Entry) (rs : list Z).
Hypothesis WF : well_formed d es rs.

Let R := restarts_of d rs.
Let nr := num_restarts_of rs.

(** At the first entry the rewind runs out of restart points. *)
Lemma Prev_rewind_first : forall fuel c,
  cursor_over d rs c ->
  0 <= restart_index_ c < num_restarts_ c ->
  restart_index_ c < Z.of_nat fuel ->
  Prev_rewind fuel 0 c = Some (at_end c, true).
Proof.
  induction fuel as [|fuel IH]; intros c Hc Hri Hfuel; [simpl in Hfuel; lia|].
  simpl.
  destruct (wf_GetRestartPoint_defined d es rs WF c _ Hc Hri) as (r & Hnth & ->).
  assert (0 <= r).
  { destruct (Z.eq_dec (restart_index_ c) 0) as [E|E].
    - rewrite E in Hnth. change (Z.to_nat 0) with 0%nat in Hnth.
      rewrite (wf_first_restart _ _ _ WF) in Hnth. injection Hnth as <-. lia.
    - assert (0 < r); [|lia].
      eapply StronglySorted_nth_lt;
        [exact (wf_restarts_ascending _ _ _ WF)| |
         exact (wf_first_restart _ _ _ WF)|exact Hnth].
      lia. }
  replace (0 <=? r) with true by (symmetry; apply Z.leb_le; lia).
  destruct (restart_index_ c =? 0) eqn:E; [reflexivity|].
  apply Z.eqb_neq in E.
  destruct (wf_bounds d es rs WF) as [_ Hnr].
  pose proof Hc as (_ & _ & Hn).
  rewrite u32_small by (unfold num_restarts_of in *; lia).
  rewrite IH.
  - rewrite at_end_set_restart_index. reflexivity.
  - exact Hc.
  - simpl. lia.
  - simpl. lia.
Qed.

(** Elsewhere it stops at a restart point in front of [original]. *)
Lemma Prev_rewind_back : forall fuel c original,
  cursor_over d rs c ->
  0 <= restart_index_ c < num_restarts_ c ->
  restart_index_ c < Z.of_nat fuel ->
  0 < original ->
  exists ri' r,
    Prev_rewind fuel original c = Some (set_restart_index c ri', false) /\
    0 <= ri' <= restart_index_ c /\
    nth_error rs (Z.to_nat ri') = Some r /\ r < original.
Proof.
  induction fuel as [|fuel IH]; intros c original Hc Hri Hfuel Horig;
    [simpl in Hfuel; lia|].
  simpl.
  destruct (wf_GetRestartPoint_defined d es rs WF c _ Hc Hri) as (r & Hnth & ->).
  destruct (original <=? r) eqn:Hcmp.
  - apply Z.leb_le in Hcmp.
    destruct (restart_index_ c =? 0) eqn:E.
    + apply Z.eqb_eq in E. rewrite E in Hnth. change (Z.to_nat 0) with 0%nat in Hnth.
      rewrite (wf_first_restart _ _ _ WF) in Hnth. injection Hnth as <-. lia.
    + apply Z.eqb_neq in E.
      destruct (wf_bounds d es rs WF) as [_ Hnr].
      pose proof Hc as (_ & _ & Hn).
      rewrite u32_small by (unfold num_restarts_of in *; lia).
      destruct (IH (set_restart_index c (restart_index_ c - 1)) original)
        as (ri' & r' & Hrew & Hrange & Hnth' & Hlt); simpl; auto; try lia.
      exists ri', r'. rewrite Hrew. simpl in Hrange.
      split; [destruct c; reflexivity|]. split; [lia|]. auto.
  - apply Z.leb_gt in Hcmp. exists (restart_index_ c), r.
    split; [destruct c; reflexivity|]. split; [lia|]. auto.
Qed.

Lemma SeekToRestartPoint_wf : forall c i r,
  cursor_over d rs c -> 0 <= i ->
  nth_error rs (Z.to_nat i) = Some r ->
  SeekToRestartPoint c i
  = Some (set_value (set_restart_index (set_key c []) i) (SliceAt r 0)).
Proof.
  intros c i r Hc Hi Hnth. unfold SeekToRestartPoint.
  change (GetRestartPoint (set_restart_index (set_key c []) i) i)
    with (GetRestartPoint c i).
  rewrite (wf_GetRestartPoint d es rs WF c i r Hc Hi Hnth). reflexivity.
Qed.

(** The forward walk of [Prev] stops on the entry in front of [e]. *)
Lemma Prev_walk_spec : forall e after p s fuel c off,
  entries_from d R off (key_ c) (s ++ p :: e :: after) ->
  cursor_over d rs c ->
  0 <= restart_index_ c < num_restarts_ c ->
  poised c off (key_ c) ->
  0 <= off ->
  R - off < Z.of_nat fuel ->
  exists c',
    Prev_walk fuel (e_off e) c = Some c' /\
    at_entry c' p /\ same_frame c c' /\ status_ c' = status_ c /\
    0 <= restart_index_ c' < num_restarts_ c'.
Proof.
  intros e after p s.
  destruct (wf_bounds d es rs WF) as [HR Hnr]. fold R in HR.
  induction s as [|q s IH]; intros fuel c off Hes Hc Hri Hp Hoff Hfuel.
  - simpl in Hes. destruct Hes as (Hlt & Hp_at & Hlt' & He_at & _).
    destruct fuel as [|fuel]; [simpl in Hfuel; lia|]. simpl.
    destruct (ParseNextKey_entry d es rs WF c off p Hc Hri Hp ltac:(fold R; lia) Hp_at)
      as (c' & -> & Hat & Hfr & Hst & Hri').
    assert (Hover : cursor_over d rs c') by (eapply cursor_over_frame; eauto).
    pose proof Hover as (Hd' & _).
    destruct Hat as (Hcur & Hkey & Hval).
    destruct (entry_at_span d R off (key_ c) p Hoff ltac:(lia) Hp_at) as (Hpo & Hpv & Hpn & _).
    unfold NextEntryOffset. rewrite Hd', Hval.
    apply entry_at_Some in He_at.
    destruct He_at as (h & dl & _ & _ & _ & ->). simpl.
    rewrite u32_small by lia. rewrite Z.ltb_irrefl.
    exists c'. split; [reflexivity|]. split; [repeat split; assumption|].
    split; [exact Hfr|]. split; [exact Hst|lia].
  - simpl in Hes. destruct Hes as (Hlt & Hq_at & Hrest).
    destruct fuel as [|fuel]; [simpl in Hfuel; lia|]. simpl.
    destruct (ParseNextKey_entry d es rs WF c off q Hc Hri Hp ltac:(fold R; lia) Hq_at)
      as (c1 & -> & Hat & Hfr & Hst & Hri1).
    assert (Hover : cursor_over d rs c1) by (eapply cursor_over_frame; eauto).
    pose proof Hover as (Hd1 & _).
    pose proof (at_entry_poised c1 q Hat) as Hp1.
    destruct Hat as (Hcur & Hkey & Hval).
    destruct (entry_at_span d R off (key_ c) q Hoff ltac:(lia) Hq_at) as (Hqo & Hqv & Hqn & _).
    assert (Hq0 : 0 <= e_voff q + e_vlen q) by lia.
    destruct (entries_from_offsets d R _ _ _ Hq0 ltac:(lia) Hrest) as [Hall Hsorted].
    (* the entry in front of [e] starts below [e] *)
    assert (Hbelow : e_voff q + e_vlen q < e_off e).
    { rewrite Forall_forall in Hall.
      assert (Hin : In e (s ++ p :: e :: after))
        by (apply in_or_app; right; right; left; reflexivity).
      assert (Hpin : In p (s ++ p :: e :: after))
        by (apply in_or_app; right; left; reflexivity).
      pose proof (Hall p Hpin) as Hpb.
      assert (e_off p < e_off e).
      { clear - Hsorted. induction s as [|x s IHs]; simpl in Hsorted.
        - inversion Hsorted as [|? ? _ Hf]; subst.
          rewrite Forall_forall in Hf. apply Hf. left. reflexivity.
        - inversion Hsorted; subst. auto. }
      lia. }
    unfold NextEntryOffset. rewrite Hd1, Hval.
    pose proof (entries_from_le _ _ _ _ _ Hrest).
    rewrite u32_small by lia.
    replace (e_voff q + e_vlen q <? e_off e) with true
      by (symmetry; apply Z.ltb_lt; exact Hbelow).
    rewrite <- Hkey in Hrest.
    destruct Hp1 as [Hp1 _].
    destruct (IH fuel c1 (e_voff q + e_vlen q) Hrest Hover ltac:(lia)
                ltac:(split; [exact Hp1|reflexivity]) Hq0 ltac:(lia))
      as (c' & Hwalk & Hat' & Hfr' & Hst' & Hri').
    exists c'. split; [exact Hwalk|]. split; [exact Hat'|].
    split; [eapply same_frame_trans; eauto|]. split; [congruence|exact Hri'].
Qed.

End Backwards.

(** ** Forward/backward symmetry *)

Lemma snoc_suffix : forall (A : Type) (b b1 m : list A) (p x : A),
  b ++ [p] = b1 ++ x :: m -> exists s, x :: m = s ++ [p].
Proof.
  intros A b b1 m p x H.
  destruct (exists_last (l := x :: m)) as (s & q & Hs); [discriminate|].
  exists s. rewrite Hs in H. rewrite app_assoc in H.
  apply app_inj_tail in H. destruct H as [_ ->]. exact Hs.
Qed.

(** C4.  Let the cursor be valid at an entry [e] of a well-formed block.
    If [e] is the first entry, [Prev] leaves the cursor invalid, with
    current_ = restarts_ and restart_index_ = num_restarts_, and the status
    still OK.  Otherwise [Prev] lands on the entry [p] just before [e],
    valid, and [Next] from there returns to [e] with the same key and the
    same value.  ([Next] requires a valid cursor, so the round trip is about
    the entries that have a predecessor.) *)
Theorem prev_next_symmetry :
  forall (d : Bytes) (es : list Entry) (rs : list Z)
         (before after : list Entry) (e : Entry) (c : BlockIter),
    well_formed d es rs ->
    es = before ++ e :: after ->
    cursor_at d rs c e ->
    status_ c = OK ->
    (before = [] ->
       exists c1,
         Prev c = Some c1 /\ Valid c1 = false /\
         current_ c1 = restarts_ c1 /\
         restart_index_ c1 = num_restarts_ c1 /\
         status_ c1 = OK) /\
    (forall b p, before = b ++ [p] ->
       exists c1 c2,
         Prev c = Some c1 /\ Valid c1 = true /\ at_entry c1 p /\
         status_ c1 = OK /\
         Next c1 = Some c2 /\ Valid c2 = true /\ at_entry c2 e /\
         key_ c2 = key_ c /\ value_ c2 = value_ c /\ status_ c2 = OK).
Proof.
  intros d es rs before after e c WF Hes (Hc & Hat & Hri) Hst.
  destruct (wf_bounds d es rs WF) as [HR Hnr].
  pose proof (wf_entries _ _ _ WF) as Hall. rewrite Hes in Hall.
  destruct (entries_from_offsets d (restarts_of d rs) _ 0 [] ltac:(lia)
              ltac:(lia) Hall) as [Hspan Hsorted].
  pose proof Hc as (Hd & Hr & Hn).
  pose proof Hat as (Hcur & Hkey & Hval).
  split.
  - intros ->. simpl in Hall. destruct Hall as (_ & He & _).
    destruct (entry_at_span d (restarts_of d rs) 0 [] e ltac:(lia) ltac:(lia) He)
      as (H0 & _).
    exists (at_end c). unfold Prev. rewrite Hcur, H0.
    rewrite (Prev_rewind_first d es rs WF); auto; [|lia].
    split; [reflexivity|]. split; [apply Z.ltb_irrefl|].
    split; [reflexivity|]. split; [reflexivity|exact Hst].
  - intros b p ->.
    (* [p] lies below [e] *)
    assert (Hpe : 0 <= e_off p /\ e_off p < e_off e /\ e_off e < restarts_of d rs).
    { rewrite Forall_forall in Hspan.
      pose proof (Hspan p ltac:(apply in_or_app; left; apply in_or_app;
                                right; left; reflexivity)).
      pose proof (Hspan e ltac:(apply in_or_app; right; left; reflexivity)).
      split; [lia|]. split; [|lia].
      clear - Hsorted. rewrite <- app_assoc in Hsorted. simpl in Hsorted.
      induction b as [|x b IHb]; simpl in Hsorted.
      - inversion Hsorted as [|? ? _ Hf]; subst.
        rewrite Forall_forall in Hf. apply Hf. left. reflexivity.
      - inversion Hsorted; subst. auto. }
    destruct Hpe as (Hp0 & Hplt & HeR).
    (* the rewind *)
    destruct (Prev_rewind_back d es rs WF (Z.to_nat (restart_index_ c) + 1) c
                (e_off e) Hc Hri ltac:(lia) ltac:(lia))
      as (ri' & r & Hrew & Hri' & Hnth & Hrlt).
    (* the restart entry and the segment up to [p] *)
    assert (Hne : es <> []) by (rewrite Hes; destruct (b ++ [p]); discriminate).
    destruct (wf_restart_entries_from d es rs WF r
                (nth_error_In _ _ Hnth) Hne)
      as (b1 & er & a1 & Hes1 & Her & Hsh & Hfrom).
    assert (Hsorted' : StronglySorted (fun a b => e_off a < e_off b) es)
      by (rewrite Hes; exact Hsorted).
    destruct (split_before Entry e_off es b1 a1 (b ++ [p]) after er e
                Hsorted' Hes1 Hes ltac:(lia)) as [m Hm].
    destruct (snoc_suffix _ _ _ _ _ _ Hm) as [s Hs].
    assert (Ha1 : er :: a1 = s ++ p :: e :: after).
    { rewrite Hes1 in Hes. rewrite Hm in Hes. rewrite <- app_assoc in Hes.
      apply app_inv_head in Hes. rewrite Hes, Hs.
      rewrite <- app_assoc. reflexivity. }
    rewrite Ha1 in Hfrom.
    (* the cursor after SeekToRestartPoint *)
    set (c0 := set_value (set_restart_index
                 (set_key (set_restart_index c ri') []) ri') (SliceAt r 0)).
    assert (Hc0 : cursor_over d rs c0) by exact Hc.
    assert (Hr0 : 0 <= r).
    { rewrite Forall_forall in Hspan. rewrite <- Hes in Hspan.
      pose proof (Hspan er ltac:(rewrite Hes1; apply in_elt)). lia. }
    destruct (Prev_walk_spec d es rs WF e after p s
                (Z.to_nat (restarts_ c0) + 2) c0 r)
      as (c1 & Hwalk & Hat1 & Hfr1 & Hst1 & Hri1); auto.
    { simpl. lia. }
    { split; [|reflexivity]. exists r, 0. split; [reflexivity|lia]. }
    { change (restarts_ c0) with (restarts_ c). rewrite Hr. lia. }
    assert (Hc1 : cursor_over d rs c1) by (eapply cursor_over_frame; eauto).
    (* the entry after [p] is [e] *)
    destruct (entries_from_app d (restarts_of d rs) (s ++ [p]) (e :: after) r [])
      as (off' & prev' & Hfrom_e & _ & Hsnoc).
    { rewrite <- app_assoc. exact Hfrom. }
    destruct (Hsnoc s p eq_refl) as [-> ->].
    destruct Hfrom_e as (_ & He_at & _).
    pose proof Hat1 as (Hcur1 & Hkey1 & Hval1).
    rewrite <- Hkey1 in He_at.
    pose proof (at_entry_poised c1 p Hat1) as [Hp1 _].
    assert (Hpspan : e_off p + 3 <= e_voff p + e_vlen p).
    { rewrite Forall_forall in Hspan.
      pose proof (Hspan p ltac:(apply in_or_app; left; apply in_or_app;
                                right; left; reflexivity)). lia. }
    assert (Heoff : e_off e = e_voff p + e_vlen p).
    { apply entry_at_Some in He_at.
      destruct He_at as (h & dl & _ & _ & _ & ->). reflexivity. }
    destruct (ParseNextKey_entry d es rs WF c1 (e_voff p + e_vlen p) e Hc1 Hri1)
      as (c2 & Hparse & Hat2 & Hfr2 & Hst2 & Hri2).
    { split; [exact Hp1|reflexivity]. }
    { lia. }
    { exact He_at. }
    assert (Hc2 : cursor_over d rs c2) by (eapply cursor_over_frame; eauto).
    exists c1, c2.
    split.
    { unfold Prev. rewrite Hcur, Hrew.
      change (restart_index_ (set_restart_index c ri')) with ri'.
      rewrite (SeekToRestartPoint_wf d es rs WF (set_restart_index c ri') ri' r
                 Hc (proj1 Hri') Hnth).
      exact Hwalk. }
    split.
    { unfold Valid. destruct Hc1 as (_ & -> & _). rewrite Hcur1.
      apply Z.ltb_lt. lia. }
    split; [exact Hat1|].
    split; [rewrite Hst1; exact Hst|].
    split; [unfold Next; rewrite Hparse; reflexivity|].
    destruct Hat2 as (Hcur2 & Hkey2 & Hval2).
    split.
    { unfold Valid. destruct Hc2 as (_ & -> & _). rewrite Hcur2.
      apply Z.ltb_lt. lia. }
    split; [repeat split; assumption|].
    split; [congruence|]. split; [congruence|].
    rewrite Hst2, Hst1. exact Hst.
Qed.

Ltac prove_restart_array :=
  let i := fresh "i" in
  let r := fresh "r" in
  let H := fresh "H" in
  intros i r H;
  repeat (destruct i as [|i]; [injection H as <-; crunch|]);
  destruct i; discriminate H.

(** The restart offset is that of the entry of index [n]. *)
Ltac restart_entry n :=
  right; eexists;
  split; [eapply (nth_error_In _ n); reflexivity|split; reflexivity].

Lemma well_formed_abc_def :
  well_formed block_abc_def entries_abc_def [0; 7].
Proof.
  constructor.
  - crunch.
  - crunch.
  - crunch.
  - prove_restart_array.
  - reflexivity.
  - repeat constructor.
  - simpl. repeat split; crunch.
  - intros r [<-|[<-|[]]]; [restart_entry 0%nat|restart_entry 1%nat].
Qed.

Lemma prev_next_symmetry_witness :
  exists c1 c2,
    Prev cursor_abc_def_at_def = Some c1 /\ Valid c1 = true /\
    at_entry c1 (mkEntry 0 0 (bytes_of [97; 98; 99]%N) 6 1) /\
    status_ c1 = OK /\
    Next c1 = Some c2 /\ Valid c2 = true /\
    at_entry c2 (mkEntry 7 0 (bytes_of [100; 101; 102]%N) 13 1) /\
    key_ c2 = key_ cursor_abc_def_at_def /\
    value_ c2 = value_ cursor_abc_def_at_def /\ status_ c2 = OK.
Proof.
  refine (proj2 (prev_next_symmetry block_abc_def entries_abc_def [0; 7]
            [mkEntry 0 0 (bytes_of [97; 98; 99]%N) 6 1] []
            (mkEntry 7 0 (bytes_of [100; 101; 102]%N) 13 1)
            cursor_abc_def_at_def well_formed_abc_def eq_refl _ eq_refl)
          [] _ eq_refl).
  split; [repeat split|]. split; [repeat split|]. crunch.
Defined.

(** ** Seeking *)

Lemma sorted_offsets_unique : forall (l : list Entry) a b,
  StronglySorted (fun x y => e_off x < e_off y) l ->
  In a l -> In b l -> e_off a = e_off b -> a = b.
Proof.
  intros l a b Hs. induction Hs as [|x l Hs IH Hall]; intros Ha Hb Heq.
  - contradiction.
  - rewrite Forall_forall in Hall.
    destruct Ha as [->|Ha]; destruct Hb as [->|Hb]; auto.
    + specialize (Hall b Hb). lia.
    + specialize (Hall a Ha). lia.
Qed.

Lemma cmp_lt_le_trans : forall cmp, total_order cmp ->
  forall a b c, cmp a b < 0 -> cmp b c <= 0 -> cmp a c < 0.
Proof.
  intros cmp [Hswap Htrans] a b c Hab Hbc.
  destruct (Z_lt_le_dec (cmp a c) 0) as [H|H]; [exact H|].
  assert (Hca : cmp c a <= 0).
  { destruct (Z_lt_le_dec 0 (cmp c a)) as [H1|H1]; [|exact H1].
    apply Hswap in H1. lia. }
  pose proof (Htrans b c a Hbc Hca) as Hba.
  apply Hswap in Hab. lia.
Qed.

Section Seeking.

Variables (cmp : Comparator) (d : Bytes) (es : list Entry) (rs : list Z).
Hypothesis ORD : total_order cmp.
Hypothesis WF : well_formed d es rs.

Let R := restarts_of d rs.
Let nr := num_restarts_of rs.

Lemma wf_offsets_sorted :
  StronglySorted (fun a b => e_off a < e_off b) es /\
  Forall (fun e => 0 <= e_off e /\ e_off e + 3 <= e_voff e + e_vlen e
                   /\ e_voff e + e_vlen e <= R) es.
Proof.
  destruct (wf_bounds d es rs WF) as [HR _].
  destruct (entries_from_offsets d R es 0 [] ltac:(lia) ltac:(fold R in HR; lia)
              (wf_entries _ _ _ WF)) as [H1 H2].
  split; assumption.
Qed.

Lemma wf_num_restarts_small : nr < 2 ^ 30.
Proof.
  pose proof (wf_size _ _ _ WF). pose proof (wf_limit _ _ _ WF).
  subst nr. unfold restarts_of, num_restarts_of in *.
  change (2 ^ 32) with 4294967296 in *. change (2 ^ 30) with 1073741824. lia.
Qed.

(** The entry at a restart point that is not at offset 0. *)
Lemma wf_restart_entry : forall i r,
  nth_error rs (Z.to_nat i) = Some r -> 0 < i ->
  exists before er after,
    es = before ++ er :: after /\ e_off er = r /\ e_shared er = 0 /\
    entries_from d R r [] (er :: after).
Proof.
  intros i r Hnth Hi.
  apply (wf_restart_entries_from d es rs WF r (nth_error_In _ _ Hnth)).
  intros ->.
  destruct (wf_restart_entries _ _ _ WF r (nth_error_In _ _ Hnth))
    as [[-> _]|(e & [] & _)].
  assert (0 < 0); [|lia].
  eapply StronglySorted_nth_lt;
    [exact (wf_restarts_ascending _ _ _ WF)| |
     exact (wf_first_restart _ _ _ WF)|exact Hnth].
  lia.
Qed.

(** The probe of [BinarySeek] compares the key at the restart point. *)
Lemma BinarySeek_probe_wf : forall c target l r,
  cursor_over d rs c -> comparator_ c = Some cmp ->
  0 < BinarySeek_mid l r < nr ->
  exists er r0,
    nth_error rs (Z.to_nat (BinarySeek_mid l r)) = Some r0 /\
    In er es /\ e_off er = r0 /\
    BinarySeek_probe c target l r
    = Some (probe_of (cmp (e_key er) target) (BinarySeek_mid l r)).
Proof.
  intros c target l r Hc Hcmp Hmid.
  pose proof Hc as (Hd & Hr & Hn).
  destruct (restart_nth rs (BinarySeek_mid l r)) as [r0 Hnth];
    [fold nr; lia|].
  destruct (wf_restart_entry _ r0 Hnth ltac:(lia))
    as (before & er & after & Hes & Hoff & Hsh & Hfrom).
  exists er, r0. split; [exact Hnth|].
  split; [rewrite Hes; apply in_elt|]. split; [exact Hoff|].
  destruct Hfrom as (_ & Hat & _). apply entry_at_Some in Hat.
  destruct Hat as (h & delta & Hh & _ & Hdelta & Her).
  unfold BinarySeek_probe.
  rewrite (wf_GetRestartPoint d es rs WF c (BinarySeek_mid l r) r0 Hc
             ltac:(lia) Hnth).
  rewrite Hd, Hr. fold R. rewrite Hh.
  rewrite Her in Hsh. simpl in Hsh. rewrite Hsh. simpl.
  rewrite Hdelta. unfold Compare. rewrite Hcmp.
  rewrite Her. simpl. rewrite Hsh. simpl. reflexivity.
Qed.

(** The restart point the binary search settles on is the first one, or
    its key is not beyond the target. *)
Lemma BinarySeek_loop_wf : forall target c fuel l r,
  cursor_over d rs c -> comparator_ c = Some cmp ->
  0 <= l <= r -> r < nr ->
  r - l < Z.of_nat fuel ->
  not_beyond cmp es rs target l ->
  exists index,
    BinarySeek_loop fuel c target l r = Some (c, Some index) /\
    l <= index <= r /\ not_beyond cmp es rs target index.
Proof.
  intros target c fuel. pose proof wf_num_restarts_small as Hsmall.
  induction fuel as [|fuel IH]; intros l r Hc Hcmp Hlr Hr Hfuel Hl;
    [simpl in Hfuel; lia|].
  simpl. destruct (l <? r) eqn:Hlt.
  - apply Z.ltb_lt in Hlt.
    assert (Hr31 : r < 2 ^ 31)
      by (change (2 ^ 30) with 1073741824 in Hsmall;
          change (2 ^ 31) with 2147483648; lia).
    destruct (BinarySeek_mid_bounds l r ltac:(lia) Hlt Hr31) as [_ Hm].
    destruct (BinarySeek_probe_wf c target l r Hc Hcmp ltac:(lia))
      as (er & r0 & Hnth & Hin & Hoff & ->).
    set (mid := BinarySeek_mid l r) in *.
    unfold probe_of.
    destruct (cmp (e_key er) target <? 0) eqn:E1; simpl.
    + apply Z.ltb_lt in E1.
      destruct (IH mid r) as (index & Hloop & Hrange & Hnb); auto; try lia.
      { right. exists er, r0. repeat split; auto. lia. }
      exists index. split; [exact Hloop|]. split; [lia|exact Hnb].
    + apply Z.ltb_ge in E1.
      destruct (0 <? cmp (e_key er) target) eqn:E2; simpl.
      * rewrite u32_small
          by (change (2 ^ 31) with 2147483648 in Hr31;
              change (2 ^ 32) with 4294967296; lia).
        destruct (IH l (mid - 1)) as (index & Hloop & Hrange & Hnb);
          auto; try lia.
        exists index. split; [exact Hloop|]. split; [lia|exact Hnb].
      * apply Z.ltb_ge in E2.
        destruct (IH mid mid) as (index & Hloop & Hrange & Hnb);
          auto; try lia.
        { right. exists er, r0. repeat split; auto. }
        exists index. split; [exact Hloop|]. split; [lia|exact Hnb].
  - apply Z.ltb_ge in Hlt. exists l. split; [reflexivity|]. split; [lia|exact Hl].
Qed.


(** The linear search lands on the first entry from its start on whose key
    is not below the target, or runs off the end. *)
Lemma Seek_scan_spec : forall target l fuel c off,
  entries_from d R off (key_ c) l ->
  cursor_over d rs c -> comparator_ c = Some cmp ->
  0 <= restart_index_ c < num_restarts_ c ->
  poised c off (key_ c) ->
  0 <= off ->
  R - off < Z.of_nat fuel ->
  exists c',
    Seek_scan fuel c target = Some c' /\
    same_frame c c' /\ status_ c' = status_ c /\
    ((exists l1 e l2,
        l = l1 ++ e :: l2 /\
        Forall (fun x => cmp (e_key x) target < 0) l1 /\
        0 <= cmp (e_key e) target /\ at_entry c' e) \/
     (Forall (fun x => cmp (e_key x) target < 0) l /\
      current_ c' = R /\ restart_index_ c' = nr)).
Proof.
  intros target.
  destruct (wf_bounds d es rs WF) as [HR Hnr]. fold R in HR.
  induction l as [|e l IH]; intros fuel c off Hl Hc Hcmp Hri Hp Hoff Hfuel;
    simpl in Hl;
    (destruct fuel as [|fuel];
     [simpl in Hfuel; try destruct Hl as (Hlt & _); lia|]); simpl.
  - subst off.
    rewrite (ParseNextKey_end d es rs WF c (key_ c) Hc Hp). simpl.
    fold R. eexists. split; [reflexivity|].
    split; [repeat split|]. split; [reflexivity|].
    right. split; [constructor|]. simpl. destruct Hc as (_ & Hr & Hn).
    split; [exact Hr|exact Hn].
  - destruct Hl as (Hlt & He & Hrest).
    destruct (ParseNextKey_entry d es rs WF c off e Hc Hri Hp
                ltac:(fold R; lia) He)
      as (c1 & -> & Hat & Hfr & Hst & Hri1).
    simpl. unfold Compare.
    pose proof Hfr as (Hcmp1 & _). rewrite Hcmp1, Hcmp.
    pose proof Hat as (Hcur & Hkey & Hval). rewrite Hkey.
    destruct (0 <=? cmp (e_key e) target) eqn:E.
    + apply Z.leb_le in E. exists c1. split; [reflexivity|].
      split; [exact Hfr|]. split; [exact Hst|].
      left. exists [], e, l. split; [reflexivity|].
      split; [constructor|]. split; [exact E|exact Hat].
    + apply Z.leb_gt in E.
      assert (Hc1 : cursor_over d rs c1) by (eapply cursor_over_frame; eauto).
      destruct (entry_at_span d R off (key_ c) e Hoff ltac:(lia) He)
        as (Heo & Hev & Hen & _).
      pose proof (at_entry_poised c1 e Hat) as [Hp1 _].
      rewrite <- Hkey in Hrest.
      assert (Hcmp' : comparator_ c1 = Some cmp) by congruence.
      assert (Hri' : 0 <= restart_index_ c1 < num_restarts_ c1) by lia.
      assert (Hp' : poised c1 (e_voff e + e_vlen e) (key_ c1))
        by (split; [exact Hp1|reflexivity]).
      assert (Hoff' : 0 <= e_voff e + e_vlen e) by lia.
      assert (Hfuel' : R - (e_voff e + e_vlen e) < Z.of_nat fuel) by lia.
      destruct (IH fuel c1 (e_voff e + e_vlen e) Hrest Hc1 Hcmp' Hri' Hp'
                  Hoff' Hfuel')
        as (c' & Hscan & Hfr' & Hst' & Hres).
      exists c'. split; [exact Hscan|].
      split; [eapply same_frame_trans; eauto|]. split; [congruence|].
      destruct Hres as [(l1 & e' & l2 & -> & Hall & Hge & Hat')|(Hall & Hend)].
      * left. exists (e :: l1), e', l2. split; [reflexivity|].
        split; [constructor; [exact E|exact Hall]|]. auto.
      * right. split; [constructor; [exact E|exact Hall]|exact Hend].
Qed.

End Seeking.

Lemma bytewise_total_order : total_order bytewise.
Proof.
  split.
  - induction a as [|x a IH]; destruct b as [|y b]; simpl; try lia.
    destruct (u8 x <? u8 y) eqn:E1; destruct (u8 y <? u8 x) eqn:E2;
      try apply Z.ltb_lt in E1; try apply Z.ltb_lt in E2;
      try apply Z.ltb_ge in E1; try apply Z.ltb_ge in E2; try lia.
    apply IH.
  - induction a as [|x a IH]; destruct b as [|y b]; destruct c as [|z c];
      simpl; try lia.
    destruct (u8 x <? u8 y) eqn:E1; destruct (u8 y <? u8 x) eqn:E2;
      destruct (u8 y <? u8 z) eqn:E3; destruct (u8 z <? u8 y) eqn:E4;
      destruct (u8 x <? u8 z) eqn:E5; destruct (u8 z <? u8 x) eqn:E6;
      try apply Z.ltb_lt in E1; try apply Z.ltb_lt in E2;
      try apply Z.ltb_lt in E3; try apply Z.ltb_lt in E4;
      try apply Z.ltb_lt in E5; try apply Z.ltb_lt in E6;
      try apply Z.ltb_ge in E1; try apply Z.ltb_ge in E2;
      try apply Z.ltb_ge in E3; try apply Z.ltb_ge in E4;
      try apply Z.ltb_ge in E5; try apply Z.ltb_ge in E6; try lia.
    apply IH.
Qed.

Lemma keys_increasing_restart_keys_strict : forall cmp es rs,
  keys_increasing cmp es -> restart_keys_strict cmp es rs.
Proof.
  intros cmp es rs Hs b p e after Hes _. unfold keys_increasing in Hs.
  rewrite Hes in Hs. clear Hes.
  induction b as [|x b IH]; simpl in Hs; inversion Hs as [|? ? Hs' Hall]; subst.
  - rewrite Forall_forall in Hall. apply Hall. left. reflexivity.
  - apply IH. exact Hs'.
Qed.

(** ** Seek monotonicity *)

Lemma well_formed_b_b : well_formed block_b_b entries_b_b [0; 5].
Proof.
  constructor.
  - crunch.
  - crunch.
  - crunch.
  - prove_restart_array.
  - reflexivity.
  - repeat constructor.
  - simpl. repeat split; crunch.
  - intros r [<-|[<-|[]]]; [restart_entry 0%nat|restart_entry 1%nat].
Qed.

(** C1 as stated fails on a block whose keys ascend without being
    distinct.  [block_b_b] holds the key "b" twice, each time at a restart
    point; it is well formed and its keys are in (non-strict) order.
    [Seek("b")] probes restart point 1, finds an equal key and lands there:
    the cursor is valid at the second entry although the key of the entry
    just before it is not below the target. *)
Lemma Seek_lands_behind_an_equal_key :
  well_formed block_b_b entries_b_b [0; 5] /\
  keys_ascending bytewise entries_b_b /\
  new_cursor block_b_b bytewise = Some cursor_b_b /\
  Seek cursor_b_b (bytes_of [98]%N) = Some cursor_b_b_at_second /\
  Valid cursor_b_b_at_second = true /\
  entries_b_b = [mkEntry 0 0 (bytes_of [98]%N) 4 1]
                ++ mkEntry 5 0 (bytes_of [98]%N) 9 1 :: [] /\
  at_entry cursor_b_b_at_second (mkEntry 5 0 (bytes_of [98]%N) 9 1) /\
  ~ (bytewise (e_key (mkEntry 0 0 (bytes_of [98]%N) 4 1)) (bytes_of [98]%N) < 0).
Proof.
  split; [exact well_formed_b_b|].
  split; [repeat constructor; crunch|].
  split; [crunch|]. split; [crunch|]. split; [crunch|].
  split; [reflexivity|]. split; [repeat split|]. crunch.
Qed.

(** C1, amended.  Take a well-formed block in which the key at every
    restart point is strictly above the key of the entry before it (as it
    is when the keys increase strictly), an order-respecting comparator and
    a cursor over the block without hash or prefix index.  [Seek(target)]
    returns and leaves the status as it was.  If the cursor is valid
    afterwards, it is at an entry whose key is >= target, and that entry is
    the first of the block or the key of the entry just before it is
    < target.  If every key of the block is < target, the cursor is
    invalid. *)
Theorem Seek_monotone :
  forall (cmp : Comparator) (d : Bytes) (es : list Entry) (rs : list Z)
         (c : BlockIter) (target : Bytes),
    total_order cmp ->
    well_formed d es rs ->
    restart_keys_strict cmp es rs ->
    cursor_over d rs c ->
    comparator_ c = Some cmp ->
    hash_index_ c = None -> prefix_index_ c = None ->
    exists c',
      Seek c target = Some c' /\ status_ c' = status_ c /\
      (Valid c' = true ->
         exists before e after,
           es = before ++ e :: after /\ at_entry c' e /\
           0 <= cmp (e_key e) target /\
           (before = [] \/
            exists b p, before = b ++ [p] /\ cmp (e_key p) target < 0)) /\
      ((forall e, In e es -> cmp (e_key e) target < 0) -> Valid c' = false).
Proof.
  intros cmp d es rs c target ORD WF Hstrict Hc Hcmp Hhash Hprefix.
  destruct (wf_bounds d es rs WF) as [HR Hnr].
  pose proof Hc as (Hd & Hr & Hn).
  destruct (wf_offsets_sorted d es rs WF) as [Hsorted Hspan].
  (* the binary search *)
  destruct (BinarySeek_loop_wf cmp d es rs WF target c
              (Z.to_nat (num_restarts_of rs - 1 - 0) + 1) 0
              (num_restarts_of rs - 1) Hc Hcmp)
    as (index & Hbin & Hrange & Hnb); try lia.
  { left. reflexivity. }
  destruct (restart_nth rs index ltac:(lia)) as [r Hnth].
  pose proof (nth_error_In _ _ Hnth) as Hin.
  (* the cursor at the restart point *)
  set (c0 := set_value (set_restart_index (set_key c []) index) (SliceAt r 0)).
  assert (Hc0 : cursor_over d rs c0) by exact Hc.
  (* the entries from the restart point on *)
  assert (Hl : exists b1 l,
             es = b1 ++ l /\ entries_from d (restarts_of d rs) r [] l /\
             0 <= r /\
             forall er l', l = er :: l' -> e_off er = r).
  { destruct es as [|e0 es0] eqn:Ees.
    - exists [], []. split; [reflexivity|].
      destruct (wf_restart_entries _ _ _ WF r Hin) as [[-> _]|(e & [] & _)].
      split; [exact (wf_entries _ _ _ WF)|]. split; [lia|]. discriminate.
    - destruct (wf_restart_entries_from d _ rs WF r Hin ltac:(discriminate))
        as (b1 & er & a1 & Hes & Her & _ & Hfrom).
      exists b1, (er :: a1). split; [exact Hes|]. split; [exact Hfrom|].
      split.
      + rewrite Forall_forall in Hspan.
        pose proof (Hspan er ltac:(rewrite Hes; apply in_elt)). lia.
      + intros ? ? [= <- <-]. exact Her. }
  destruct Hl as (b1 & l & Hes & Hfrom & Hr0 & Hhead).
  destruct (Seek_scan_spec cmp d es rs WF target l
              (Z.to_nat (restarts_ c0) + 2) c0 r Hfrom Hc0 Hcmp)
    as (c' & Hscan & Hfr & Hst & Hres).
  { simpl. lia. }
  { split; [|reflexivity]. exists r, 0. split; [reflexivity|lia]. }
  { exact Hr0. }
  { change (restarts_ c0) with (restarts_ c). rewrite Hr. lia. }
  assert (Hc' : cursor_over d rs c') by (eapply cursor_over_frame; eauto).
  exists c'. split.
  { unfold Seek. rewrite Hd, Hprefix, Hhash. unfold BinarySeek.
    rewrite Hn. rewrite (u32_small (num_restarts_of rs - 1)) by lia.
    rewrite Hbin.
    rewrite (SeekToRestartPoint_wf d es rs WF c index r Hc (proj1 Hrange) Hnth).
    exact Hscan. }
  split; [exact Hst|].
  destruct Hres as [(l1 & e & l2 & -> & Hall & Hge & Hat)|(Hall & Hcur & _)].
  - split.
    + intros _. exists (b1 ++ l1), e, l2.
      split; [rewrite Hes, app_assoc; reflexivity|].
      split; [exact Hat|]. split; [exact Hge|].
      destruct l1 as [|x l1].
      * (* the cursor is at the restart point itself *)
        rewrite app_nil_r. simpl in Hhead.
        destruct b1 as [|y b1]; [left; reflexivity|right].
        destruct (exists_last (l := y :: b1)) as (b & p & Hb); [discriminate|].
        exists b, p. split; [exact Hb|].
        rewrite Hb in Hes. simpl in Hes. rewrite <- app_assoc in Hes.
        simpl in Hes.
        assert (Heoff : e_off e = r) by (apply (Hhead e l2); reflexivity).
        assert (Hpe : cmp (e_key p) (e_key e) < 0).
        { apply (Hstrict b p e l2 Hes). rewrite Heoff. exact Hin. }
        assert (Hin_e : In e es)
          by (rewrite Hes; apply in_or_app; right; right; left; reflexivity).
        destruct Hnb as [->|(er & r0 & Hnth0 & Hin0 & Hoff0 & Hle)].
        -- exfalso. change (Z.to_nat 0) with 0%nat in Hnth.
           rewrite (wf_first_restart _ _ _ WF) in Hnth. injection Hnth as <-.
           rewrite Forall_forall in Hspan.
           assert (Hin_p : In p es)
             by (rewrite Hes; apply in_or_app; right; left; reflexivity).
           pose proof (Hspan p Hin_p).
           assert (e_off p < e_off e).
           { clear - Hsorted Hes. rewrite Hes in Hsorted. clear Hes.
             induction b as [|x b IHb]; simpl in Hsorted.
             - inversion Hsorted as [|? ? _ Hf]; subst.
               rewrite Forall_forall in Hf. apply Hf. left. reflexivity.
             - inversion Hsorted; subst. auto. }
           lia.
        -- rewrite Hnth in Hnth0. injection Hnth0 as <-.
           assert (er = e)
             by (apply (sorted_offsets_unique es); auto; congruence).
           subst er. eapply cmp_lt_le_trans; eauto.
      * right.
        destruct (exists_last (l := x :: l1)) as (l1' & p & Hl1); [discriminate|].
        exists (b1 ++ l1'), p. rewrite Hl1. split; [apply app_assoc|].
        rewrite Hl1 in Hall. rewrite Forall_forall in Hall.
        apply Hall. apply in_or_app. right. left. reflexivity.
    + intros Hlow. exfalso.
      assert (Hin_e : In e es)
        by (rewrite Hes; apply in_or_app; right; apply in_elt).
      specialize (Hlow e Hin_e). lia.
  - assert (Hinv : Valid c' = false).
    { unfold Valid. destruct Hc' as (_ & -> & _). rewrite Hcur.
      apply Z.ltb_irrefl. }
    split; [rewrite Hinv; discriminate|]. intros _. exact Hinv.
Qed.

Lemma well_formed_foo_for : well_formed block_foo_for entries_foo_for [0].
Proof.
  constructor.
  - crunch.
  - crunch.
  - crunch.
  - prove_restart_array.
  - reflexivity.
  - repeat constructor.
  - simpl. repeat split; crunch.
  - intros r [<-|[]]; restart_entry 0%nat.
Qed.

Lemma Seek_monotone_witness :
  exists c',
    Seek cursor_foo_for (bytes_of [102; 111; 112]%N) = Some c' /\
    status_ c' = status_ cursor_foo_for /\
    (Valid c' = true ->
       exists before e after,
         entries_foo_for = before ++ e :: after /\ at_entry c' e /\
         0 <= bytewise (e_key e) (bytes_of [102; 111; 112]%N) /\
         (before = [] \/
          exists b p, before = b ++ [p] /\
                      bytewise (e_key p) (bytes_of [102; 111; 112]%N) < 0)) /\
    ((forall e, In e entries_foo_for ->
        bytewise (e_key e) (bytes_of [102; 111; 112]%N) < 0) ->
     Valid c' = false).
Proof.
  apply (Seek_monotone bytewise block_foo_for entries_foo_for [0]
           cursor_foo_for (bytes_of [102; 111; 112]%N)
           bytewise_total_order well_formed_foo_for).
  - apply keys_increasing_restart_keys_strict. repeat constructor.
  - repeat split.
  - reflexivity.
  - reflexivity.
  - reflexivity.
Defined.

(** ** Corruption *)

Ltac break_match H :=
  match type of H with
  | context [match ?x with _ => _ end] => destruct x eqn:?
  end.

Lemma corrupt_CorruptionError : forall c, corrupt (CorruptionError c).
Proof. intros c. repeat split. Qed.

Lemma corrupt_not_ok : forall c, corrupt c -> status_ c <> OK.
Proof. intros c (_ & _ & _ & _ & H). rewrite H. discriminate. Qed.

Lemma carried_refl : forall c, carried c c.
Proof. intros c. left. reflexivity. Qed.

Lemma carried_trans : forall a b c,
  status_ b = status_ a -> carried b c -> carried a c.
Proof. intros a b c H [H1|H1]; [left; congruence|right; exact H1]. Qed.

Lemma advance_restart_index_frame : forall fuel c c',
  advance_restart_index fuel c = Some c' ->
  exists ri, c' = set_restart_index c ri.
Proof.
  induction fuel as [|fuel IH]; intros c c' H; simpl in H; [discriminate|].
  repeat break_match H; try discriminate.
  - apply IH in H. destruct H as [ri ->]. exists ri. destruct c; reflexivity.
  - injection H as <-. exists (restart_index_ c). destruct c; reflexivity.
  - injection H as <-. exists (restart_index_ c). destruct c; reflexivity.
Qed.

Lemma ParseNextKey_status : forall c c' b,
  ParseNextKey c = Some (c', b) ->
  (b = true -> status_ c' = status_ c) /\ carried c c'.
Proof.
  intros c c' [|] H.
  - apply ParseNextKey_true in H.
    destruct H as (d & off & h & delta & _ & _ & _ & _ & _ & _ & Hadv).
    apply advance_restart_index_frame in Hadv. destruct Hadv as [ri ->].
    split; [reflexivity|left; reflexivity].
  - split; [discriminate|]. apply ParseNextKey_false in H.
    destruct H as (off & _ & [->| ->]).
    + left. reflexivity.
    + right. apply corrupt_CorruptionError.
Qed.

Lemma Prev_rewind_status : forall fuel original c c' b,
  Prev_rewind fuel original c = Some (c', b) -> status_ c' = status_ c.
Proof.
  induction fuel as [|fuel IH]; intros original c c' b H; simpl in H;
    [discriminate|].
  repeat break_match H; try discriminate.
  - injection H as <- _. reflexivity.
  - apply IH in H. exact H.
  - injection H as <- _. reflexivity.
Qed.

Lemma SeekToRestartPoint_status : forall c i c',
  SeekToRestartPoint c i = Some c' -> status_ c' = status_ c.
Proof.
  intros c i c' H. unfold SeekToRestartPoint in H.
  break_match H; [|discriminate]. injection H as <-. reflexivity.
Qed.

Lemma Prev_walk_carried : forall fuel original c c',
  Prev_walk fuel original c = Some c' -> carried c c'.
Proof.
  induction fuel as [|fuel IH]; intros original c c' H; simpl in H;
    [discriminate|].
  destruct (ParseNextKey c) as [[c1 ok]|] eqn:Hp; [|discriminate].
  apply ParseNextKey_status in Hp. destruct Hp as [Hs Hc].
  destruct ok.
  - repeat break_match H; try discriminate.
    + apply IH in H. eapply carried_trans; [apply Hs; reflexivity|exact H].
    + injection H as <-. exact Hc.
  - injection H as <-. exact Hc.
Qed.

Lemma Seek_scan_carried : forall fuel c target c',
  Seek_scan fuel c target = Some c' -> carried c c'.
Proof.
  induction fuel as [|fuel IH]; intros c target c' H; simpl in H;
    [discriminate|].
  destruct (ParseNextKey c) as [[c1 ok]|] eqn:Hp; [|discriminate].
  apply ParseNextKey_status in Hp. destruct Hp as [Hs Hc].
  destruct ok; simpl in H.
  - repeat break_match H; try discriminate.
    + injection H as <-. exact Hc.
    + apply IH in H. eapply carried_trans; [apply Hs; reflexivity|exact H].
  - injection H as <-. exact Hc.
Qed.

Lemma SeekToLast_walk_carried : forall fuel c c',
  SeekToLast_walk fuel c = Some c' -> carried c c'.
Proof.
  induction fuel as [|fuel IH]; intros c c' H; simpl in H; [discriminate|].
  destruct (ParseNextKey c) as [[c1 ok]|] eqn:Hp; [|discriminate].
  apply ParseNextKey_status in Hp. destruct Hp as [Hs Hc].
  destruct ok.
  - repeat break_match H; try discriminate.
    + apply IH in H. eapply carried_trans; [apply Hs; reflexivity|exact H].
    + injection H as <-. exact Hc.
  - injection H as <-. exact Hc.
Qed.

(** The index searches return the cursor untouched with an index, or stop
    on a cursor that [carried] allows. *)
Lemma BinarySeek_loop_result : forall fuel c target l r c' res,
  BinarySeek_loop fuel c target l r = Some (c', res) ->
  match res with
  | Some _ => c' = c
  | None => c' = CorruptionError c
  end.
Proof.
  induction fuel as [|fuel IH]; intros c target l r c' res H; simpl in H;
    [discriminate|].
  destruct (l <? r).
  - destruct (BinarySeek_probe c target l r) as [p|]; [|discriminate].
    destruct (BinarySeek_branch p l r) as [[l' r']|].
    + apply IH in H. exact H.
    + injection H as <- <-. reflexivity.
  - injection H as <- <-. reflexivity.
Qed.

Lemma CompareBlockKey_result : forall c i target c' v,
  CompareBlockKey c i target = Some (c', v) ->
  c' = c \/ (c' = CorruptionError c /\ v = 1).
Proof.
  intros c i target c' v H. unfold CompareBlockKey in H.
  repeat break_match H; try discriminate; injection H as <- <-; auto.
Qed.

Lemma BinaryBlockIndexSeek_loop_result : forall fuel c target ids l r c' res,
  BinaryBlockIndexSeek_loop fuel c target ids l r = Some (c', res) ->
  match res with
  | Some _ => c' = c
  | None => c' = c \/ c' = CorruptionError c
  end.
Proof.
  induction fuel as [|fuel IH]; intros c target ids l r c' res H; simpl in H;
    [discriminate|].
  destruct (l <=? r); [|injection H as <- <-; reflexivity].
  destruct (block_id ids (u32 (l + r) / 2)) as [id|]; [|discriminate].
  destruct (CompareBlockKey c id target) as [[c1 v]|] eqn:Hc; [|discriminate].
  apply CompareBlockKey_result in Hc.
  destruct (negb (status_ok (status_ c1))) eqn:Hst.
  - injection H as <- <-. destruct Hc as [->|[-> _]]; auto.
  - destruct Hc as [->|[-> _]]; [|discriminate].
    destruct (v <? 0); [apply IH in H; exact H|].
    destruct (l =? r); [injection H as <- <-; reflexivity|].
    apply IH in H. exact H.
Qed.

Lemma BinaryBlockIndexSeek_settle_result : forall c target ids lb l r c' res,
  BinaryBlockIndexSeek_settle c target ids lb l r = Some (c', res) ->
  match res with
  | Some _ => c' = c
  | None => status_ c' = status_ c \/ corrupt c'
  end.
Proof.
  intros c target ids lb l r c' res H. unfold BinaryBlockIndexSeek_settle in H.
  destruct (l =? r); [|injection H as <- <-; left; reflexivity].
  destruct (block_id ids l) as [id|]; [|discriminate].
  destruct (0 <? id); [|injection H as <- <-; reflexivity].
  match type of H with
  | context [match ?x with _ => _ end] => destruct x as [[|]|]
  end; try discriminate; [|injection H as <- <-; reflexivity].
  destruct (CompareBlockKey c (u32 (id - 1)) target) as [[c1 v]|] eqn:Hc;
    [|discriminate].
  apply CompareBlockKey_result in Hc.
  destruct (0 <? v) eqn:Hv.
  - injection H as <- <-. destruct Hc as [->|[-> _]].
    + left. reflexivity.
    + right. repeat split.
  - injection H as <- <-. destruct Hc as [->|[-> ->]];
      [reflexivity|discriminate].
Qed.

Lemma index_seek_result : forall c target c' res,
  (match prefix_index_ c with
   | Some _ => PrefixSeek c target
   | None =>
       match hash_index_ c with
       | Some _ => HashSeek c target
       | None => BinarySeek c target 0 (u32 (num_restarts_ c - 1))
       end
   end) = Some (c', res) ->
  match res with
  | Some _ => c' = c
  | None => carried c c'
  end.
Proof.
  intros c target c' res H.
  assert (HB : forall l r, BinarySeek c target l r = Some (c', res) ->
               match res with Some _ => c' = c | None => carried c c' end).
  { intros l r HBS. unfold BinarySeek in HBS.
    apply BinarySeek_loop_result in HBS. destruct res; [exact HBS|].
    subst c'. right. apply corrupt_CorruptionError. }
  destruct (prefix_index_ c) as [pi|] eqn:Hpi.
  - unfold PrefixSeek in H. rewrite Hpi in H.
    destruct (Z.of_nat (List.length (pi target)) =? 0).
    { injection H as <- <-. left. reflexivity. }
    unfold BinaryBlockIndexSeek in H.
    match type of H with
    | context [BinaryBlockIndexSeek_loop ?f ?c ?t ?ids ?l ?r] =>
        destruct (BinaryBlockIndexSeek_loop f c t ids l r)
          as [[c1 [[l1 r1]|]]|] eqn:Hloop; [| |discriminate]
    end.
    + apply BinaryBlockIndexSeek_loop_result in Hloop. subst c1.
      apply BinaryBlockIndexSeek_settle_result in H.
      destruct res; [exact H|exact H].
    + apply BinaryBlockIndexSeek_loop_result in Hloop.
      injection H as <- <-. destruct Hloop as [->| ->].
      * left. reflexivity.
      * right. apply corrupt_CorruptionError.
  - destruct (hash_index_ c) as [hi|] eqn:Hhi.
    + unfold HashSeek in H. rewrite Hhi in H.
      destruct (hi target) as [[first_index num_blocks]|].
      * eapply HB; eauto.
      * injection H as <- <-. left. reflexivity.
    + eapply HB; eauto.
Qed.

Lemma run_op_carried : forall o c c',
  run_op o c = Some c' -> carried c c'.
Proof.
  intros [| |target| |] c c' H; simpl in H.
  - unfold Next in H. destruct (ParseNextKey c) as [[c1 ok]|] eqn:Hp;
      [|discriminate].
    injection H as <-. apply ParseNextKey_status in Hp. apply Hp.
  - unfold Prev in H.
    destruct (Prev_rewind _ _ c) as [[c1 returned]|] eqn:Hrew; [|discriminate].
    apply Prev_rewind_status in Hrew.
    destruct returned; [injection H as <-; left; exact Hrew|].
    destruct (SeekToRestartPoint c1 (restart_index_ c1)) as [c2|] eqn:Hs;
      [|discriminate].
    apply SeekToRestartPoint_status in Hs.
    apply Prev_walk_carried in H.
    eapply carried_trans; [|exact H]. congruence.
  - unfold Seek in H. destruct (data_ c); [|injection H as <-; apply carried_refl].
    match type of H with
    | context [match ?x with _ => _ end] =>
        destruct x as [[c1 res]|] eqn:Hidx; [|discriminate]
    end.
    apply index_seek_result in Hidx.
    destruct res as [index|]; [|injection H as <-; exact Hidx].
    subst c1.
    destruct (SeekToRestartPoint c index) as [c2|] eqn:Hs; [|discriminate].
    apply SeekToRestartPoint_status in Hs.
    apply Seek_scan_carried in H.
    eapply carried_trans; [|exact H]. congruence.
  - unfold SeekToFirst in H.
    destruct (data_ c); [|injection H as <-; apply carried_refl].
    destruct (SeekToRestartPoint c 0) as [c1|] eqn:Hs; [|discriminate].
    apply SeekToRestartPoint_status in Hs.
    destruct (ParseNextKey c1) as [[c2 ok]|] eqn:Hp; [|discriminate].
    injection H as <-. apply ParseNextKey_status in Hp.
    eapply carried_trans; [|apply Hp]. congruence.
  - unfold SeekToLast in H.
    destruct (data_ c); [|injection H as <-; apply carried_refl].
    destruct (SeekToRestartPoint c _) as [c1|] eqn:Hs; [|discriminate].
    apply SeekToRestartPoint_status in Hs.
    apply SeekToLast_walk_carried in H.
    eapply carried_trans; [|exact H]. congruence.
Qed.

Lemma run_ops_not_ok : forall os c c',
  run_ops os c = Some c' -> status_ c <> OK -> status_ c' <> OK.
Proof.
  induction os as [|o os IH]; intros c c' H Hst; simpl in H.
  - injection H as <-. exact Hst.
  - destruct (run_op o c) as [c1|] eqn:Ho; [|discriminate].
    apply (IH c1 c' H). apply run_op_carried in Ho.
    destruct Ho as [Ho|Ho]; [congruence|apply corrupt_not_ok; exact Ho].
Qed.


(** ** The prefix-index seek *)

Lemma block_id_Some : forall ids i id,
  block_id ids i = Some id ->
  0 <= i < Z.of_nat (List.length ids) /\ In id ids.
Proof.
  intros ids i id. unfold block_id.
  destruct ((i <? 0) || (Z.of_nat (List.length ids) <=? i)) eqn:E;
    [discriminate|].
  apply orb_false_elim in E. destruct E as [E1 E2].
  apply Z.ltb_ge in E1. apply Z.leb_gt in E2.
  intros H. split; [lia|]. eapply nth_error_In; eauto.
Qed.




Section PrefixSeek.

Variables (cmp : Comparator) (d : Bytes) (es : list Entry) (rs : list Z).
Hypothesis WF : well_formed d es rs.
Hypothesis NonEmpty : es <> [].

Let R := restarts_of d rs.
Let nr := num_restarts_of rs.

Lemma restart_entry_unique : forall i a b,
  restart_entry es rs i a -> restart_entry es rs i b -> a = b.
Proof.
  intros i a b (_ & ra & Hna & Hia & Hoa) (_ & rb & Hnb & Hib & Hob).
  destruct (wf_offsets_sorted d es rs WF) as [Hsorted _].
  apply (sorted_offsets_unique es); auto. congruence.
Qed.

(** [CompareBlockKey] compares the key of the entry at the restart
    point. *)
Lemma CompareBlockKey_wf : forall c target i,
  cursor_over d rs c -> comparator_ c = Some cmp ->
  0 <= i < nr ->
  exists er after,
    restart_entry es rs i er /\
    entries_from d R (e_off er) [] (er :: after) /\
    CompareBlockKey c i target = Some (c, cmp (e_key er) target).
Proof.
  intros c target i Hc Hcmp Hi.
  pose proof Hc as (Hd & Hr & Hn).
  destruct (restart_nth rs i Hi) as [r Hnth].
  destruct (wf_restart_entries_from d es rs WF r (nth_error_In _ _ Hnth) NonEmpty)
    as (before & er & after & Hes & Hoff & Hsh & Hfrom).
  exists er, after. split.
  { split; [lia|]. exists r. split; [exact Hnth|].
    split; [rewrite Hes; apply in_elt|exact Hoff]. }
  split; [rewrite Hoff; exact Hfrom|].
  destruct Hfrom as (_ & Hat & _). apply entry_at_Some in Hat.
  destruct Hat as (h & delta & Hh & _ & Hdelta & Her).
  unfold CompareBlockKey.
  rewrite (wf_GetRestartPoint d es rs WF c i r Hc (proj1 Hi) Hnth).
  rewrite Hd, Hr, Hh.
  rewrite Her in Hsh. simpl in Hsh. rewrite Hsh. simpl.
  rewrite Hdelta. unfold Compare. rewrite Hcmp.
  rewrite Her. simpl. rewrite Hsh. simpl. reflexivity.
Qed.

End PrefixSeek.

Lemma well_formed_a_cd_f :
  well_formed block_a_cd_f entries_a_cd_f [0; 4; 12].
Proof.
  constructor.
  - crunch.
  - crunch.
  - crunch.
  - prove_restart_array.
  - reflexivity.
  - repeat constructor.
  - simpl. repeat split; crunch.
  - intros r [<-|[<-|[<-|[]]]];
      [restart_entry 0%nat|restart_entry 1%nat|restart_entry 3%nat].
Qed.

Lemma block_id_defined : forall ids i,
  0 <= i < Z.of_nat (List.length ids) -> exists id, block_id ids i = Some id.
Proof.
  intros ids i Hi. unfold block_id.
  replace (i <? 0) with false by (symmetry; apply Z.ltb_ge; lia).
  replace (Z.of_nat (List.length ids) <=? i) with false
    by (symmetry; apply Z.leb_gt; lia).
  simpl. destruct (nth_error ids (Z.to_nat i)) as [id|] eqn:E.
  - exists id. reflexivity.
  - apply nth_error_None in E. lia.
Qed.



(** ** The codec reads below [limit] only *)

Lemma GetVarint32PtrFallback_reads_below_limit :
  forall n d d' p limit shift result,
    (forall i, p <= i < limit -> peek d i = peek d' i) ->
    GetVarint32PtrFallback n d p limit shift result
    = GetVarint32PtrFallback n d' p limit shift result.
Proof.
  induction n as [|n IH]; intros d d' p limit shift result Hagree;
    cbn [GetVarint32PtrFallback]; [reflexivity|].
  destruct (shift <=? 28); cbn [andb]; [|reflexivity].
  destruct (p <? limit) eqn:Hp; [|reflexivity]. apply Z.ltb_lt in Hp.
  rewrite (Hagree p) by lia.
  destruct (Z.land (peek d' p) 128 =? 0); [reflexivity|].
  apply IH. intros i Hi. apply Hagree. lia.
Qed.

Lemma GetVarint32Ptr_reads_below_limit : forall d d' p limit,
  (forall i, p <= i < limit -> peek d i = peek d' i) ->
  GetVarint32Ptr d p limit = GetVarint32Ptr d' p limit.
Proof.
  intros d d' p limit Hagree. unfold GetVarint32Ptr.
  destruct (p <? limit) eqn:Hp; cbn [andb].
  - apply Z.ltb_lt in Hp. rewrite (Hagree p) by lia.
    destruct (Z.land (peek d' p) 128 =? 0); [reflexivity|].
    apply GetVarint32PtrFallback_reads_below_limit. exact Hagree.
  - apply GetVarint32PtrFallback_reads_below_limit. exact Hagree.
Qed.

(** [DecodeEntry] "will not dereference past limit": two buffers that agree
    on the bytes from [p] up to [limit] decode alike. *)
Lemma DecodeEntry_reads_below_limit : forall d d' p limit,
  (forall i, p <= i < limit -> peek d i = peek d' i) ->
  DecodeEntry d p limit = DecodeEntry d' p limit.
Proof.
  intros d d' p limit Hagree. unfold DecodeEntry.
  destruct (limit - p <? 3) eqn:H3; [reflexivity|]. apply Z.ltb_ge in H3.
  rewrite (Hagree p), (Hagree (p + 1)), (Hagree (p + 2)) by lia.
  destruct (Z.lor (Z.lor (peek d' p) (peek d' (p + 1))) (peek d' (p + 2)) <? 128);
    [reflexivity|].
  rewrite (GetVarint32Ptr_reads_below_limit d d' p limit Hagree).
  destruct (GetVarint32Ptr d' p limit) as [[p1 sh]|] eqn:E1; [|reflexivity].
  apply GetVarint32Ptr_Some in E1.
  rewrite (GetVarint32Ptr_reads_below_limit d d' p1 limit)
    by (intros i Hi; apply Hagree; lia).
  destruct (GetVarint32Ptr d' p1 limit) as [[p2 ns]|] eqn:E2; [|reflexivity].
  apply GetVarint32Ptr_Some in E2.
  rewrite (GetVarint32Ptr_reads_below_limit d d' p2 limit)
    by (intros i Hi; apply Hagree; lia).
  reflexivity.
Qed.

(** ** Cursors of well-formed blocks *)

(** The constructor accepts a well-formed block and [NewIterator] hands
    out a cursor over it, invalid and with status OK. *)
Lemma new_cursor_well_formed : forall d es rs cmp,
  well_formed d es rs ->
  exists c,
    new_cursor d cmp = Some c /\
    cursor_over d rs c /\ comparator_ c = Some cmp /\
    hash_index_ c = None /\ prefix_index_ c = None /\
    status_ c = OK /\ Valid c = false.
Proof.
  intros d es rs cmp WF.
  destruct (wf_bounds d es rs WF) as [HR Hnr].
  pose proof (wf_size _ _ _ WF) as Hsize.
  pose proof (wf_num_restarts _ _ _ WF) as Hnum.
  pose proof (len_nonneg d) as Hlen.
  assert (Hlen' : len d = restarts_of d rs + (num_restarts_of rs + 1) * 4)
    by (unfold restarts_of, num_restarts_of; lia).
  change (2 ^ 32) with 4294967296 in *.
  exists (Initialize BlockIter_default cmp d (restarts_of d rs)
            (num_restarts_of rs) None None).
  split.
  - unfold new_cursor, Block_Block.
    replace (len d <? 4) with false by (symmetry; apply Z.ltb_ge; lia).
    rewrite Hnum.
    rewrite (u32_small (len d)) by (change (2 ^ 32) with 4294967296; lia).
    rewrite (u32_small (1 + num_restarts_of rs))
      by (change (2 ^ 32) with 4294967296; lia).
    replace (len d - (1 + num_restarts_of rs) * 4) with (restarts_of d rs)
      by lia.
    rewrite (u32_small (restarts_of d rs))
      by (change (2 ^ 32) with 4294967296; lia).
    replace (len d - 4 <? restarts_of d rs) with false
      by (symmetry; apply Z.ltb_ge; lia).
    unfold NewIterator. simpl.
    replace (len d <? kMinBlockSize) with false
      by (symmetry; apply Z.ltb_ge; unfold kMinBlockSize; lia).
    rewrite Hnum.
    replace (num_restarts_of rs =? 0) with false
      by (symmetry; apply Z.eqb_neq; lia).
    reflexivity.
  - split; [repeat split|]. split; [reflexivity|]. split; [reflexivity|].
    split; [reflexivity|]. split; [reflexivity|].
    unfold Valid. simpl. apply Z.ltb_irrefl.
Qed.

(** ** The restart index across the operations *)

Lemma ParseNextKey_frame : forall c c' b,
  ParseNextKey c = Some (c', b) -> same_frame c c'.
Proof.
  intros c c' [|] H.
  - apply ParseNextKey_true in H.
    destruct H as (d & off & h & delta & _ & _ & _ & _ & _ & _ & Hadv).
    apply advance_restart_index_frame in Hadv. destruct Hadv as [ri ->].
    repeat split.
  - apply ParseNextKey_false in H.
    destruct H as (off & _ & [->| ->]); repeat split.
Qed.

Lemma ParseNextKey_false_invalid : forall c c',
  ParseNextKey c = Some (c', false) -> Valid c' = false.
Proof.
  intros c c' H. apply ParseNextKey_false in H.
  destruct H as (off & _ & [->| ->]); unfold Valid; simpl; apply Z.ltb_irrefl.
Qed.

Lemma plain_cursor_frame : forall c c',
  plain_cursor c -> same_frame c c' -> plain_cursor c'.
Proof.
  intros c c' (Hnr & HR & Hasc & Hread & Hh & Hp) Hfr.
  pose proof Hfr as (_ & _ & Hr' & Hn' & Hh' & Hp').
  unfold plain_cursor. rewrite Hr', Hn', Hh', Hp'.
  split; [exact Hnr|]. split; [exact HR|]. split; [|split; [|auto]].
  - intros i j ri rj Hi Hij Hj Hgi Hgj. rewrite Hn' in Hj.
    rewrite (same_frame_GetRestartPoint c c' i Hfr) in Hgi.
    rewrite (same_frame_GetRestartPoint c c' j Hfr) in Hgj.
    eapply Hasc; eauto.
  - intros i Hi. rewrite (same_frame_GetRestartPoint c c' _ Hfr). auto.
Qed.

Lemma ParseNextKey_ready : forall c c',
  plain_cursor c -> parse_ready c ->
  ParseNextKey c = Some (c', true) ->
  restart_index_brackets c' /\ parse_ready c'.
Proof.
  intros c c' (Hnr & HR & Hasc & _) (Hri & rp & off & Hrp & Hoff & Hle) H.
  assert (Hnr32 : num_restarts_ c < 2 ^ 32)
    by (change (2 ^ 31) with 2147483648 in Hnr;
        change (2 ^ 32) with 4294967296; lia).
  destruct (ParseNextKey_restart_index_step c c' rp off Hri Hnr32
              (proj2 HR) Hasc Hrp Hoff Hle H)
    as (Hb & Hri' & off' & Hoff' & Hlt).
  split; [exact Hb|]. split; [exact Hri'|].
  destruct Hb as [(rp' & Hrp' & Hle') _].
  exists rp', off'. repeat split; auto. lia.
Qed.

Lemma SeekToRestartPoint_ready : forall c i c',
  0 <= i < num_restarts_ c ->
  SeekToRestartPoint c i = Some c' ->
  same_frame c c' /\ parse_ready c'.
Proof.
  intros c i c' Hi H. unfold SeekToRestartPoint in H.
  destruct (GetRestartPoint (set_restart_index (set_key c []) i) i)
    as [r|] eqn:Hr; [|discriminate].
  injection H as <-. split; [repeat split|].
  split; [exact Hi|]. exists r, r.
  change (GetRestartPoint c i = Some r) in Hr.
  split; [exact Hr|]. split; [|lia].
  unfold NextEntryOffset. simpl.
  unfold GetRestartPoint in Hr. destruct (data_ c) as [d|]; [|discriminate].
  apply DecodeFixed32_Some in Hr. rewrite Z.add_0_r.
  rewrite u32_small by lia. reflexivity.
Qed.

Lemma Seek_scan_invariant : forall fuel c target c',
  plain_cursor c -> parse_ready c ->
  Seek_scan fuel c target = Some c' ->
  same_frame c c' /\ restart_index_invariant c'.
Proof.
  induction fuel as [|fuel IH]; intros c target c' He Hready H; simpl in H;
    [discriminate|].
  destruct (ParseNextKey c) as [[c1 ok]|] eqn:Hp; [|discriminate].
  pose proof (ParseNextKey_frame _ _ _ Hp) as Hfr.
  destruct ok; simpl in H.
  - destruct (ParseNextKey_ready c c1 He Hready Hp) as [Hb Hr1].
    destruct (Compare c1 (key_ c1) target) as [v|]; [|discriminate].
    destruct (0 <=? v).
    + injection H as <-. split; [exact Hfr|]. intros _. auto.
    + apply IH in H; auto; [|eapply plain_cursor_frame; eauto].
      destruct H as [Hfr' Hinv]. split; [eapply same_frame_trans; eauto|auto].
  - injection H as <-. split; [exact Hfr|]. intros Hv.
    rewrite (ParseNextKey_false_invalid _ _ Hp) in Hv. discriminate.
Qed.

Lemma Prev_walk_invariant : forall fuel original c c',
  plain_cursor c -> parse_ready c ->
  Prev_walk fuel original c = Some c' ->
  same_frame c c' /\ restart_index_invariant c'.
Proof.
  induction fuel as [|fuel IH]; intros original c c' He Hready H; simpl in H;
    [discriminate|].
  destruct (ParseNextKey c) as [[c1 ok]|] eqn:Hp; [|discriminate].
  pose proof (ParseNextKey_frame _ _ _ Hp) as Hfr.
  destruct ok.
  - destruct (ParseNextKey_ready c c1 He Hready Hp) as [Hb Hr1].
    destruct (NextEntryOffset c1) as [off|]; [|discriminate].
    destruct (off <? original).
    + apply IH in H; auto; [|eapply plain_cursor_frame; eauto].
      destruct H as [Hfr' Hinv]. split; [eapply same_frame_trans; eauto|auto].
    + injection H as <-. split; [exact Hfr|]. intros _. auto.
  - injection H as <-. split; [exact Hfr|]. intros Hv.
    rewrite (ParseNextKey_false_invalid _ _ Hp) in Hv. discriminate.
Qed.

Lemma SeekToLast_walk_invariant : forall fuel c c',
  plain_cursor c -> parse_ready c ->
  SeekToLast_walk fuel c = Some c' ->
  same_frame c c' /\ restart_index_invariant c'.
Proof.
  induction fuel as [|fuel IH]; intros c c' He Hready H; simpl in H;
    [discriminate|].
  destruct (ParseNextKey c) as [[c1 ok]|] eqn:Hp; [|discriminate].
  pose proof (ParseNextKey_frame _ _ _ Hp) as Hfr.
  destruct ok.
  - destruct (ParseNextKey_ready c c1 He Hready Hp) as [Hb Hr1].
    destruct (NextEntryOffset c1) as [off|]; [|discriminate].
    destruct (off <? restarts_ c1).
    + apply IH in H; auto; [|eapply plain_cursor_frame; eauto].
      destruct H as [Hfr' Hinv]. split; [eapply same_frame_trans; eauto|auto].
    + injection H as <-. split; [exact Hfr|]. intros _. auto.
  - injection H as <-. split; [exact Hfr|]. intros Hv.
    rewrite (ParseNextKey_false_invalid _ _ Hp) in Hv. discriminate.
Qed.

Lemma Prev_rewind_range : forall fuel original c c',
  0 <= restart_index_ c < num_restarts_ c -> num_restarts_ c < 2 ^ 32 ->
  Prev_rewind fuel original c = Some (c', false) ->
  exists ri', c' = set_restart_index c ri' /\ 0 <= ri' <= restart_index_ c.
Proof.
  induction fuel as [|fuel IH]; intros original c c' Hri Hnr H; simpl in H;
    [discriminate|].
  destruct (GetRestartPoint c (restart_index_ c)) as [rp|]; [|discriminate].
  destruct (original <=? rp).
  - destruct (restart_index_ c =? 0) eqn:E; [discriminate|].
    apply Z.eqb_neq in E. rewrite u32_small in H by lia.
    apply IH in H; simpl; try lia.
    destruct H as (ri' & -> & Hr). simpl in Hr. exists ri'.
    split; [destruct c; reflexivity|lia].
  - injection H as <-. exists (restart_index_ c).
    split; [destruct c; reflexivity|lia].
Qed.

Lemma Prev_rewind_returned_invalid : forall fuel original c c',
  Prev_rewind fuel original c = Some (c', true) -> Valid c' = false.
Proof.
  induction fuel as [|fuel IH]; intros original c c' H; simpl in H;
    [discriminate|].
  destruct (GetRestartPoint c (restart_index_ c)) as [rp|]; [|discriminate].
  destruct (original <=? rp); [|discriminate].
  destruct (restart_index_ c =? 0).
  - injection H as <-. unfold Valid. simpl. apply Z.ltb_irrefl.
  - eapply IH; eauto.
Qed.

Lemma BinarySeek_loop_range : forall fuel c target l r c' index,
  0 <= l <= r -> r < 2 ^ 31 ->
  BinarySeek_loop fuel c target l r = Some (c', Some index) ->
  l <= index <= r.
Proof.
  induction fuel as [|fuel IH]; intros c target l r c' index Hlr Hr H;
    simpl in H; [discriminate|].
  destruct (l <? r) eqn:Hlt.
  - apply Z.ltb_lt in Hlt.
    destruct (BinarySeek_probe c target l r) as [p|] eqn:Hp; [|discriminate].
    destruct (BinarySeek_mid_bounds l r ltac:(lia) Hlt Hr) as [_ Hm].
    apply BinarySeek_probe_mid in Hp.
    assert (Hr' : r < 2147483648) by exact Hr.
    destruct p as [|mid|mid|mid]; simpl in H; try discriminate; subst mid.
    + apply IH in H; lia.
    + rewrite u32_small in H by (change (2 ^ 32) with 4294967296; lia).
      apply IH in H; try lia.
    + apply IH in H; lia.
  - apply Z.ltb_ge in Hlt. injection H as _ <-. lia.
Qed.


(** Where a successful [ParseNextKey] leaves the restart index. *)
Lemma ParseNextKey_restart_index_exact :
  forall (c c' : BlockIter),
    num_restarts_ c < 2 ^ 32 -> restarts_ c < 2 ^ 32 ->
    restart_offsets_ascend c -> parse_ready c ->
    ParseNextKey c = Some (c', true) ->
    restart_index_ c <= restart_index_ c' < num_restarts_ c /\
    (forall i rp, restart_index_ c < i <= restart_index_ c' ->
       GetRestartPoint c' i = Some rp -> rp < current_ c') /\
    (forall i rp, restart_index_ c' < i < num_restarts_ c ->
       GetRestartPoint c' i = Some rp -> current_ c' <= rp) /\
    (forall j, restart_index_ c < j < num_restarts_ c ->
       GetRestartPoint c' j = Some (current_ c') ->
       restart_index_ c' = j - 1) /\
    (restart_index_is_largest c' <->
       forall j, restart_index_ c < j < num_restarts_ c ->
         GetRestartPoint c' j <> Some (current_ c')) /\
    restart_index_brackets c' /\ parse_ready c'.
Proof.
  intros c c' Hnr HR Hasc Hready Hparse.
  pose proof Hready as (Hri & rp0 & off0 & Hrp0 & Hoff0 & Hle0).
  destruct (ParseNextKey_restart_index_step c c' rp0 off0 Hri Hnr HR Hasc
              Hrp0 Hoff0 Hle0 Hparse) as (Hb & Hri' & off' & Hoff' & Hlt').
  pose proof (ParseNextKey_frame _ _ _ Hparse) as Hfr.
  assert (HG : forall i, GetRestartPoint c' i = GetRestartPoint c i)
    by (intros i; apply same_frame_GetRestartPoint; exact Hfr).
  assert (Hn' : num_restarts_ c' = num_restarts_ c) by apply Hfr.
  pose proof Hparse as Htrue. apply ParseNextKey_true in Htrue.
  destruct Htrue as (d & off & h & delta & Hd & Hoff & Hlt & Hh & Hsh & Hdelta
                     & Hadv).
  apply advance_restart_index_spec in Hadv; [|exact Hri|exact Hnr].
  destruct Hadv as (ri' & Hc' & Hrange & Hlow & Hup).
  change (restart_index_ (parsed c off h delta)) with (restart_index_ c) in *.
  change (num_restarts_ (parsed c off h delta)) with (num_restarts_ c) in *.
  change (current_ (parsed c off h delta)) with off in *.
  assert (HGp : forall i, GetRestartPoint (parsed c off h delta) i
                          = GetRestartPoint c i) by reflexivity.
  assert (Hri_eq : restart_index_ c' = ri') by (rewrite Hc'; reflexivity).
  assert (Hcur : current_ c' = off) by (rewrite Hc'; reflexivity).
  rewrite Hri_eq, Hcur. rewrite Hn' in Hri'.
  (* below the new index *)
  assert (Hbelow : forall i rp, restart_index_ c < i <= ri' ->
            GetRestartPoint c' i = Some rp -> rp < off).
  { intros i rp Hi Hrp. rewrite HG in Hrp.
    destruct Hlow as [->|(rp' & Hrp' & Hlt1)]; [lia|].
    rewrite HGp in Hrp'.
    destruct (Z.eq_dec i ri') as [->|Hne].
    - rewrite Hrp' in Hrp. injection Hrp as <-. exact Hlt1.
    - assert (rp < rp') by (apply (Hasc i ri'); auto; lia). lia. }
  (* above the new index *)
  assert (Habove : forall i rp, ri' < i < num_restarts_ c ->
            GetRestartPoint c' i = Some rp -> off <= rp).
  { intros i rp Hi Hrp. rewrite HG in Hrp.
    destruct (Hup ltac:(lia)) as (rp1 & Hrp1 & Hle1). rewrite HGp in Hrp1.
    destruct (Z.eq_dec i (ri' + 1)) as [->|Hne].
    - rewrite Hrp1 in Hrp. injection Hrp as <-. exact Hle1.
    - assert (rp1 < rp) by (apply (Hasc (ri' + 1) i); auto; lia). lia. }
  (* landing on a restart point *)
  assert (Hlag : forall j, restart_index_ c < j < num_restarts_ c ->
            GetRestartPoint c' j = Some off -> ri' = j - 1).
  { intros j Hj Hrp.
    destruct (Z_le_gt_dec j ri') as [Hle|Hgt].
    - pose proof (Hbelow j off ltac:(lia) Hrp). lia.
    - destruct (Z.eq_dec j (ri' + 1)) as [->|Hne]; [lia|].
      destruct (Hup ltac:(lia)) as (rp1 & Hrp1 & Hle1). rewrite HGp in Hrp1.
      rewrite HG in Hrp.
      assert (rp1 < off) by (apply (Hasc (ri' + 1) j); auto; lia). lia. }
  split; [lia|]. split; [exact Hbelow|]. split; [exact Habove|].
  split; [exact Hlag|]. split; [|split; [exact Hb|]].
  - split.
    + intros [_ Hlargest] j Hj Hrp.
      pose proof (Hlag j Hj Hrp) as E.
      rewrite Hri_eq, Hcur, Hn' in Hlargest.
      pose proof (Hlargest j off ltac:(lia) Hrp). lia.
    + intros Hno. split; [exact (proj1 Hb)|].
      rewrite Hri_eq, Hcur, Hn'. intros i rp Hi Hrp.
      pose proof (Habove i rp Hi Hrp) as Hge.
      destruct (Z.eq_dec rp off) as [->|Hne]; [|lia].
      exfalso. apply (Hno i); [lia|exact Hrp].
  - split; [lia|].
    destruct Hb as [(rp' & Hrp' & Hle') _].
    exists rp', off'. repeat split; auto. lia.
Qed.

(** C3, amended.  Take a [ParseNextKey] that succeeds.  It starts with
    the restart index s at an index of the restart array whose offset is not
    beyond the entry to parse (so after [SeekToRestartPoint] and after each
    successful [ParseNextKey]), over restart offsets that ascend,
    [num_restarts_] and [restarts_] being 32-bit values.  It leaves
    the restart index at an r with s <= r < num_restarts_, the restart
    offsets of the indices s < i <= r strictly below [current_] and those
    of the indices i > r at or above [current_]: r is the larger of s and
    the largest i with restart_offset[i] < current_.  When [current_] is the
    restart offset of an index j > s, that is, when the step walks forward
    onto restart point j, then r = j - 1, one behind the largest i with
    restart_offset[i] <= current_; and r is the largest i with
    restart_offset[i] <= current_ exactly when [current_] is not the restart
    offset of an index above s.  In every case
    restart_offset[r] <= current_ <= restart_offset[i] for every i > r,
    and the next [ParseNextKey] starts as this one did.  Hence on a cursor
    without auxiliary index, over a restart array that can be read and
    ascends, every operation keeps this invariant of valid cursors ([Next]
    and [Prev] being called on a valid cursor):
    restart_offset[restart_index_] <= current_ <= restart_offset[i] for
    every i > restart_index_. *)
Theorem restart_index_after_parse :
  (forall (c c' : BlockIter),
     num_restarts_ c < 2 ^ 32 -> restarts_ c < 2 ^ 32 ->
     restart_offsets_ascend c -> parse_ready c ->
     ParseNextKey c = Some (c', true) ->
     restart_index_ c <= restart_index_ c' < num_restarts_ c /\
     (forall i rp, restart_index_ c < i <= restart_index_ c' ->
        GetRestartPoint c' i = Some rp -> rp < current_ c') /\
     (forall i rp, restart_index_ c' < i < num_restarts_ c ->
        GetRestartPoint c' i = Some rp -> current_ c' <= rp) /\
     (forall j, restart_index_ c < j < num_restarts_ c ->
        GetRestartPoint c' j = Some (current_ c') ->
        restart_index_ c' = j - 1) /\
     (restart_index_is_largest c' <->
        forall j, restart_index_ c < j < num_restarts_ c ->
          GetRestartPoint c' j <> Some (current_ c')) /\
     restart_index_brackets c' /\ parse_ready c')
  /\
  (forall (o : Op) (c c' : BlockIter),
     plain_cursor c ->
     (o = OpNext \/ o = OpPrev -> Valid c = true) ->
     restart_index_invariant c ->
     run_op o c = Some c' ->
     restart_index_invariant c').
Proof.
  split; [exact ParseNextKey_restart_index_exact|].
  intros o c c' He Hpre Hinv H.
  pose proof He as (Hnr & HR & Hasc & Hread & Hhash & Hprefix).
  assert (Hnr31 : num_restarts_ c < 2147483648) by (apply Hnr).
  destruct o as [| |target| |]; simpl in H.
  - (* Next *)
    destruct (Hinv (Hpre (or_introl eq_refl))) as [_ Hready].
    unfold Next in H.
    destruct (ParseNextKey c) as [[c1 ok]|] eqn:Hp; [|discriminate].
    injection H as <-. destruct ok.
    + intros _. eapply ParseNextKey_ready; eauto.
    + intros Hv. rewrite (ParseNextKey_false_invalid _ _ Hp) in Hv.
      discriminate.
  - (* Prev *)
    destruct (Hinv (Hpre (or_intror eq_refl))) as [_ (Hri & _)].
    unfold Prev in H.
    destruct (Prev_rewind _ _ c) as [[c1 returned]|] eqn:Hrew; [|discriminate].
    destruct returned.
    + injection H as <-. intros Hv.
      rewrite (Prev_rewind_returned_invalid _ _ _ _ Hrew) in Hv. discriminate.
    + apply Prev_rewind_range in Hrew;
        [|exact Hri|change (2 ^ 32) with 4294967296; lia].
      destruct Hrew as (ri' & -> & Hri').
      change (restart_index_ (set_restart_index c ri')) with ri' in H.
      destruct (SeekToRestartPoint (set_restart_index c ri') ri') as [c2|] eqn:Hs;
        [|discriminate].
      apply SeekToRestartPoint_ready in Hs; [|simpl; lia].
      destruct Hs as [Hfr Hready].
      apply Prev_walk_invariant in H; auto.
      * apply H.
      * eapply plain_cursor_frame; [exact He|].
        eapply same_frame_trans; [|exact Hfr]. repeat split.
  - (* Seek *)
    unfold Seek in H. destruct (data_ c); [|injection H as <-; exact Hinv].
    rewrite Hprefix, Hhash in H.
    rewrite u32_small in H by (change (2 ^ 32) with 4294967296; lia).
    destruct (BinarySeek c target 0 (num_restarts_ c - 1)) as [[c1 res]|] eqn:Hb;
      [|discriminate].
    unfold BinarySeek in Hb.
    pose proof (BinarySeek_loop_result _ _ _ _ _ _ _ Hb) as Hres.
    destruct res as [index|].
    + subst c1. apply BinarySeek_loop_range in Hb;
        [|lia|change (2 ^ 31) with 2147483648; lia].
      destruct (SeekToRestartPoint c index) as [c2|] eqn:Hs; [|discriminate].
      apply SeekToRestartPoint_ready in Hs; [|lia].
      destruct Hs as [Hfr Hready].
      apply Seek_scan_invariant in H; auto.
      * apply H.
      * eapply plain_cursor_frame; eauto.
    + injection H as <-. subst c1. intros Hv. unfold Valid in Hv.
      simpl in Hv. rewrite Z.ltb_irrefl in Hv. discriminate.
  - (* SeekToFirst *)
    unfold SeekToFirst in H.
    destruct (data_ c); [|injection H as <-; exact Hinv].
    destruct (SeekToRestartPoint c 0) as [c1|] eqn:Hs; [|discriminate].
    apply SeekToRestartPoint_ready in Hs; [|lia].
    destruct Hs as [Hfr Hready].
    destruct (ParseNextKey c1) as [[c2 ok]|] eqn:Hp; [|discriminate].
    injection H as <-. destruct ok.
    + intros _. apply (ParseNextKey_ready c1 c2); auto.
      eapply plain_cursor_frame; eauto.
    + intros Hv. rewrite (ParseNextKey_false_invalid _ _ Hp) in Hv.
      discriminate.
  - (* SeekToLast *)
    unfold SeekToLast in H.
    destruct (data_ c); [|injection H as <-; exact Hinv].
    rewrite u32_small in H by (change (2 ^ 32) with 4294967296; lia).
    destruct (SeekToRestartPoint c (num_restarts_ c - 1)) as [c1|] eqn:Hs;
      [|discriminate].
    apply SeekToRestartPoint_ready in Hs; [|lia].
    destruct Hs as [Hfr Hready].
    apply SeekToLast_walk_invariant in H; auto.
    + apply H.
    + eapply plain_cursor_frame; eauto.
Qed.

Lemma plain_cursor_abc_def : plain_cursor cursor_abc_def.
Proof.
  split; [crunch|]. split; [crunch|]. split; [|split; [|split; reflexivity]].
  - intros i j ri rj Hi Hij Hj.
    change (num_restarts_ cursor_abc_def) with 2 in Hj.
    assert (i = 0) by lia. assert (j = 1) by lia. subst i j.
    vm_compute. intros [= <-] [= <-]. reflexivity.
  - intros i Hi.
    change (num_restarts_ cursor_abc_def) with 2 in Hi.
    assert (Hcases : i = 0 \/ i = 1) by lia.
    destruct Hcases as [-> | ->]; [exists 0|exists 7]; crunch.
Qed.

Lemma plain_cursor_abc_def_restart0 : plain_cursor cursor_abc_def_restart0.
Proof. exact plain_cursor_abc_def. Qed.

Lemma restart_index_after_parse_witness :
  (ParseNextKey cursor_abc_def_at_abc = Some (cursor_abc_def_lagging, true) /\
   GetRestartPoint cursor_abc_def_lagging 1
   = Some (current_ cursor_abc_def_lagging) /\
   restart_index_ cursor_abc_def_lagging = 1 - 1 /\
   ~ restart_index_is_largest cursor_abc_def_lagging /\
   restart_index_brackets cursor_abc_def_lagging) /\
  (run_op OpSeekToLast cursor_abc_def = Some cursor_abc_def_at_def /\
   Valid cursor_abc_def_at_def = true /\
   restart_index_invariant cursor_abc_def_at_def).
Proof.
  split.
  - assert (Hparse : ParseNextKey cursor_abc_def_at_abc
                     = Some (cursor_abc_def_lagging, true)) by crunch.
    assert (Hrp : GetRestartPoint cursor_abc_def_lagging 1
                  = Some (current_ cursor_abc_def_lagging)) by crunch.
    destruct (proj1 restart_index_after_parse cursor_abc_def_at_abc
                cursor_abc_def_lagging)
      as (_ & _ & _ & Hlag & Hiff & Hb & _).
    + crunch.
    + crunch.
    + apply plain_cursor_abc_def.
    + split; [crunch|]. exists 0, 7. crunch.
    + exact Hparse.
    + split; [exact Hparse|]. split; [exact Hrp|].
      split; [apply Hlag; [simpl; lia|exact Hrp]|].
      split; [|exact Hb].
      intros Hl. apply (proj1 Hiff Hl 1); [simpl; lia|exact Hrp].
  - split; [crunch|]. split; [crunch|].
    apply (proj2 restart_index_after_parse OpSeekToLast cursor_abc_def
             cursor_abc_def_at_def plain_cursor_abc_def).
    + intros [H | H]; discriminate H.
    + intros H; vm_compute in H; discriminate H.
    + crunch.
Defined.

(** * Further properties of the reader *)

(** ** The entry codec *)

(** X1.  [DecodeEntry] never looks at a byte at or past [limit]: over two
    buffers that hold the same bytes from [p] up to [limit] it gives the
    same answer, whatever lies behind. *)
Theorem DecodeEntry_ignores_bytes_from_limit :
  forall (d d' : Bytes) (p limit : Z),
    (forall i, p <= i < limit -> byte_at d i = byte_at d' i) ->
    DecodeEntry d p limit = DecodeEntry d' p limit.
Proof.
  intros d d' p limit H. apply DecodeEntry_reads_below_limit.
  intros i Hi. unfold peek. rewrite (H i Hi). reflexivity.
Qed.

Lemma DecodeEntry_ignores_bytes_from_limit_witness :
  DecodeEntry block_foo 0 10
  = DecodeEntry (bytes_of [0; 3; 4; 102; 111; 111; 66; 65; 82; 83; 9; 9]%N) 0 10.
Proof.
  apply (DecodeEntry_ignores_bytes_from_limit block_foo
           (bytes_of [0; 3; 4; 102; 111; 111; 66; 65; 82; 83; 9; 9]%N) 0 10).
  intros i Hi.
  assert (Hc : i = 0 \/ i = 1 \/ i = 2 \/ i = 3 \/ i = 4 \/ i = 5 \/ i = 6 \/
               i = 7 \/ i = 8 \/ i = 9) by lia.
  repeat (destruct Hc as [-> | Hc]; [reflexivity|]). subst i. reflexivity.
Defined.

(** X2.  Where the 32-bit sum of the two lengths does not wrap, the
    trailing check of [DecodeEntry] does what it is there for: an accepted
    entry has its header, its key delta and its value inside [p, limit). *)
Theorem DecodeEntry_entry_within_limit :
  forall (d : Bytes) (p limit : Z) (h : EntryHeader),
    0 <= p -> limit < 2 ^ 32 ->
    DecodeEntry d p limit = Some h ->
    non_shared h + value_length h < 2 ^ 32 ->
    p + 3 <= key_ptr h /\
    0 <= non_shared h /\ 0 <= value_length h /\
    key_ptr h + non_shared h + value_length h <= limit.
Proof.
  intros d p limit h Hp Hl H Hsum.
  destruct (DecodeEntry_end d p limit h Hp Hl H) as [_ Hend].
  apply DecodeEntry_Some in H. destruct H as (Hk & _ & Hns & Hvl & _).
  rewrite u32_small in Hend by lia. lia.
Qed.

Lemma DecodeEntry_entry_within_limit_witness :
  exists h,
    DecodeEntry block_foo 0 10 = Some h /\
    0 + 3 <= key_ptr h /\
    0 <= non_shared h /\ 0 <= value_length h /\
    key_ptr h + non_shared h + value_length h <= 10.
Proof.
  exists (mkHeader 3 0 3 4). split; [reflexivity|].
  apply (DecodeEntry_entry_within_limit block_foo 0 10 (mkHeader 3 0 3 4)).
  - lia.
  - reflexivity.
  - reflexivity.
  - reflexivity.
Defined.

(** ** Parse-next *)

(** X3.  The boolean [ParseNextKey] returns is the validity of the cursor
    it leaves: true with the cursor on an entry in front of the restart
    array, false with the cursor at [restarts_]. *)
Theorem ParseNextKey_returns_Valid :
  forall (c c' : BlockIter) (ok : bool),
    ParseNextKey c = Some (c', ok) -> Valid c' = ok.
Proof.
  intros c c' [|] H.
  - apply ParseNextKey_true in H.
    destruct H as (d & off & h & delta & _ & _ & Hlt & _ & _ & _ & Hadv).
    apply advance_restart_index_frame in Hadv. destruct Hadv as [ri ->].
    unfold Valid. simpl. apply Z.ltb_lt. exact Hlt.
  - apply ParseNextKey_false_invalid in H. exact H.
Qed.

Lemma ParseNextKey_returns_Valid_witness :
  Valid cursor_abc_def_at_abc = true.
Proof.
  apply (ParseNextKey_returns_Valid cursor_abc_def_restart0
           cursor_abc_def_at_abc true).
  reflexivity.
Defined.

(** ** The block handle *)

(** X4.  The constructor always returns.  A buffer shorter than 4 bytes is
    marked degenerate.  Otherwise the trailer holds a restart count n, and
    for n < 2^30 the wrap check is exact: when the restart array and the
    count fit ((1 + n) * 4 <= size) the block keeps its size and
    [restart_offset_] is size - (1 + n) * 4; when they do not fit, the block
    is marked degenerate ([size_] = 0). *)
Theorem Block_Block_checks_restart_array :
  forall (contents : Bytes),
    len contents < 2 ^ 32 ->
    (len contents < 4 ->
       exists b, Block_Block contents = Some b /\ b_size_ b = 0) /\
    (4 <= len contents ->
       exists n b,
         NumRestarts contents (len contents) = Some n /\
         Block_Block contents = Some b /\ b_data_ b = contents /\
         (n < 2 ^ 30 -> (1 + n) * 4 <= len contents ->
            b_size_ b = len contents /\
            b_restart_offset_ b = len contents - (1 + n) * 4) /\
         (n < 2 ^ 30 -> len contents < (1 + n) * 4 -> b_size_ b = 0)).
Proof.
  intros contents Hlen. pose proof (len_nonneg contents) as Hnn.
  unfold Block_Block. split.
  - intros H4. apply Z.ltb_lt in H4. rewrite H4. eexists. split; reflexivity.
  - intros H4.
    replace (len contents <? 4) with false by (symmetry; apply Z.ltb_ge; lia).
    destruct (DecodeFixed32_defined contents (len contents - 4)) as [n Hn];
      [lia|lia|].
    pose proof (DecodeFixed32_Some _ _ _ Hn) as (_ & _ & Hnr).
    unfold NumRestarts. rewrite Hn. exists n.
    change (2 ^ 32) with 4294967296 in *. change (2 ^ 30) with 1073741824.
    destruct (len contents - 4 <?
              u32 (u32 (len contents) - u32 (1 + n) * 4)) eqn:Hw;
      eexists; (split; [reflexivity|]); (split; [reflexivity|]);
      (split; [reflexivity|]); cbn [b_size_ b_restart_offset_].
    + apply Z.ltb_lt in Hw. split; [|reflexivity].
      intros Hsmall Hfit. exfalso.
      rewrite (u32_small (len contents)) in Hw
        by (change (2 ^ 32) with 4294967296; lia).
      rewrite (u32_small (1 + n)) in Hw
        by (change (2 ^ 32) with 4294967296; lia).
      rewrite u32_small in Hw by (change (2 ^ 32) with 4294967296; lia).
      lia.
    + apply Z.ltb_ge in Hw. split.
      * intros Hsmall Hfit. split; [reflexivity|].
        rewrite (u32_small (len contents))
          by (change (2 ^ 32) with 4294967296; lia).
        rewrite (u32_small (1 + n)) by (change (2 ^ 32) with 4294967296; lia).
        apply u32_small. change (2 ^ 32) with 4294967296. lia.
      * intros Hsmall Hbig. exfalso.
        rewrite (u32_small (len contents)) in Hw
          by (change (2 ^ 32) with 4294967296; lia).
        rewrite (u32_small (1 + n)) in Hw
          by (change (2 ^ 32) with 4294967296; lia).
        unfold u32 in Hw.
        replace (len contents - (1 + n) * 4)
          with (len contents - (1 + n) * 4 + 4294967296 + (-1) * 4294967296)
          in Hw by lia.
        change (2 ^ 32) with 4294967296 in Hw.
        rewrite Z.mod_add in Hw by lia.
        rewrite Z.mod_small in Hw by lia. lia.
Qed.

Lemma Block_Block_checks_restart_array_witness :
  exists n b,
    NumRestarts block_abc_def (len block_abc_def) = Some n /\
    Block_Block block_abc_def = Some b /\ b_data_ b = block_abc_def /\
    (n < 2 ^ 30 -> (1 + n) * 4 <= len block_abc_def ->
       b_size_ b = len block_abc_def /\
       b_restart_offset_ b = len block_abc_def - (1 + n) * 4) /\
    (n < 2 ^ 30 -> len block_abc_def < (1 + n) * 4 -> b_size_ b = 0).
Proof.
  apply (proj2 (Block_Block_checks_restart_array block_abc_def
                  ltac:(vm_compute; reflexivity))).
  vm_compute. intros H; discriminate H.
Defined.

(** ** Stepping through a well-formed block *)

Lemma run_ops_app : forall os1 os2 c,
  run_ops (os1 ++ os2) c = (c1 <- run_ops os1 c ;; run_ops os2 c1).
Proof.
  induction os1 as [|o os1 IH]; intros os2 c; simpl.
  - reflexivity.
  - destruct (run_op o c) as [c1|]; [apply IH|reflexivity].
Qed.

Lemma repeat_snoc : forall (A : Type) (x : A) n,
  repeat x (S n) = repeat x n ++ [x].
Proof.
  intros A x n. induction n as [|n IH]; simpl; [reflexivity|].
  simpl in IH. rewrite <- IH. reflexivity.
Qed.

Lemma Valid_at : forall c off R,
  current_ c = off -> restarts_ c = R -> off < R -> Valid c = true.
Proof.
  intros c off R Hc Hr Hlt. unfold Valid. rewrite Hc, Hr.
  apply Z.ltb_lt. exact Hlt.
Qed.

Section Stepping.

Variables (d : Bytes) (es : list Entry) (rs : list Z).
Hypothesis WF : well_formed d es rs.

Let R := restarts_of d rs.
Let nr := num_restarts_of rs.

(** An entry of the block lies in front of the restart array. *)
Lemma wf_entry_span : forall e,
  In e es ->
  0 <= e_off e /\ e_off e + 3 <= e_voff e + e_vlen e /\
  e_voff e + e_vlen e <= R.
Proof.
  intros e He. destruct (wf_offsets_sorted d es rs WF) as [_ Hspan].
  rewrite Forall_forall in Hspan. exact (Hspan e He).
Qed.

Lemma at_entry_Valid : forall c e,
  cursor_over d rs c -> In e es -> at_entry c e -> Valid c = true.
Proof.
  intros c e (_ & Hr & _) He (Hcur & _).
  pose proof (wf_entry_span e He).
  apply (Valid_at c (e_off e) R); auto. lia.
Qed.

Lemma at_end_invalidated : forall c, invalidated (at_end c).
Proof.
  intros c. split; [|split; reflexivity].
  unfold Valid. simpl. apply Z.ltb_irrefl.
Qed.

(** The cursor [SeekToRestartPoint(0)] leaves. *)
Let rewound (c : BlockIter) : BlockIter :=
  set_value (set_restart_index (set_key c []) 0) (SliceAt 0 0).

Lemma SeekToFirst_first : forall c e es',
  es = e :: es' -> cursor_over d rs c ->
  exists c',
    SeekToFirst c = Some c' /\ at_entry c' e /\ same_frame c c' /\
    status_ c' = status_ c /\ 0 <= restart_index_ c' < num_restarts_ c'.
Proof.
  intros c e es' Hes Hc.
  destruct (wf_bounds d es rs WF) as [HR Hnr]. fold R in HR. fold nr in Hnr.
  pose proof Hc as (Hd & Hr & Hn).
  pose proof (wf_entries _ _ _ WF) as Hall. rewrite Hes in Hall.
  destruct Hall as (Hlt & He & _).
  assert (Hc0 : cursor_over d rs (rewound c)) by exact Hc.
  destruct (ParseNextKey_entry d es rs WF (rewound c) 0 e Hc0)
    as (c' & Hparse & Hat & Hfr & Hst & Hri).
  { simpl. rewrite Hn. fold nr. lia. }
  { split; [|reflexivity]. exists 0, 0. split; [reflexivity|lia]. }
  { lia. }
  { exact He. }
  exists c'. split.
  - unfold SeekToFirst. rewrite Hd.
    rewrite (SeekToRestartPoint_wf d es rs WF c 0 0 Hc ltac:(lia)
               (wf_first_restart _ _ _ WF)).
    fold (rewound c). rewrite Hparse. reflexivity.
  - split; [exact Hat|]. split; [exact Hfr|]. split; [exact Hst|].
    simpl in Hri. lia.
Qed.

Lemma SeekToFirst_none : forall c,
  es = [] -> cursor_over d rs c ->
  exists c',
    SeekToFirst c = Some c' /\ invalidated c' /\ same_frame c c' /\
    status_ c' = status_ c.
Proof.
  intros c Hes Hc. pose proof Hc as (Hd & Hr & Hn).
  pose proof (wf_entries _ _ _ WF) as Hall. rewrite Hes in Hall.
  simpl in Hall. fold R in Hall.
  exists (at_end (set_current (rewound c) R)). split.
  - unfold SeekToFirst. rewrite Hd.
    rewrite (SeekToRestartPoint_wf d es rs WF c 0 0 Hc ltac:(lia)
               (wf_first_restart _ _ _ WF)).
    fold (rewound c).
    rewrite (ParseNextKey_end d es rs WF (rewound c) [] Hc).
    + reflexivity.
    + split; [|reflexivity]. exists 0, 0. split; [reflexivity|]. fold R. lia.
  - split; [apply at_end_invalidated|]. split; [repeat split|reflexivity].
Qed.

(** [Next] from an entry that has a successor. *)
Lemma Next_successor : forall c b e n after,
  es = b ++ e :: n :: after -> cursor_at d rs c e ->
  exists c',
    Next c = Some c' /\ at_entry c' n /\ same_frame c c' /\
    status_ c' = status_ c /\ 0 <= restart_index_ c' < num_restarts_ c'.
Proof.
  intros c b e n after Hes (Hc & Hat & Hri).
  destruct (wf_bounds d es rs WF) as [HR Hnr]. fold R in HR.
  pose proof (wf_entries _ _ _ WF) as Hall. fold R in Hall.
  rewrite Hes in Hall.
  destruct (entries_from_app d R (b ++ [e]) (n :: after) 0 [])
    as (off' & prev' & Hfrom & _ & Hsnoc).
  { rewrite <- app_assoc. exact Hall. }
  destruct (Hsnoc b e eq_refl) as [-> ->].
  destruct Hfrom as (Hlt & Hn_at & _).
  assert (He : In e es) by (rewrite Hes; apply in_elt).
  pose proof (wf_entry_span e He) as Hspan.
  pose proof Hat as (_ & Hkey & _). rewrite <- Hkey in Hn_at.
  destruct (ParseNextKey_entry d es rs WF c (e_voff e + e_vlen e) n Hc Hri)
    as (c' & Hparse & Hat' & Hfr & Hst & Hri').
  { destruct (at_entry_poised c e Hat) as [Hp _]. split; [exact Hp|reflexivity]. }
  { fold R. lia. }
  { exact Hn_at. }
  exists c'. split; [unfold Next; rewrite Hparse; reflexivity|].
  split; [exact Hat'|]. split; [exact Hfr|]. split; [exact Hst|lia].
Qed.

(** [Next] from the last entry. *)
Lemma Next_last : forall c b e,
  es = b ++ [e] -> cursor_at d rs c e ->
  exists c',
    Next c = Some c' /\ invalidated c' /\ same_frame c c' /\
    status_ c' = status_ c /\ key_ c' = key_ c /\ value_ c' = value_ c.
Proof.
  intros c b e Hes (Hc & Hat & Hri).
  pose proof (wf_entries _ _ _ WF) as Hall. fold R in Hall.
  rewrite Hes in Hall.
  destruct (entries_from_app d R (b ++ [e]) [] 0 [])
    as (off' & prev' & Hfrom & _ & Hsnoc).
  { rewrite app_nil_r. exact Hall. }
  destruct (Hsnoc b e eq_refl) as [-> ->]. simpl in Hfrom.
  exists (at_end (set_current c R)). split.
  - unfold Next.
    rewrite (ParseNextKey_end d es rs WF c (e_key e) Hc).
    + reflexivity.
    + fold R. rewrite <- Hfrom. apply at_entry_poised. exact Hat.
  - split; [apply at_end_invalidated|]. split; [repeat split|].
    split; [reflexivity|]. split; reflexivity.
Qed.

(** The walk of [SeekToLast] stops on the last entry. *)
Lemma SeekToLast_walk_spec : forall e s fuel c off,
  entries_from d R off (key_ c) (s ++ [e]) ->
  cursor_over d rs c ->
  0 <= restart_index_ c < num_restarts_ c ->
  poised c off (key_ c) ->
  0 <= off ->
  R - off < Z.of_nat fuel ->
  exists c',
    SeekToLast_walk fuel c = Some c' /\
    at_entry c' e /\ same_frame c c' /\ status_ c' = status_ c /\
    0 <= restart_index_ c' < num_restarts_ c'.
Proof.
  intros e.
  destruct (wf_bounds d es rs WF) as [HR Hnr]. fold R in HR.
  induction s as [|q s IH]; intros fuel c off Hes Hc Hri Hp Hoff Hfuel;
    simpl in Hes; destruct Hes as (Hlt & Hq_at & Hrest);
    (destruct fuel as [|fuel]; [simpl in Hfuel; lia|]); simpl.
  - simpl in Hrest.
    destruct (ParseNextKey_entry d es rs WF c off e Hc Hri Hp
                ltac:(fold R; lia) Hq_at)
      as (c' & -> & Hat & Hfr & Hst & Hri').
    assert (Hover : cursor_over d rs c') by (eapply cursor_over_frame; eauto).
    pose proof Hover as (Hd' & Hr' & _).
    pose proof Hat as (Hcur & Hkey & Hval).
    unfold NextEntryOffset. rewrite Hd', Hval, Hrest.
    rewrite u32_small by lia. rewrite Hr'. fold R. rewrite Z.ltb_irrefl.
    exists c'. split; [reflexivity|]. split; [exact Hat|].
    split; [exact Hfr|]. split; [exact Hst|lia].
  - destruct (ParseNextKey_entry d es rs WF c off q Hc Hri Hp
                ltac:(fold R; lia) Hq_at)
      as (c1 & -> & Hat & Hfr & Hst & Hri1).
    assert (Hover : cursor_over d rs c1) by (eapply cursor_over_frame; eauto).
    pose proof Hover as (Hd1 & Hr1 & _).
    pose proof (at_entry_poised c1 q Hat) as [Hp1 _].
    pose proof Hat as (Hcur & Hkey & Hval).
    destruct (entry_at_span d R off (key_ c) q Hoff ltac:(lia) Hq_at)
      as (Hqo & Hqv & Hqn & _).
    assert (Hmore : e_voff q + e_vlen q < R).
    { destruct (s ++ [e]) as [|x l] eqn:E; [destruct s; discriminate|].
      simpl in Hrest. lia. }
    unfold NextEntryOffset. rewrite Hd1, Hval.
    rewrite u32_small by lia. rewrite Hr1. fold R.
    replace (e_voff q + e_vlen q <? R) with true
      by (symmetry; apply Z.ltb_lt; exact Hmore).
    rewrite <- Hkey in Hrest.
    destruct (IH fuel c1 (e_voff q + e_vlen q) Hrest Hover ltac:(lia)
                ltac:(split; [exact Hp1|reflexivity]) ltac:(lia) ltac:(lia))
      as (c' & Hwalk & Hat' & Hfr' & Hst' & Hri').
    exists c'. split; [exact Hwalk|]. split; [exact Hat'|].
    split; [eapply same_frame_trans; eauto|]. split; [congruence|exact Hri'].
Qed.

Lemma SeekToLast_last : forall c b e,
  es = b ++ [e] -> cursor_over d rs c ->
  exists c',
    SeekToLast c = Some c' /\ at_entry c' e /\ same_frame c c' /\
    status_ c' = status_ c /\ 0 <= restart_index_ c' < num_restarts_ c'.
Proof.
  intros c b e Hes Hc.
  destruct (wf_bounds d es rs WF) as [HR Hnr]. fold R in HR. fold nr in Hnr.
  pose proof Hc as (Hd & Hr & Hn). fold nr in Hn.
  destruct (restart_nth rs (nr - 1)) as [r Hnth]; [fold nr; lia|].
  assert (Hne : es <> []) by (rewrite Hes; destruct b; discriminate).
  destruct (wf_restart_entries_from d es rs WF r (nth_error_In _ _ Hnth) Hne)
    as (b1 & er & a1 & Hes1 & Her & Hsh & Hfrom).
  fold R in Hfrom.
  assert (Hs : exists s, er :: a1 = s ++ [e]).
  { rewrite Hes in Hes1. exact (snoc_suffix _ _ _ _ _ _ Hes1). }
  destruct Hs as [s Hs]. rewrite Hs in Hfrom.
  set (c0 := set_value (set_restart_index (set_key c []) (nr - 1)) (SliceAt r 0)).
  assert (Hc0 : cursor_over d rs c0) by exact Hc.
  assert (Hr0 : 0 <= r).
  { pose proof (wf_entry_span er ltac:(rewrite Hes1; apply in_elt)). lia. }
  destruct (SeekToLast_walk_spec e s (Z.to_nat (restarts_ c0) + 2) c0 r)
    as (c' & Hwalk & Hat & Hfr & Hst & Hri); auto.
  { simpl. rewrite Hn. lia. }
  { split; [|reflexivity]. exists r, 0. split; [reflexivity|lia]. }
  { change (restarts_ c0) with (restarts_ c). rewrite Hr. fold R. lia. }
  exists c'. split.
  - unfold SeekToLast. rewrite Hd, Hn.
    rewrite (u32_small (nr - 1)) by lia.
    rewrite (SeekToRestartPoint_wf d es rs WF c (nr - 1) r Hc ltac:(lia) Hnth).
    exact Hwalk.
  - split; [exact Hat|]. split; [exact Hfr|]. split; [exact Hst|exact Hri].
Qed.

Lemma SeekToLast_none : forall c,
  es = [] -> cursor_over d rs c ->
  exists c',
    SeekToLast c = Some c' /\ invalidated c' /\ same_frame c c' /\
    status_ c' = status_ c.
Proof.
  intros c Hes Hc.
  destruct (wf_bounds d es rs WF) as [HR Hnr]. fold R in HR. fold nr in Hnr.
  pose proof Hc as (Hd & Hr & Hn). fold nr in Hn.
  pose proof (wf_entries _ _ _ WF) as Hall. rewrite Hes in Hall.
  simpl in Hall. fold R in Hall.
  destruct (restart_nth rs (nr - 1)) as [r Hnth]; [fold nr; lia|].
  assert (Hr0 : r = 0).
  { destruct (wf_restart_entries _ _ _ WF r (nth_error_In _ _ Hnth))
      as [[-> _]|(e & He & _)]; [reflexivity|].
    rewrite Hes in He. contradiction. }
  subst r.
  set (c0 := set_value (set_restart_index (set_key c []) (nr - 1)) (SliceAt 0 0)).
  exists (at_end (set_current c0 R)). split.
  - unfold SeekToLast. rewrite Hd, Hn.
    rewrite (u32_small (nr - 1)) by lia.
    rewrite (SeekToRestartPoint_wf d es rs WF c (nr - 1) 0 Hc ltac:(lia) Hnth).
    fold c0. change (restarts_ c0) with (restarts_ c).
    replace (Z.to_nat (restarts_ c) + 2)%nat
      with (S (Z.to_nat (restarts_ c) + 1)) by lia.
    simpl.
    rewrite (ParseNextKey_end d es rs WF c0 [] Hc).
    + reflexivity.
    + split; [|reflexivity]. exists 0, 0. split; [reflexivity|]. fold R. lia.
  - split; [apply at_end_invalidated|]. split; [repeat split|reflexivity].
Qed.

(** [Prev] from the first entry. *)
Lemma Prev_first : forall c e after,
  es = e :: after -> cursor_at d rs c e ->
  exists c',
    Prev c = Some c' /\ invalidated c' /\ same_frame c c' /\
    status_ c' = status_ c /\ key_ c' = key_ c /\ value_ c' = value_ c.
Proof.
  intros c e after Hes (Hc & Hat & Hri).
  destruct (wf_bounds d es rs WF) as [HR Hnr].
  pose proof (wf_entries _ _ _ WF) as Hall. rewrite Hes in Hall.
  destruct Hall as (_ & He & _).
  destruct (entry_at_span d (restarts_of d rs) 0 [] e ltac:(lia) ltac:(lia) He)
    as (H0 & _).
  destruct Hat as (Hcur & _).
  exists (at_end c). split.
  - unfold Prev. rewrite Hcur, H0.
    rewrite (Prev_rewind_first d es rs WF); auto. lia.
  - split; [apply at_end_invalidated|]. split; [repeat split|].
    split; [reflexivity|]. split; reflexivity.
Qed.

(** [Prev] from an entry that has a predecessor. *)
Lemma Prev_predecessor : forall c b p e after,
  es = b ++ p :: e :: after -> cursor_at d rs c e ->
  exists c',
    Prev c = Some c' /\ at_entry c' p /\ same_frame c c' /\
    status_ c' = status_ c /\ 0 <= restart_index_ c' < num_restarts_ c'.
Proof.
  intros c b p e after Hes (Hc & Hat & Hri).
  destruct (wf_bounds d es rs WF) as [HR Hnr]. fold R in HR.
  destruct (wf_offsets_sorted d es rs WF) as [Hsorted _].
  pose proof Hc as (Hd & Hr & Hn).
  pose proof Hat as (Hcur & Hkey & Hval).
  assert (Hp_in : In p es) by (rewrite Hes; apply in_elt).
  assert (He_in : In e es)
    by (rewrite Hes; apply in_or_app; right; right; left; reflexivity).
  pose proof (wf_entry_span p Hp_in) as Hpspan.
  pose proof (wf_entry_span e He_in) as Hespan.
  assert (Hplt : e_off p < e_off e).
  { clear - Hsorted Hes. rewrite Hes in Hsorted. clear Hes.
    induction b as [|x b IHb]; simpl in Hsorted.
    - inversion Hsorted as [|? ? _ Hf]; subst.
      rewrite Forall_forall in Hf. apply Hf. left. reflexivity.
    - inversion Hsorted; subst. auto. }
  destruct (Prev_rewind_back d es rs WF (Z.to_nat (restart_index_ c) + 1) c
              (e_off e) Hc Hri ltac:(lia) ltac:(lia))
    as (ri' & r & Hrew & Hri' & Hnth & Hrlt).
  assert (Hne : es <> []) by (rewrite Hes; destruct b; discriminate).
  destruct (wf_restart_entries_from d es rs WF r (nth_error_In _ _ Hnth) Hne)
    as (b1 & er & a1 & Hes1 & Her & Hsh & Hfrom).
  fold R in Hfrom.
  assert (Hes' : es = (b ++ [p]) ++ e :: after)
    by (rewrite Hes, <- app_assoc; reflexivity).
  destruct (split_before Entry e_off es b1 a1 (b ++ [p]) after er e
              Hsorted Hes1 Hes' ltac:(lia)) as [m Hm].
  destruct (snoc_suffix _ _ _ _ _ _ Hm) as [s Hs].
  assert (Ha1 : er :: a1 = s ++ p :: e :: after).
  { rewrite Hes1 in Hes'. rewrite Hm in Hes'. rewrite <- app_assoc in Hes'.
    apply app_inv_head in Hes'. rewrite Hes', Hs.
    rewrite <- app_assoc. reflexivity. }
  rewrite Ha1 in Hfrom.
  set (c0 := set_value (set_restart_index
               (set_key (set_restart_index c ri') []) ri') (SliceAt r 0)).
  assert (Hc0 : cursor_over d rs c0) by exact Hc.
  assert (Hr0 : 0 <= r).
  { pose proof (wf_entry_span er ltac:(rewrite Hes1; apply in_elt)). lia. }
  destruct (Prev_walk_spec d es rs WF e after p s
              (Z.to_nat (restarts_ c0) + 2) c0 r)
    as (c1 & Hwalk & Hat1 & Hfr1 & Hst1 & Hri1); auto.
  { simpl. lia. }
  { split; [|reflexivity]. exists r, 0. split; [reflexivity|lia]. }
  { change (restarts_ c0) with (restarts_ c). rewrite Hr. fold R. lia. }
  exists c1. split.
  { unfold Prev. rewrite Hcur, Hrew.
    change (restart_index_ (set_restart_index c ri')) with ri'.
    rewrite (SeekToRestartPoint_wf d es rs WF (set_restart_index c ri') ri' r
               Hc (proj1 Hri') Hnth).
    exact Hwalk. }
  split; [exact Hat1|]. split; [exact Hfr1|].
  split; [exact Hst1|exact Hri1].
Qed.

(** Walking forward from the first entry. *)
Lemma forward_to : forall c before e after,
  es = before ++ e :: after -> cursor_over d rs c ->
  exists c',
    run_ops (OpSeekToFirst :: repeat OpNext (List.length before)) c = Some c' /\
    cursor_at d rs c' e /\ status_ c' = status_ c.
Proof.
  intros c before. induction before as [|p b IH] using rev_ind;
    intros e after Hes Hc.
  - destruct (SeekToFirst_first c e after Hes Hc)
      as (c' & Hseek & Hat & Hfr & Hst & Hri).
    exists c'. simpl. rewrite Hseek.
    split; [reflexivity|]. split; [|exact Hst].
    split; [eapply cursor_over_frame; eauto|]. split; assumption.
  - rewrite <- app_assoc in Hes. simpl in Hes.
    destruct (IH p (e :: after) Hes Hc) as (c1 & Hrun & Hat1 & Hst1).
    destruct (Next_successor c1 b p e after Hes Hat1)
      as (c' & Hnext & Hat & Hfr & Hst & Hri).
    exists c'. rewrite length_app. simpl List.length.
    rewrite Nat.add_1_r, repeat_snoc.
    change (OpSeekToFirst :: repeat OpNext (List.length b) ++ [OpNext])
      with ((OpSeekToFirst :: repeat OpNext (List.length b)) ++ [OpNext]).
    rewrite run_ops_app, Hrun. simpl. rewrite Hnext.
    split; [reflexivity|]. split; [|congruence].
    destruct Hat1 as (Hc1 & _).
    split; [eapply cursor_over_frame; eauto|]. split; assumption.
Qed.

(** Walking backwards from the last entry. *)
Lemma backward_to : forall c after before e,
  es = before ++ e :: after -> cursor_over d rs c ->
  exists c',
    run_ops (OpSeekToLast :: repeat OpPrev (List.length after)) c = Some c' /\
    cursor_at d rs c' e /\ status_ c' = status_ c.
Proof.
  intros c after. induction after as [|a after IH]; intros before e Hes Hc.
  - destruct (SeekToLast_last c before e Hes Hc)
      as (c' & Hseek & Hat & Hfr & Hst & Hri).
    exists c'. simpl. rewrite Hseek.
    split; [reflexivity|]. split; [|exact Hst].
    split; [eapply cursor_over_frame; eauto|]. split; assumption.
  - assert (Hes' : es = (before ++ [e]) ++ a :: after)
      by (rewrite Hes, <- app_assoc; reflexivity).
    destruct (IH (before ++ [e]) a Hes' Hc) as (c1 & Hrun & Hat1 & Hst1).
    destruct (Prev_predecessor c1 before e a after Hes Hat1)
      as (c' & Hprev & Hat & Hfr & Hst & Hri).
    exists c'. simpl List.length. rewrite repeat_snoc.
    change (OpSeekToLast :: repeat OpPrev (List.length after) ++ [OpPrev])
      with ((OpSeekToLast :: repeat OpPrev (List.length after)) ++ [OpPrev]).
    rewrite run_ops_app, Hrun. simpl. rewrite Hprev.
    split; [reflexivity|]. split; [|congruence].
    destruct Hat1 as (Hc1 & _).
    split; [eapply cursor_over_frame; eauto|]. split; assumption.
Qed.

End Stepping.

(** ** Iterating over a well-formed block *)

Lemma nil_or_snoc : forall (A : Type) (l : list A),
  l = [] \/ exists b x, l = b ++ [x].
Proof.
  intros A l. destruct l as [|a l]; [left; reflexivity|right].
  destruct (exists_last (l := a :: l)) as (b & x & H); [discriminate|].
  exists b, x. exact H.
Qed.

(** X5.  On a well-formed block [SeekToFirst] returns, whatever the state
    of the cursor before, and leaves the status as it was (a corruption
    status included).  On a block with entries the cursor is valid at the
    first one; on the empty block it is invalid, at the end marker. *)
Theorem SeekToFirst_lands_on_first_entry :
  forall (d : Bytes) (es : list Entry) (rs : list Z) (c : BlockIter),
    well_formed d es rs ->
    cursor_over d rs c ->
    exists c',
      SeekToFirst c = Some c' /\ status_ c' = status_ c /\
      match es with
      | [] => invalidated c'
      | e :: _ => Valid c' = true /\ at_entry c' e
      end.
Proof.
  intros d es rs c WF Hc. destruct es as [|e es'] eqn:Hes.
  - destruct (SeekToFirst_none d [] rs WF c eq_refl Hc)
      as (c' & Hseek & Hinv & _ & Hst).
    exists c'. auto.
  - destruct (SeekToFirst_first d _ rs WF c e es' eq_refl Hc)
      as (c' & Hseek & Hat & Hfr & Hst & _).
    exists c'. split; [exact Hseek|]. split; [exact Hst|].
    split; [|exact Hat].
    apply (at_entry_Valid d _ rs WF c' e);
      [eapply cursor_over_frame; eauto|left; reflexivity|exact Hat].
Qed.

Lemma SeekToFirst_lands_on_first_entry_witness :
  exists c',
    SeekToFirst cursor_abc_def_at_def = Some c' /\
    status_ c' = status_ cursor_abc_def_at_def /\
    Valid c' = true /\
    at_entry c' (mkEntry 0 0 (bytes_of [97; 98; 99]%N) 6 1).
Proof.
  apply (SeekToFirst_lands_on_first_entry block_abc_def entries_abc_def
           [0; 7] cursor_abc_def_at_def well_formed_abc_def).
  repeat split.
Defined.

(** X6.  On a well-formed block [SeekToLast] returns and leaves the status
    as it was; the cursor is valid at the last entry, or invalid at the
    end marker when the block has no entries. *)
Theorem SeekToLast_lands_on_last_entry :
  forall (d : Bytes) (es : list Entry) (rs : list Z) (c : BlockIter),
    well_formed d es rs ->
    cursor_over d rs c ->
    exists c',
      SeekToLast c = Some c' /\ status_ c' = status_ c /\
      (es = [] -> invalidated c') /\
      (forall b e, es = b ++ [e] -> Valid c' = true /\ at_entry c' e).
Proof.
  intros d es rs c WF Hc.
  destruct (nil_or_snoc _ es) as [Hes|(b & e & Hes)]; [rename Hes into Hnil|].
  2: {
    destruct (SeekToLast_last d es rs WF c b e Hes Hc)
      as (c' & Hseek & Hat & Hfr & Hst & _).
    exists c'. split; [exact Hseek|]. split; [exact Hst|]. split.
    + intros ->. destruct b; discriminate.
    + intros b' e' Hes'. rewrite Hes in Hes'.
      apply app_inj_tail in Hes'. destruct Hes' as [_ <-].
      split; [|exact Hat].
      apply (at_entry_Valid d es rs WF c' e);
        [eapply cursor_over_frame; eauto|rewrite Hes; apply in_elt|exact Hat]. }
  - destruct (SeekToLast_none d es rs WF c Hnil Hc)
      as (c' & Hseek & Hinv & _ & Hst).
    exists c'. split; [exact Hseek|]. split; [exact Hst|]. split.
    + intros _. exact Hinv.
    + intros b e Hes'. rewrite Hnil in Hes'. destruct b; discriminate.
Qed.

Lemma SeekToLast_lands_on_last_entry_witness :
  exists c',
    SeekToLast cursor_abc_def = Some c' /\
    status_ c' = status_ cursor_abc_def /\
    (entries_abc_def = [] -> invalidated c') /\
    (forall b e, entries_abc_def = b ++ [e] -> Valid c' = true /\ at_entry c' e).
Proof.
  apply (SeekToLast_lands_on_last_entry block_abc_def entries_abc_def
           [0; 7] cursor_abc_def well_formed_abc_def).
  repeat split.
Defined.

(** X7.  [Next] on a cursor that is valid at an entry of a well-formed
    block moves to the entry that follows, whose key is rebuilt from the
    key of the entry left; from the last entry it leaves the cursor invalid
    at the end marker.  The status is not touched. *)
Theorem Next_moves_to_following_entry :
  forall (d : Bytes) (es : list Entry) (rs : list Z)
         (before after : list Entry) (e : Entry) (c : BlockIter),
    well_formed d es rs ->
    es = before ++ e :: after ->
    cursor_at d rs c e ->
    exists c',
      Next c = Some c' /\ status_ c' = status_ c /\
      match after with
      | [] => invalidated c'
      | n :: _ => Valid c' = true /\ at_entry c' n
      end.
Proof.
  intros d es rs before after e c WF Hes Hat.
  destruct after as [|n after].
  - destruct (Next_last d es rs WF c before e Hes Hat)
      as (c' & Hnext & Hinv & _ & Hst & _).
    exists c'. auto.
  - destruct (Next_successor d es rs WF c before e n after Hes Hat)
      as (c' & Hnext & Hat' & Hfr & Hst & _).
    exists c'. split; [exact Hnext|]. split; [exact Hst|].
    split; [|exact Hat'].
    destruct Hat as (Hc & _).
    apply (at_entry_Valid d es rs WF c' n);
      [eapply cursor_over_frame; eauto| |exact Hat'].
    rewrite Hes. apply in_or_app. right. right. left. reflexivity.
Qed.

Lemma Next_moves_to_following_entry_witness :
  exists c',
    Next cursor_abc_def_at_abc = Some c' /\
    status_ c' = status_ cursor_abc_def_at_abc /\
    Valid c' = true /\
    at_entry c' (mkEntry 7 0 (bytes_of [100; 101; 102]%N) 13 1).
Proof.
  apply (Next_moves_to_following_entry block_abc_def entries_abc_def [0; 7]
           [] [mkEntry 7 0 (bytes_of [100; 101; 102]%N) 13 1]
           (mkEntry 0 0 (bytes_of [97; 98; 99]%N) 6 1)
           cursor_abc_def_at_abc well_formed_abc_def eq_refl).
  split; [repeat split|]. split; [repeat split|]. crunch.
Defined.

(** X8.  A forward scan reads the block in order and in full:
    [SeekToFirst] followed by k calls of [Next] leaves the cursor valid at
    the entry of index k, for every k below the number of entries, and
    after as many calls of [Next] as there are entries the cursor is
    invalid.  The status stays as it was. *)
Theorem forward_scan_reads_every_entry :
  forall (d : Bytes) (es : list Entry) (rs : list Z) (c : BlockIter),
    well_formed d es rs ->
    cursor_over d rs c ->
    (forall before e after,
       es = before ++ e :: after ->
       exists c',
         run_ops (OpSeekToFirst :: repeat OpNext (List.length before)) c
         = Some c' /\
         Valid c' = true /\ at_entry c' e /\ status_ c' = status_ c) /\
    (exists c',
       run_ops (OpSeekToFirst :: repeat OpNext (List.length es)) c = Some c' /\
       invalidated c' /\ status_ c' = status_ c).
Proof.
  intros d es rs c WF Hc. split.
  - intros before e after Hes.
    destruct (forward_to d es rs WF c before e after Hes Hc)
      as (c' & Hrun & (Hc' & Hat & _) & Hst).
    exists c'. split; [exact Hrun|]. split; [|split; assumption].
    apply (at_entry_Valid d es rs WF c' e); auto.
    rewrite Hes. apply in_elt.
  - destruct (nil_or_snoc _ es) as [Hes|(b & e & Hes)].
    + destruct (SeekToFirst_none d es rs WF c Hes Hc)
        as (c' & Hseek & Hinv & _ & Hst).
      exists c'. rewrite Hes at 1. simpl. rewrite Hseek. auto.
    + destruct (forward_to d es rs WF c b e [] Hes Hc)
        as (c1 & Hrun & Hat1 & Hst1).
      destruct (Next_last d es rs WF c1 b e Hes Hat1)
        as (c' & Hnext & Hinv & _ & Hst & _).
      exists c'. rewrite Hes at 1. rewrite length_app. simpl List.length.
      rewrite Nat.add_1_r, repeat_snoc.
      change (OpSeekToFirst :: repeat OpNext (List.length b) ++ [OpNext])
        with ((OpSeekToFirst :: repeat OpNext (List.length b)) ++ [OpNext]).
      rewrite run_ops_app, Hrun. simpl. rewrite Hnext.
      split; [reflexivity|]. split; [exact Hinv|congruence].
Qed.

Lemma forward_scan_reads_every_entry_witness :
  exists c',
    run_ops [OpSeekToFirst; OpNext] cursor_abc_def = Some c' /\
    Valid c' = true /\
    at_entry c' (mkEntry 7 0 (bytes_of [100; 101; 102]%N) 13 1) /\
    status_ c' = status_ cursor_abc_def.
Proof.
  apply (proj1 (forward_scan_reads_every_entry block_abc_def entries_abc_def
                  [0; 7] cursor_abc_def well_formed_abc_def
                  ltac:(repeat split))
           [mkEntry 0 0 (bytes_of [97; 98; 99]%N) 6 1]
           (mkEntry 7 0 (bytes_of [100; 101; 102]%N) 13 1) []).
  reflexivity.
Defined.

(** X9.  A backward scan reads the block in reverse order and in full:
    [SeekToLast] followed by k calls of [Prev] leaves the cursor valid at
    the entry that has k entries behind it, and after as many calls of
    [Prev] as there are entries the cursor is invalid.  The status stays
    as it was. *)
Theorem backward_scan_reads_every_entry :
  forall (d : Bytes) (es : list Entry) (rs : list Z) (c : BlockIter),
    well_formed d es rs ->
    cursor_over d rs c ->
    (forall before e after,
       es = before ++ e :: after ->
       exists c',
         run_ops (OpSeekToLast :: repeat OpPrev (List.length after)) c
         = Some c' /\
         Valid c' = true /\ at_entry c' e /\ status_ c' = status_ c) /\
    (exists c',
       run_ops (OpSeekToLast :: repeat OpPrev (List.length es)) c = Some c' /\
       invalidated c' /\ status_ c' = status_ c).
Proof.
  intros d es rs c WF Hc. split.
  - intros before e after Hes.
    destruct (backward_to d es rs WF c after before e Hes Hc)
      as (c' & Hrun & (Hc' & Hat & _) & Hst).
    exists c'. split; [exact Hrun|]. split; [|split; assumption].
    apply (at_entry_Valid d es rs WF c' e); auto.
    rewrite Hes. apply in_elt.
  - destruct es as [|e after] eqn:Hes.
    + destruct (SeekToLast_none d [] rs WF c eq_refl Hc)
        as (c' & Hseek & Hinv & _ & Hst).
      exists c'. simpl. rewrite Hseek. auto.
    + destruct (backward_to d _ rs WF c after [] e eq_refl Hc)
        as (c1 & Hrun & Hat1 & Hst1).
      destruct (Prev_first d _ rs WF c1 e after eq_refl Hat1)
        as (c' & Hprev & Hinv & _ & Hst & _).
      exists c'. simpl List.length. rewrite repeat_snoc.
      change (OpSeekToLast :: repeat OpPrev (List.length after) ++ [OpPrev])
        with ((OpSeekToLast :: repeat OpPrev (List.length after)) ++ [OpPrev]).
      rewrite run_ops_app, Hrun. simpl. rewrite Hprev.
      split; [reflexivity|]. split; [exact Hinv|congruence].
Qed.

Lemma backward_scan_reads_every_entry_witness :
  exists c',
    run_ops [OpSeekToLast; OpPrev] cursor_abc_def = Some c' /\
    Valid c' = true /\
    at_entry c' (mkEntry 0 0 (bytes_of [97; 98; 99]%N) 6 1) /\
    status_ c' = status_ cursor_abc_def.
Proof.
  apply (proj1 (backward_scan_reads_every_entry block_abc_def entries_abc_def
                  [0; 7] cursor_abc_def well_formed_abc_def
                  ltac:(repeat split))
           [] (mkEntry 0 0 (bytes_of [97; 98; 99]%N) 6 1)
           [mkEntry 7 0 (bytes_of [100; 101; 102]%N) 13 1]).
  reflexivity.
Defined.

(** ** Where a seek lands *)

Lemma cmp_refl_le : forall cmp, total_order cmp -> forall a, cmp a a <= 0.
Proof.
  intros cmp [Hswap _] a.
  destruct (Z_lt_le_dec 0 (cmp a a)) as [H|H]; [|exact H].
  pose proof (proj2 (Hswap a a) H). lia.
Qed.

Lemma cmp_ge_swap : forall cmp, total_order cmp ->
  forall a b, 0 <= cmp a b -> cmp b a <= 0.
Proof.
  intros cmp [Hswap _] a b H.
  destruct (Z_lt_le_dec 0 (cmp b a)) as [H1|H1]; [|exact H1].
  apply Hswap in H1. lia.
Qed.

Lemma cmp_le_lt_trans : forall cmp, total_order cmp ->
  forall a b c, cmp a b <= 0 -> cmp b c < 0 -> cmp a c < 0.
Proof.
  intros cmp ORD a b c Hab Hbc.
  destruct (Z_lt_le_dec (cmp a c) 0) as [H|H]; [exact H|].
  pose proof (cmp_ge_swap cmp ORD a c H) as Hca.
  pose proof (cmp_trans cmp ORD c a b Hca Hab) as Hcb.
  apply (cmp_swap cmp ORD) in Hbc. lia.
Qed.

Lemma sorted_nth_le : forall (l : list Z) (i j : nat) (a b : Z),
  StronglySorted Z.lt l -> (i <= j)%nat ->
  nth_error l i = Some a -> nth_error l j = Some b -> a <= b.
Proof.
  intros l i j a b Hs. revert i j.
  induction Hs as [|x l Hs IH Hall]; intros i j Hij Ha Hb.
  - destruct i; discriminate.
  - destruct i as [|i]; destruct j as [|j]; simpl in Ha, Hb.
    + injection Ha as <-. injection Hb as <-. lia.
    + injection Ha as <-. rewrite Forall_forall in Hall.
      pose proof (Hall b (nth_error_In _ _ Hb)). lia.
    + lia.
    + apply (IH i j); [lia|exact Ha|exact Hb].
Qed.

Lemma sorted_app_left : forall (A : Type) (R : A -> A -> Prop) l1 x l2,
  StronglySorted R (l1 ++ x :: l2) -> Forall (fun y => R y x) l1.
Proof.
  intros A R l1 x l2. induction l1 as [|a l1 IH]; simpl; intros H.
  - constructor.
  - inversion H as [|? ? Hs Hall]; subst. constructor.
    + rewrite Forall_forall in Hall. apply Hall. apply in_elt.
    + apply IH. exact Hs.
Qed.

Lemma sorted_app_right : forall (A : Type) (R : A -> A -> Prop) l1 x l2,
  StronglySorted R (l1 ++ x :: l2) -> Forall (fun y => R x y) l2.
Proof.
  intros A R l1 x l2. induction l1 as [|a l1 IH]; simpl; intros H.
  - inversion H; subst. assumption.
  - inversion H; subst. apply IH. assumption.
Qed.

(** A successful parse keeps the restart index inside the restart array. *)
Lemma ParseNextKey_restart_index_range : forall c c',
  ParseNextKey c = Some (c', true) ->
  0 <= restart_index_ c < num_restarts_ c -> num_restarts_ c < 2 ^ 32 ->
  0 <= restart_index_ c' < num_restarts_ c' /\
  num_restarts_ c' = num_restarts_ c.
Proof.
  intros c c' H Hri Hnr. apply ParseNextKey_true in H.
  destruct H as (d & off & h & delta & _ & _ & _ & _ & _ & _ & Hadv).
  apply advance_restart_index_spec in Hadv; [|exact Hri|exact Hnr].
  destruct Hadv as (ri' & -> & Hrange & _). simpl in *. lia.
Qed.

Lemma Seek_scan_restart_index_range : forall fuel c target c',
  Seek_scan fuel c target = Some c' ->
  0 <= restart_index_ c < num_restarts_ c -> num_restarts_ c < 2 ^ 32 ->
  Valid c' = true ->
  0 <= restart_index_ c' < num_restarts_ c'.
Proof.
  induction fuel as [|fuel IH]; intros c target c' H Hri Hnr Hv;
    [discriminate|].
  simpl in H.
  destruct (ParseNextKey c) as [[c1 ok]|] eqn:Hp; [|discriminate].
  destruct ok; simpl in H.
  - destruct (ParseNextKey_restart_index_range c c1 Hp Hri Hnr) as [Hri1 Hn1].
    destruct (Compare c1 (key_ c1) target) as [v|]; [|discriminate].
    destruct (0 <=? v).
    + injection H as <-. exact Hri1.
    + apply (IH c1 target c' H Hri1); [lia|exact Hv].
  - injection H as <-.
    apply ParseNextKey_false_invalid in Hp. congruence.
Qed.

Section Scan.

Variables (cmp : Comparator) (d : Bytes) (es : list Entry) (rs : list Z).
Hypothesis WF : well_formed d es rs.

Let R := restarts_of d rs.
Let nr := num_restarts_of rs.

(** The scan that follows the choice of a restart index: it starts at the
    entry of that restart point and stops at the first entry from there
    whose key is not below the target. *)
Lemma Seek_from_spec : forall c target index,
  cursor_over d rs c -> comparator_ c = Some cmp ->
  0 <= index < nr ->
  exists c' b1 l r,
    nth_error rs (Z.to_nat index) = Some r /\
    es = b1 ++ l /\
    Forall (fun x => e_off x < r) b1 /\
    (l = [] -> es = []) /\
    (forall er l', l = er :: l' -> e_off er = r) /\
    Seek_from c target index = Some c' /\
    same_frame c c' /\ status_ c' = status_ c /\
    (Valid c' = true -> 0 <= restart_index_ c' < num_restarts_ c') /\
    ((exists l1 e l2,
        l = l1 ++ e :: l2 /\ Forall (below cmp target) l1 /\
        0 <= cmp (e_key e) target /\ at_entry c' e) \/
     (Forall (below cmp target) l /\ invalidated c')).
Proof.
  intros c target index Hc Hcmp Hindex.
  destruct (wf_bounds d es rs WF) as [HR Hnr]. fold R in HR. fold nr in Hnr.
  pose proof Hc as (Hd & Hr & Hn). fold R in Hr. fold nr in Hn.
  destruct (wf_offsets_sorted d es rs WF) as [Hsorted Hspan].
  destruct (restart_nth rs index ltac:(fold nr; lia)) as [r Hnth].
  pose proof (nth_error_In _ _ Hnth) as Hin.
  set (c0 := set_value (set_restart_index (set_key c []) index) (SliceAt r 0)).
  assert (Hc0 : cursor_over d rs c0) by exact Hc.
  assert (Hl : exists b1 l,
             es = b1 ++ l /\ entries_from d R r [] l /\ 0 <= r /\
             Forall (fun x => e_off x < r) b1 /\
             (l = [] -> es = []) /\
             forall er l', l = er :: l' -> e_off er = r).
  { destruct es as [|e0 es0] eqn:Ees.
    - exists [], []. split; [reflexivity|].
      destruct (wf_restart_entries _ _ _ WF r Hin) as [[-> _]|(e & [] & _)].
      split; [exact (wf_entries _ _ _ WF)|]. split; [lia|].
      split; [constructor|]. split; [reflexivity|discriminate].
    - destruct (wf_restart_entries_from d _ rs WF r Hin ltac:(discriminate))
        as (b1 & er & a1 & Hes & Her & _ & Hfrom).
      exists b1, (er :: a1). split; [exact Hes|]. split; [exact Hfrom|].
      split.
      { rewrite Forall_forall in Hspan.
        pose proof (Hspan er ltac:(rewrite Hes; apply in_elt)). lia. }
      split.
      { rewrite Hes in Hsorted. apply sorted_app_left in Hsorted.
        rewrite Her in Hsorted. exact Hsorted. }
      split; [discriminate|].
      intros ? ? [= <- <-]. exact Her. }
  destruct Hl as (b1 & l & Hes & Hfrom & Hr0 & Hb1 & Hnil & Hhead).
  destruct (Seek_scan_spec cmp d es rs WF target l
              (Z.to_nat (restarts_ c0) + 2) c0 r Hfrom Hc0 Hcmp)
    as (c' & Hscan & Hfr & Hst & Hres).
  { simpl. rewrite Hn. exact Hindex. }
  { split; [|reflexivity]. exists r, 0. split; [reflexivity|lia]. }
  { exact Hr0. }
  { change (restarts_ c0) with (restarts_ c). rewrite Hr. lia. }
  assert (Hc' : cursor_over d rs c') by (eapply cursor_over_frame; eauto).
  exists c', b1, l, r.
  split; [exact Hnth|]. split; [exact Hes|]. split; [exact Hb1|].
  split; [exact Hnil|]. split; [exact Hhead|].
  split.
  { unfold Seek_from.
    rewrite (SeekToRestartPoint_wf d es rs WF c index r Hc (proj1 Hindex) Hnth).
    exact Hscan. }
  split; [exact Hfr|]. split; [exact Hst|].
  split.
  { intros Hv.
    apply (Seek_scan_restart_index_range _ c0 target c' Hscan); [| |exact Hv].
    - simpl. rewrite Hn. exact Hindex.
    - change (num_restarts_ c0) with (num_restarts_ c). rewrite Hn. lia. }
  destruct Hres as [Hfound|(Hall & Hcur & Hri)].
  - left. exact Hfound.
  - right. split; [exact Hall|].
    destruct Hc' as (_ & Hr' & Hn').
    split; [|split; [rewrite Hcur, Hr'|rewrite Hri, Hn']; reflexivity].
    unfold Valid. rewrite Hcur, Hr'. apply Z.ltb_irrefl.
Qed.

End Scan.

Section Lookup.

Variables (cmp : Comparator) (d : Bytes) (es : list Entry) (rs : list Z).
Hypothesis ORD : total_order cmp.
Hypothesis WF : well_formed d es rs.
Hypothesis ASC : keys_ascending cmp es.
Hypothesis STR : restart_keys_strict cmp es rs.

Let R := restarts_of d rs.
Let nr := num_restarts_of rs.

(** The entries in front of a restart point have keys below its key. *)
Lemma keys_below_restart_key : forall b1 er a1,
  es = b1 ++ er :: a1 -> In (e_off er) rs ->
  Forall (fun x => cmp (e_key x) (e_key er) < 0) b1.
Proof.
  intros b1 er a1 Hes Hin.
  destruct (nil_or_snoc _ b1) as [->|(b & p & ->)]; [constructor|].
  rewrite <- app_assoc in Hes. simpl in Hes.
  assert (Hp : cmp (e_key p) (e_key er) < 0) by exact (STR b p er a1 Hes Hin).
  apply Forall_app. split; [|constructor; [exact Hp|constructor]].
  unfold keys_ascending in ASC. rewrite Hes in ASC.
  apply sorted_app_left in ASC.
  eapply Forall_impl; [|exact ASC]. simpl. intros x Hx.
  eapply cmp_le_lt_trans; eauto.
Qed.

(** The keys at the restart points increase strictly. *)
Lemma restart_keys_increase : forall i j a b,
  i < j -> restart_entry es rs i a -> restart_entry es rs j b ->
  cmp (e_key a) (e_key b) < 0.
Proof.
  intros i j a b Hij (Hi & ra & Hna & Hia & Hoa) (Hj & rb & Hnb & Hib & Hob).
  destruct (wf_offsets_sorted d es rs WF) as [Hsorted _].
  assert (Hlt : ra < rb).
  { eapply StronglySorted_nth_lt;
      [exact (wf_restarts_ascending _ _ _ WF)| |exact Hna|exact Hnb]. lia. }
  destruct (in_split _ _ Hib) as (b1 & a1 & Hes).
  pose proof (keys_below_restart_key b1 b a1 Hes
                ltac:(rewrite Hob; eapply nth_error_In; eauto)) as Hbelow.
  rewrite Forall_forall in Hbelow. apply Hbelow.
  rewrite Hes in Hia. apply in_app_or in Hia.
  destruct Hia as [Hia|[Hia|Hia]]; [exact Hia|subst a; lia|].
  rewrite Hes in Hsorted. apply sorted_app_right in Hsorted.
  rewrite Forall_forall in Hsorted. specialize (Hsorted a Hia). lia.
Qed.

(** [BinarySeek] over a range of restart points ends on the left end of the
    range or on a restart point whose key is not beyond the target. *)
Lemma BinarySeek_loop_from : forall target c l0 fuel l r,
  cursor_over d rs c -> comparator_ c = Some cmp ->
  0 <= l0 <= l -> l <= r -> r < nr ->
  r - l < Z.of_nat fuel ->
  not_beyond_from cmp es rs target l0 l ->
  exists index,
    BinarySeek_loop fuel c target l r = Some (c, Some index) /\
    l <= index <= r /\ not_beyond_from cmp es rs target l0 index.
Proof.
  intros target c l0 fuel.
  pose proof (wf_num_restarts_small d es rs WF) as Hsmall. fold nr in Hsmall.
  induction fuel as [|fuel IH]; intros l r Hc Hcmp Hl0 Hlr Hr Hfuel Hl;
    [simpl in Hfuel; lia|].
  simpl. destruct (l <? r) eqn:Hlt.
  - apply Z.ltb_lt in Hlt.
    assert (Hr31 : r < 2 ^ 31)
      by (change (2 ^ 30) with 1073741824 in Hsmall;
          change (2 ^ 31) with 2147483648; lia).
    destruct (BinarySeek_mid_bounds l r ltac:(lia) Hlt Hr31) as [_ Hm].
    destruct (BinarySeek_probe_wf cmp d es rs WF c target l r Hc Hcmp
                ltac:(fold nr; lia))
      as (er & r0 & Hnth & Hin & Hoff & ->).
    set (mid := BinarySeek_mid l r) in *.
    assert (Her : restart_entry es rs mid er).
    { split; [lia|]. exists r0. auto. }
    unfold probe_of.
    destruct (cmp (e_key er) target <? 0) eqn:E1; simpl.
    + apply Z.ltb_lt in E1.
      destruct (IH mid r) as (index & Hloop & Hrange & Hnb); auto; try lia.
      { right. exists er. split; [exact Her|lia]. }
      exists index. split; [exact Hloop|]. split; [lia|exact Hnb].
    + apply Z.ltb_ge in E1.
      destruct (0 <? cmp (e_key er) target) eqn:E2; simpl.
      * rewrite u32_small
          by (change (2 ^ 31) with 2147483648 in Hr31;
              change (2 ^ 32) with 4294967296; lia).
        destruct (IH l (mid - 1)) as (index & Hloop & Hrange & Hnb);
          auto; try lia.
        exists index. split; [exact Hloop|]. split; [lia|exact Hnb].
      * apply Z.ltb_ge in E2.
        destruct (IH mid mid) as (index & Hloop & Hrange & Hnb);
          auto; try lia.
        { right. exists er. split; [exact Her|lia]. }
        exists index. split; [exact Hloop|]. split; [lia|exact Hnb].
  - apply Z.ltb_ge in Hlt. exists l. split; [reflexivity|].
    split; [lia|exact Hl].
Qed.

(** ... and every restart point behind it has a key beyond the target, when
    that holds of the restart points behind the range. *)
Lemma BinarySeek_loop_upper : forall target c fuel l r c' index,
  cursor_over d rs c -> comparator_ c = Some cmp ->
  0 <= l <= r -> r < nr ->
  BinarySeek_loop fuel c target l r = Some (c', Some index) ->
  beyond_after cmp es rs target r ->
  beyond_after cmp es rs target index.
Proof.
  intros target c fuel.
  pose proof (wf_num_restarts_small d es rs WF) as Hsmall. fold nr in Hsmall.
  induction fuel as [|fuel IH]; intros l r c' index Hc Hcmp Hlr Hr Hloop Hup;
    [discriminate|].
  simpl in Hloop. destruct (l <? r) eqn:Hlt.
  - apply Z.ltb_lt in Hlt.
    assert (Hr31 : r < 2 ^ 31)
      by (change (2 ^ 30) with 1073741824 in Hsmall;
          change (2 ^ 31) with 2147483648; lia).
    destruct (BinarySeek_mid_bounds l r ltac:(lia) Hlt Hr31) as [_ Hm].
    destruct (BinarySeek_probe_wf cmp d es rs WF c target l r Hc Hcmp
                ltac:(fold nr; lia))
      as (er & r0 & Hnth & Hin & Hoff & Hprobe).
    rewrite Hprobe in Hloop.
    set (mid := BinarySeek_mid l r) in *.
    assert (Her : restart_entry es rs mid er).
    { split; [lia|]. exists r0. auto. }
    unfold probe_of in Hloop.
    destruct (cmp (e_key er) target <? 0) eqn:E1; simpl in Hloop.
    + apply (IH mid r c' index); auto. lia.
    + apply Z.ltb_ge in E1.
      assert (Hmid : beyond_after cmp es rs target (mid - 1) \/
                     (cmp (e_key er) target = 0 /\
                      beyond_after cmp es rs target mid)).
      { destruct (Z_lt_le_dec 0 (cmp (e_key er) target)) as [Hgt|Hle].
        - left. intros j ej Hj Hej.
          destruct (Z.eq_dec j mid) as [->|Hne].
          + assert (ej = er)
              by (eapply (restart_entry_unique d es rs WF); eauto).
            subst ej. exact Hgt.
          + pose proof (restart_keys_increase mid j er ej ltac:(lia) Her Hej)
              as Hinc.
            apply (cmp_swap cmp ORD). apply (cmp_swap cmp ORD) in Hgt.
            eapply cmp_lt_le_trans; eauto. lia.
        - right. split; [lia|]. intros j ej Hj Hej.
          pose proof (restart_keys_increase mid j er ej Hj Her Hej) as Hinc.
          apply (cmp_swap cmp ORD).
          eapply cmp_le_lt_trans; eauto.
          apply cmp_ge_swap; auto. }
      destruct (0 <? cmp (e_key er) target) eqn:E2; simpl in Hloop.
      * apply Z.ltb_lt in E2.
        rewrite u32_small in Hloop
          by (change (2 ^ 31) with 2147483648 in Hr31;
              change (2 ^ 32) with 4294967296; lia).
        destruct Hmid as [Hmid|[Heq _]]; [|lia].
        apply (IH l (mid - 1) c' index); auto; lia.
      * apply Z.ltb_ge in E2.
        destruct Hmid as [Hmid|[_ Hmid]].
        -- apply (IH mid mid c' index); auto; try lia.
           intros j ej Hj Hej. apply (Hmid j ej); [lia|exact Hej].
        -- apply (IH mid mid c' index); auto; lia.
  - apply Z.ltb_ge in Hlt. injection Hloop as _ <-.
    assert (l = r) by lia. subst l. exact Hup.
Qed.

(** A seek over the restart points [left] to [right]: binary search, then
    the scan.  Among the entries from restart point [left] on, the cursor
    stops at the first whose key is not below the target. *)
Lemma Seek_range_spec : forall c target left right rl,
  cursor_over d rs c -> comparator_ c = Some cmp ->
  0 <= left <= right -> right < nr ->
  nth_error rs (Z.to_nat left) = Some rl ->
  exists index c',
    BinarySeek c target left right = Some (c, Some index) /\
    Seek_from c target index = Some c' /\
    same_frame c c' /\ status_ c' = status_ c /\
    (Valid c' = true -> 0 <= restart_index_ c' < num_restarts_ c') /\
    ((exists before e after,
        es = before ++ e :: after /\ at_entry c' e /\
        0 <= cmp (e_key e) target /\
        Forall (fun x => rl <= e_off x -> below cmp target x) before /\
        rl <= e_off e) \/
     (invalidated c' /\
      Forall (fun x => rl <= e_off x -> below cmp target x) es)).
Proof.
  intros c target left right rl Hc Hcmp Hlr Hright Hrl.
  destruct (BinarySeek_loop_from target c left
              (Z.to_nat (right - left) + 1) left right Hc Hcmp)
    as (index & Hbin & Hrange & Hnb); try lia.
  { left. reflexivity. }
  destruct (Seek_from_spec cmp d es rs WF c target index Hc Hcmp ltac:(lia))
    as (c' & b1 & l & r & Hnth & Hes & Hb1 & Hnil & Hhead & Hseek & Hfr & Hst
        & Hri & Hres).
  pose proof (nth_error_In _ _ Hnth) as Hin.
  exists index, c'.
  split; [exact Hbin|]. split; [exact Hseek|]. split; [exact Hfr|].
  split; [exact Hst|]. split; [exact Hri|].
  (* the entries in front of the restart point *)
  assert (Hfront : forall er l',
            l = er :: l' -> cmp (e_key er) target <= 0 ->
            Forall (fun x => rl <= e_off x -> below cmp target x) b1).
  { intros er l' Hl Hle. subst l.
    pose proof (keys_below_restart_key b1 er l' Hes
                  ltac:(rewrite (Hhead er l' eq_refl); exact Hin)) as Hbelow.
    eapply Forall_impl; [|exact Hbelow]. simpl. intros x Hx _.
    unfold below. eapply cmp_lt_le_trans; eauto. }
  destruct Hres as [(l1 & e & l2 & Hl & Hall & Hge & Hat)|(Hall & Hinv)].
  - left. exists (b1 ++ l1), e, l2.
    split; [rewrite Hes, Hl, app_assoc; reflexivity|].
    split; [exact Hat|]. split; [exact Hge|].
    assert (Hrl_r : rl <= r).
    { apply (sorted_nth_le rs (Z.to_nat left) (Z.to_nat index));
        [exact (wf_restarts_ascending _ _ _ WF)|lia|exact Hrl|exact Hnth]. }
    assert (Hr_e : r <= e_off e).
    { destruct l1 as [|x l1]; simpl in Hl.
      - rewrite (Hhead e l2 Hl). lia.
      - pose proof (Hhead x (l1 ++ e :: l2) Hl) as Hx.
        destruct (wf_offsets_sorted d es rs WF) as [Hsorted _].
        rewrite Hes, Hl in Hsorted.
        apply (sorted_app_right _ _ b1 x (l1 ++ e :: l2)) in Hsorted.
        rewrite Forall_forall in Hsorted.
        pose proof (Hsorted e ltac:(apply in_elt)). lia. }
    split; [|lia].
    apply Forall_app. split.
    + destruct l1 as [|x l1].
      * (* the cursor is at the restart point itself *)
        simpl in Hl.
        destruct Hnb as [->|(er & Her & Hle)].
        -- rewrite Hrl in Hnth. injection Hnth as ->.
           eapply Forall_impl; [|exact Hb1]. simpl. intros y Hy Hy'. lia.
        -- assert (er = e).
           { apply (restart_entry_unique d es rs WF index); [exact Her|].
             split; [lia|]. exists r. split; [exact Hnth|].
             split; [rewrite Hes, Hl; apply in_elt|].
             apply (Hhead e l2 Hl). }
           subst er. apply (Hfront e l2 Hl Hle).
      * simpl in Hl. apply (Hfront x (l1 ++ e :: l2) Hl).
        inversion Hall; subst. unfold below in *. lia.
    + eapply Forall_impl; [|exact Hall]. simpl. auto.
  - right. split; [exact Hinv|]. rewrite Hes.
    apply Forall_app. split.
    + destruct l as [|x l'].
      * rewrite (Hnil eq_refl) in Hes. destruct b1; [constructor|discriminate].
      * apply (Hfront x l' eq_refl).
        inversion Hall; subst. unfold below in *. lia.
    + eapply Forall_impl; [|exact Hall]. simpl. auto.
Qed.

End Lookup.

(** ** Seeking in an ordered block *)

Lemma keys_increasing_ascending : forall cmp es,
  keys_increasing cmp es -> keys_ascending cmp es.
Proof.
  intros cmp es H. unfold keys_increasing, keys_ascending in *.
  induction H as [|x l Hs IH Hall]; constructor; auto.
  eapply Forall_impl; [|exact Hall]. simpl. intros. lia.
Qed.

(** Where [Seek] lands on a cursor without auxiliary index. *)
Lemma Seek_lower_bound :
  forall (cmp : Comparator) (d : Bytes) (es : list Entry) (rs : list Z)
         (c : BlockIter) (target : Bytes),
    total_order cmp -> well_formed d es rs ->
    keys_ascending cmp es -> restart_keys_strict cmp es rs ->
    cursor_over d rs c -> comparator_ c = Some cmp ->
    hash_index_ c = None -> prefix_index_ c = None ->
    exists c',
      Seek c target = Some c' /\ status_ c' = status_ c /\
      same_frame c c' /\
      (Valid c' = true -> 0 <= restart_index_ c' < num_restarts_ c') /\
      ((exists before e after,
          es = before ++ e :: after /\ at_entry c' e /\
          0 <= cmp (e_key e) target /\ Forall (below cmp target) before) \/
       (invalidated c' /\ Forall (below cmp target) es)).
Proof.
  intros cmp d es rs c target ORD WF ASC STR Hc Hcmp Hhash Hprefix.
  destruct (wf_bounds d es rs WF) as [HR Hnr].
  pose proof Hc as (Hd & Hr & Hn).
  destruct (Seek_range_spec cmp d es rs ORD WF ASC STR c target 0
              (num_restarts_of rs - 1) 0 Hc Hcmp ltac:(lia) ltac:(lia)
              (wf_first_restart _ _ _ WF))
    as (index & c' & Hbin & Hseek & Hfr & Hst & Hri & Hres).
  exists c'. split.
  { unfold Seek. rewrite Hd, Hprefix, Hhash, Hn.
    rewrite (u32_small (num_restarts_of rs - 1)) by lia.
    rewrite Hbin. exact Hseek. }
  split; [exact Hst|]. split; [exact Hfr|]. split; [exact Hri|].
  assert (Hall : forall l,
            (forall x, In x l -> In x es) ->
            Forall (fun x => 0 <= e_off x -> below cmp target x) l ->
            Forall (below cmp target) l).
  { intros l Hsub Hl. rewrite Forall_forall in *. intros x Hx.
    apply (Hl x Hx). pose proof (wf_entry_span d es rs WF x (Hsub x Hx)). lia. }
  destruct Hres as [(before & e & after & Hes & Hat & Hge & Hb & _)|(Hinv & Hb)].
  - left. exists before, e, after. split; [exact Hes|].
    split; [exact Hat|]. split; [exact Hge|].
    apply Hall; [|exact Hb]. intros x Hx. rewrite Hes.
    apply in_or_app. left. exact Hx.
  - right. split; [exact Hinv|]. apply Hall; auto.
Qed.

(** X10.  [Seek] is a lower-bound search.  Take a well-formed block whose
    keys ascend, with every restart key strictly above the key in front of
    it, and a cursor without hash or prefix index.  [Seek(target)] returns,
    keeps the status, and leaves the cursor valid at the first entry whose
    key is >= target (every entry in front of it has a key < target); the
    cursor ends invalid exactly when every key of the block is < target. *)
Theorem Seek_finds_first_key_not_below_target :
  forall (cmp : Comparator) (d : Bytes) (es : list Entry) (rs : list Z)
         (c : BlockIter) (target : Bytes),
    total_order cmp -> well_formed d es rs ->
    keys_ascending cmp es -> restart_keys_strict cmp es rs ->
    cursor_over d rs c -> comparator_ c = Some cmp ->
    hash_index_ c = None -> prefix_index_ c = None ->
    exists c',
      Seek c target = Some c' /\ status_ c' = status_ c /\
      (Valid c' = true ->
         exists before e after,
           es = before ++ e :: after /\ at_entry c' e /\
           0 <= cmp (e_key e) target /\
           Forall (fun x => cmp (e_key x) target < 0) before) /\
      (Valid c' = false <->
         Forall (fun x => cmp (e_key x) target < 0) es).
Proof.
  intros cmp d es rs c target ORD WF ASC STR Hc Hcmp Hhash Hprefix.
  destruct (Seek_lower_bound cmp d es rs c target ORD WF ASC STR Hc Hcmp
              Hhash Hprefix)
    as (c' & Hseek & Hst & Hfr & _ & Hres).
  assert (Hc' : cursor_over d rs c') by (eapply cursor_over_frame; eauto).
  exists c'. split; [exact Hseek|]. split; [exact Hst|].
  destruct Hres as [(before & e & after & Hes & Hat & Hge & Hb)|(Hinv & Hb)].
  - assert (Hv : Valid c' = true).
    { apply (at_entry_Valid d es rs WF c' e); auto.
      rewrite Hes. apply in_elt. }
    split.
    + intros _. exists before, e, after. auto.
    + split; [congruence|]. intros Hall. exfalso.
      rewrite Forall_forall in Hall.
      specialize (Hall e ltac:(rewrite Hes; apply in_elt)). simpl in Hall. lia.
  - destruct Hinv as (Hv & _). split; [congruence|]. split; auto.
Qed.

Lemma Seek_finds_first_key_not_below_target_witness :
  exists c',
    Seek cursor_foo_for (bytes_of [102; 111; 112]%N) = Some c' /\
    status_ c' = status_ cursor_foo_for /\
    (Valid c' = true ->
       exists before e after,
         entries_foo_for = before ++ e :: after /\ at_entry c' e /\
         0 <= bytewise (e_key e) (bytes_of [102; 111; 112]%N) /\
         Forall (fun x => bytewise (e_key x) (bytes_of [102; 111; 112]%N) < 0)
           before) /\
    (Valid c' = false <->
       Forall (fun x => bytewise (e_key x) (bytes_of [102; 111; 112]%N) < 0)
         entries_foo_for).
Proof.
  apply (Seek_finds_first_key_not_below_target bytewise block_foo_for
           entries_foo_for [0] cursor_foo_for (bytes_of [102; 111; 112]%N)
           bytewise_total_order well_formed_foo_for).
  - repeat constructor; crunch.
  - apply keys_increasing_restart_keys_strict. repeat constructor.
  - repeat split.
  - reflexivity.
  - reflexivity.
  - reflexivity.
Defined.

(** X11.  Lookup of a key that is there: in a well-formed block with
    strictly increasing keys, [Seek] with a target that compares equal to
    the key of an entry leaves the cursor valid at that entry. *)
Theorem Seek_finds_present_key :
  forall (cmp : Comparator) (d : Bytes) (es : list Entry) (rs : list Z)
         (c : BlockIter) (target : Bytes) (e : Entry),
    total_order cmp -> well_formed d es rs ->
    keys_increasing cmp es ->
    cursor_over d rs c -> comparator_ c = Some cmp ->
    hash_index_ c = None -> prefix_index_ c = None ->
    In e es -> cmp (e_key e) target = 0 ->
    exists c',
      Seek c target = Some c' /\ status_ c' = status_ c /\
      Valid c' = true /\ at_entry c' e.
Proof.
  intros cmp d es rs c target e ORD WF INC Hc Hcmp Hhash Hprefix He Heq.
  destruct (Seek_lower_bound cmp d es rs c target ORD WF
              (keys_increasing_ascending cmp es INC)
              (keys_increasing_restart_keys_strict cmp es rs INC)
              Hc Hcmp Hhash Hprefix)
    as (c' & Hseek & Hst & Hfr & _ & Hres).
  assert (Hc' : cursor_over d rs c') by (eapply cursor_over_frame; eauto).
  exists c'. split; [exact Hseek|]. split; [exact Hst|].
  destruct Hres as [(before & e' & after & Hes & Hat & Hge & Hb)|(_ & Hb)].
  - assert (e' = e).
    { rewrite Hes in He. apply in_app_or in He.
      destruct He as [He|[He|He]]; [|exact He|].
      - rewrite Forall_forall in Hb. specialize (Hb e He).
        unfold below in Hb. lia.
      - unfold keys_increasing in INC. rewrite Hes in INC.
        apply sorted_app_right in INC. rewrite Forall_forall in INC.
        specialize (INC e He). simpl in INC.
        assert (cmp (e_key e') target < 0)
          by (eapply cmp_lt_le_trans; eauto; lia).
        lia. }
    subst e'. split; [|exact Hat].
    exact (at_entry_Valid d es rs WF c' e Hc' He Hat).
  - rewrite Forall_forall in Hb. specialize (Hb e He).
    unfold below in Hb. lia.
Qed.

Lemma Seek_finds_present_key_witness :
  exists c',
    Seek cursor_a_cd_f (bytes_of [100]%N) = Some c' /\
    status_ c' = status_ cursor_a_cd_f /\
    Valid c' = true /\ at_entry c' (mkEntry 8 0 (bytes_of [100]%N) 12 0).
Proof.
  apply (Seek_finds_present_key bytewise block_a_cd_f entries_a_cd_f
           [0; 4; 12] cursor_a_cd_f (bytes_of [100]%N)
           (mkEntry 8 0 (bytes_of [100]%N) 12 0)
           bytewise_total_order well_formed_a_cd_f).
  - repeat constructor.
  - repeat split.
  - reflexivity.
  - reflexivity.
  - reflexivity.
  - right. right. left. reflexivity.
  - reflexivity.
Defined.

(** X12.  What [BinarySeek] finds over the whole restart array of an
    ordered, well-formed block: it returns true with the index of the last
    restart point whose key is <= target, or with index 0 when there is
    none; the key of every later restart point is > target.  The cursor is
    not moved. *)
Theorem BinarySeek_finds_last_restart_not_beyond :
  forall (cmp : Comparator) (d : Bytes) (es : list Entry) (rs : list Z)
         (c : BlockIter) (target : Bytes),
    total_order cmp -> well_formed d es rs ->
    keys_ascending cmp es -> restart_keys_strict cmp es rs ->
    cursor_over d rs c -> comparator_ c = Some cmp ->
    exists index,
      BinarySeek c target 0 (num_restarts_ c - 1) = Some (c, Some index) /\
      0 <= index < num_restarts_ c /\
      (index = 0 \/
       exists er, restart_entry es rs index er /\
                  cmp (e_key er) target <= 0) /\
      (forall j er,
         index < j -> restart_entry es rs j er ->
         0 < cmp (e_key er) target).
Proof.
  intros cmp d es rs c target ORD WF ASC STR Hc Hcmp.
  destruct (wf_bounds d es rs WF) as [HR Hnr].
  pose proof Hc as (Hd & Hr & Hn). rewrite Hn.
  destruct (BinarySeek_loop_from cmp d es rs WF target c 0
              (Z.to_nat (num_restarts_of rs - 1 - 0) + 1) 0
              (num_restarts_of rs - 1) Hc Hcmp)
    as (index & Hbin & Hrange & Hnb); try lia.
  { left. reflexivity. }
  exists index. split; [exact Hbin|]. split; [lia|]. split; [exact Hnb|].
  apply (BinarySeek_loop_upper cmp d es rs ORD WF ASC STR target c
           (Z.to_nat (num_restarts_of rs - 1 - 0) + 1) 0
           (num_restarts_of rs - 1) c index Hc Hcmp);
    [lia|lia|exact Hbin|].
  intros j er Hj (_ & r & Hnth & _). exfalso.
  assert (Z.to_nat j < List.length rs)%nat
    by (apply nth_error_Some; congruence).
  unfold num_restarts_of in Hj. lia.
Qed.

Lemma BinarySeek_finds_last_restart_not_beyond_witness :
  exists index,
    BinarySeek cursor_a_cd_f (bytes_of [100]%N) 0
      (num_restarts_ cursor_a_cd_f - 1)
    = Some (cursor_a_cd_f, Some index) /\
    0 <= index < num_restarts_ cursor_a_cd_f /\
    (index = 0 \/
     exists er, restart_entry entries_a_cd_f [0; 4; 12] index er /\
                bytewise (e_key er) (bytes_of [100]%N) <= 0) /\
    (forall j er,
       index < j -> restart_entry entries_a_cd_f [0; 4; 12] j er ->
       0 < bytewise (e_key er) (bytes_of [100]%N)).
Proof.
  apply (BinarySeek_finds_last_restart_not_beyond bytewise block_a_cd_f
           entries_a_cd_f [0; 4; 12] cursor_a_cd_f (bytes_of [100]%N)
           bytewise_total_order well_formed_a_cd_f).
  - repeat constructor; crunch.
  - apply keys_increasing_restart_keys_strict. repeat constructor.
  - repeat split.
  - reflexivity.
Defined.

(** X13.  [Seek] through a hash index.  When the index has no bucket for
    the target, the cursor is made invalid by moving [current_] to
    [restarts_]; nothing else of it changes.  When the index names the
    restart points first .. first + num - 1 of an ordered, well-formed
    block, the seek is a lower-bound search among the entries from restart
    point [first] on: it returns, keeps the status, and the cursor stops at
    the first of those entries whose key is >= target, or ends invalid when
    all their keys are < target.  Entries in front of restart point
    [first] are not considered: a valid cursor stands at or behind the
    restart offset of [first], whatever the keys in front of it are. *)
Theorem hash_seek_searches_from_first_restart :
  forall (cmp : Comparator) (d : Bytes) (es : list Entry) (rs : list Z)
         (c : BlockIter) (hash_index : BlockHashIndex) (target : Bytes),
    total_order cmp -> well_formed d es rs ->
    keys_ascending cmp es -> restart_keys_strict cmp es rs ->
    cursor_over d rs c -> comparator_ c = Some cmp ->
    prefix_index_ c = None -> hash_index_ c = Some hash_index ->
    (hash_index target = None ->
       Seek c target = Some (set_current c (restarts_ c))) /\
    (forall first num rl,
       hash_index target = Some (first, num) ->
       0 <= first -> 1 <= num -> first + num <= num_restarts_ c ->
       nth_error rs (Z.to_nat first) = Some rl ->
       exists c',
         Seek c target = Some c' /\ status_ c' = status_ c /\
         (Valid c' = true ->
            exists before e after,
              es = before ++ e :: after /\ at_entry c' e /\
              rl <= e_off e /\
              0 <= cmp (e_key e) target /\
              Forall (fun x => rl <= e_off x -> cmp (e_key x) target < 0)
                before) /\
         (Valid c' = false ->
            Forall (fun x => rl <= e_off x -> cmp (e_key x) target < 0) es)).
Proof.
  intros cmp d es rs c hash_index target ORD WF ASC STR Hc Hcmp Hprefix Hhash.
  pose proof Hc as (Hd & Hr & Hn).
  split.
  - intros Hmiss. unfold Seek, HashSeek.
    rewrite Hd, Hprefix, Hhash. simpl. rewrite Hmiss. reflexivity.
  - intros first num rl Hhit Hfirst Hnum Hfit Hrl.
    destruct (wf_bounds d es rs WF) as [HR Hnr].
    rewrite Hn in Hfit.
    destruct (Seek_range_spec cmp d es rs ORD WF ASC STR c target first
                (first + num - 1) rl Hc Hcmp ltac:(lia) ltac:(lia) Hrl)
      as (index & c' & Hbin & Hseek & Hfr & Hst & _ & Hres).
    assert (Hc' : cursor_over d rs c') by (eapply cursor_over_frame; eauto).
    exists c'. split.
    { unfold Seek, HashSeek. rewrite Hd, Hprefix, Hhash. simpl.
      rewrite Hhit.
      rewrite (u32_small (first + num - 1)) by lia.
      rewrite Hbin. exact Hseek. }
    split; [exact Hst|].
    destruct Hres as [(before & e & after & Hes & Hat & Hge & Hb & Hfrom)
                     |(Hinv & Hb)].
    + assert (Hv : Valid c' = true).
      { apply (at_entry_Valid d es rs WF c' e); auto.
        rewrite Hes. apply in_elt. }
      split; [|congruence].
      intros _. exists before, e, after. auto.
    + destruct Hinv as (Hv & _). split; [congruence|]. intros _. exact Hb.
Qed.

Lemma hash_seek_searches_from_first_restart_witness :
  exists c',
    Seek cursor_a_cd_f_hash (bytes_of [97]%N) = Some c' /\
    status_ c' = status_ cursor_a_cd_f_hash /\
    (Valid c' = true ->
       exists before e after,
         entries_a_cd_f = before ++ e :: after /\ at_entry c' e /\
         4 <= e_off e /\
         0 <= bytewise (e_key e) (bytes_of [97]%N) /\
         Forall (fun x => 4 <= e_off x ->
                          bytewise (e_key x) (bytes_of [97]%N) < 0) before) /\
    (Valid c' = false ->
       Forall (fun x => 4 <= e_off x ->
                        bytewise (e_key x) (bytes_of [97]%N) < 0)
         entries_a_cd_f).
Proof.
  apply (proj2 (hash_seek_searches_from_first_restart bytewise block_a_cd_f
                  entries_a_cd_f [0; 4; 12] cursor_a_cd_f_hash hash_index_1_2
                  (bytes_of [97]%N) bytewise_total_order well_formed_a_cd_f
                  ltac:(repeat constructor; crunch)
                  ltac:(apply keys_increasing_restart_keys_strict;
                        repeat constructor)
                  ltac:(repeat split) eq_refl eq_refl eq_refl)
           1 2 4).
  - reflexivity.
  - lia.
  - lia.
  - vm_compute. intros H; discriminate H.
  - reflexivity.
Defined.

(** ** The search over the candidates of a prefix index *)

Section Candidates.

Variables (cmp : Comparator) (d : Bytes) (es : list Entry) (rs : list Z).
Hypothesis WF : well_formed d es rs.
Hypothesis NonEmpty : es <> [].

Let R := restarts_of d rs.
Let nr := num_restarts_of rs.



End Candidates.



(** ** No false alarm on a well-formed block *)

(** [Seek] without auxiliary index returns on a well-formed block, whatever
    the comparator. *)
Lemma Seek_positioned :
  forall (cmp : Comparator) (d : Bytes) (es : list Entry) (rs : list Z)
         (c : BlockIter) (target : Bytes),
    well_formed d es rs -> cursor_over d rs c -> comparator_ c = Some cmp ->
    hash_index_ c = None -> prefix_index_ c = None ->
    exists c',
      Seek c target = Some c' /\ positioned d es rs c' /\
      status_ c' = status_ c /\ same_frame c c'.
Proof.
  intros cmp d es rs c target WF Hc Hcmp Hhash Hprefix.
  destruct (wf_bounds d es rs WF) as [HR Hnr].
  pose proof Hc as (Hd & Hr & Hn).
  destruct (BinarySeek_loop_from cmp d es rs WF target c 0
              (Z.to_nat (num_restarts_of rs - 1 - 0) + 1) 0
              (num_restarts_of rs - 1) Hc Hcmp)
    as (index & Hbin & Hrange & _); try lia.
  { left. reflexivity. }
  destruct (Seek_from_spec cmp d es rs WF c target index Hc Hcmp ltac:(lia))
    as (c' & b1 & l & r & _ & Hes & _ & _ & _ & Hseek & Hfr & Hst & Hri & Hres).
  assert (Hc' : cursor_over d rs c') by (eapply cursor_over_frame; eauto).
  exists c'. split.
  { unfold Seek. rewrite Hd, Hprefix, Hhash, Hn.
    rewrite (u32_small (num_restarts_of rs - 1)) by lia.
    unfold BinarySeek. rewrite Hbin. exact Hseek. }
  split; [|split; assumption].
  split; [exact Hc'|]. intros Hv.
  destruct Hres as [(l1 & e & l2 & Hl & _ & _ & Hat)|(_ & Hinv & _)];
    [|congruence].
  exists e. split; [|split; [exact Hat|exact (Hri Hv)]].
  rewrite Hes, Hl. apply in_or_app. right. apply in_elt.
Qed.

(** X15.  On a well-formed block the cursor never reports corruption and
    never gets lost: from a cursor that reads the block and, when valid,
    is at one of its entries, every operation ([Next] and [Prev] being
    called on a valid cursor, the seeks on any cursor, without hash or
    prefix index) returns, keeps the status, and leaves a cursor that again
    is invalid or at an entry of the block. *)
Theorem operations_keep_cursor_on_entries :
  forall (cmp : Comparator) (d : Bytes) (es : list Entry) (rs : list Z)
         (c : BlockIter) (o : Op),
    well_formed d es rs ->
    positioned d es rs c ->
    comparator_ c = Some cmp ->
    hash_index_ c = None -> prefix_index_ c = None ->
    (o = OpNext \/ o = OpPrev -> Valid c = true) ->
    exists c',
      run_op o c = Some c' /\ positioned d es rs c' /\
      status_ c' = status_ c /\ same_frame c c'.
Proof.
  intros cmp d es rs c o WF (Hc & Hpos) Hcmp Hhash Hprefix Hvalid.
  assert (Hinvalid : forall c', cursor_over d rs c' -> invalidated c' ->
                       positioned d es rs c').
  { intros c' Hc' (Hv & _). split; [exact Hc'|]. congruence. }
  assert (Hentry : forall c' e,
            same_frame c c' -> In e es -> at_entry c' e ->
            0 <= restart_index_ c' < num_restarts_ c' ->
            positioned d es rs c').
  { intros c' e Hfr He Hat Hri.
    split; [eapply cursor_over_frame; eauto|]. intros _. exists e. auto. }
  destruct o as [| |target| |]; simpl.
  - (* Next *)
    destruct (Hpos (Hvalid (or_introl eq_refl))) as (e & He & Hat & Hri).
    destruct (in_split _ _ He) as (b & after & Hes).
    assert (Hcat : cursor_at d rs c e) by (split; [|split]; assumption).
    destruct after as [|n after].
    + destruct (Next_last d es rs WF c b e Hes Hcat)
        as (c' & Hnext & Hinv & Hfr & Hst & _).
      exists c'. split; [exact Hnext|]. split; [|split; assumption].
      apply Hinvalid; [eapply cursor_over_frame; eauto|exact Hinv].
    + destruct (Next_successor d es rs WF c b e n after Hes Hcat)
        as (c' & Hnext & Hat' & Hfr & Hst & Hri').
      exists c'. split; [exact Hnext|]. split; [|split; assumption].
      apply (Hentry c' n); auto.
      rewrite Hes. apply in_or_app. right. right. left. reflexivity.
  - (* Prev *)
    destruct (Hpos (Hvalid (or_intror eq_refl))) as (e & He & Hat & Hri).
    destruct (in_split _ _ He) as (before & after & Hes).
    assert (Hcat : cursor_at d rs c e) by (split; [|split]; assumption).
    destruct (nil_or_snoc _ before) as [->|(b & p & ->)].
    + destruct (Prev_first d es rs WF c e after Hes Hcat)
        as (c' & Hprev & Hinv & Hfr & Hst & _).
      exists c'. split; [exact Hprev|]. split; [|split; assumption].
      apply Hinvalid; [eapply cursor_over_frame; eauto|exact Hinv].
    + rewrite <- app_assoc in Hes. simpl in Hes.
      destruct (Prev_predecessor d es rs WF c b p e after Hes Hcat)
        as (c' & Hprev & Hat' & Hfr & Hst & Hri').
      exists c'. split; [exact Hprev|]. split; [|split; assumption].
      apply (Hentry c' p); auto. rewrite Hes. apply in_elt.
  - (* Seek *)
    exact (Seek_positioned cmp d es rs c target WF Hc Hcmp Hhash Hprefix).
  - (* SeekToFirst *)
    destruct es as [|e es'] eqn:Hes.
    + destruct (SeekToFirst_none d [] rs WF c eq_refl Hc)
        as (c' & Hseek & Hinv & Hfr & Hst).
      exists c'. split; [exact Hseek|]. split; [|split; assumption].
      apply Hinvalid; [eapply cursor_over_frame; eauto|exact Hinv].
    + destruct (SeekToFirst_first d _ rs WF c e es' eq_refl Hc)
        as (c' & Hseek & Hat & Hfr & Hst & Hri).
      exists c'. split; [exact Hseek|]. split; [|split; assumption].
      apply (Hentry c' e); auto. left. reflexivity.
  - (* SeekToLast *)
    destruct (nil_or_snoc _ es) as [Hes|(b & e & Hes)].
    + destruct (SeekToLast_none d es rs WF c Hes Hc)
        as (c' & Hseek & Hinv & Hfr & Hst).
      exists c'. split; [exact Hseek|]. split; [|split; assumption].
      apply Hinvalid; [eapply cursor_over_frame; eauto|exact Hinv].
    + destruct (SeekToLast_last d es rs WF c b e Hes Hc)
        as (c' & Hseek & Hat & Hfr & Hst & Hri).
      exists c'. split; [exact Hseek|]. split; [|split; assumption].
      apply (Hentry c' e); auto. rewrite Hes. apply in_elt.
Qed.

Lemma operations_keep_cursor_on_entries_witness :
  exists c',
    run_op OpPrev cursor_abc_def_at_def = Some c' /\
    positioned block_abc_def entries_abc_def [0; 7] c' /\
    status_ c' = status_ cursor_abc_def_at_def /\
    same_frame cursor_abc_def_at_def c'.
Proof.
  apply (operations_keep_cursor_on_entries bytewise block_abc_def
           entries_abc_def [0; 7] cursor_abc_def_at_def OpPrev
           well_formed_abc_def).
  - split; [repeat split|]. intros _.
    exists (mkEntry 7 0 (bytes_of [100; 101; 102]%N) 13 1).
    split; [right; left; reflexivity|]. split; [repeat split|]. crunch.
  - reflexivity.
  - reflexivity.
  - reflexivity.
  - intros _. reflexivity.
Defined.

(** ** The handle of a well-formed block *)

(** What the constructor makes of a well-formed buffer. *)
Lemma Block_Block_well_formed : forall d es rs,
  well_formed d es rs ->
  Block_Block d
  = Some (mkBlock d (len d) (restarts_of d rs) None None).
Proof.
  intros d es rs WF.
  destruct (wf_bounds d es rs WF) as [HR Hnr].
  pose proof (wf_size _ _ _ WF) as Hsize.
  pose proof (wf_num_restarts _ _ _ WF) as Hnum.
  pose proof (len_nonneg d) as Hlen.
  assert (Hlen' : len d = restarts_of d rs + (num_restarts_of rs + 1) * 4)
    by (unfold restarts_of, num_restarts_of; lia).
  change (2 ^ 32) with 4294967296 in *.
  unfold Block_Block.
  replace (len d <? 4) with false by (symmetry; apply Z.ltb_ge; lia).
  rewrite Hnum.
  rewrite (u32_small (len d)) by (change (2 ^ 32) with 4294967296; lia).
  rewrite (u32_small (1 + num_restarts_of rs))
    by (change (2 ^ 32) with 4294967296; lia).
  replace (len d - (1 + num_restarts_of rs) * 4) with (restarts_of d rs)
    by lia.
  rewrite (u32_small (restarts_of d rs))
    by (change (2 ^ 32) with 4294967296; lia).
  replace (len d - 4 <? restarts_of d rs) with false
    by (symmetry; apply Z.ltb_ge; lia).
  reflexivity.
Qed.

(** A well-formed block without entries is the 8-byte empty block. *)
Lemma wf_empty : forall d rs,
  well_formed d [] rs -> rs = [0] /\ len d = 8.
Proof.
  intros d rs WF.
  pose proof (wf_entries _ _ _ WF) as Hall. simpl in Hall.
  pose proof (wf_first_restart _ _ _ WF) as Hfirst.
  pose proof (wf_restarts_ascending _ _ _ WF) as Hasc.
  assert (Hrs : rs = [0]).
  { destruct rs as [|r0 rest]; [discriminate|]. injection Hfirst as ->.
    destruct rest as [|r1 rest]; [reflexivity|]. exfalso.
    destruct (wf_restart_entries _ _ _ WF r1 ltac:(right; left; reflexivity))
      as [[-> _]|(e & [] & _)].
    inversion Hasc as [|? ? _ Hf]; subst.
    inversion Hf; subst. lia. }
  split; [exact Hrs|]. subst rs. unfold restarts_of in Hall. simpl in Hall. lia.
Qed.

(** X16.  The middle key of a well-formed block.  The constructor accepts
    the buffer; [GetMiddleKey] answers Incomplete for the block without
    entries and otherwise returns the full key of the entry at the restart
    point of index num_restarts / 2. *)
Theorem GetMiddleKey_of_well_formed_block :
  forall (d : Bytes) (es : list Entry) (rs : list Z),
    well_formed d es rs ->
    exists b,
      Block_Block d = Some b /\
      (es = [] ->
         GetMiddleKey b = Some (ResultError (Incomplete "Empty block"))) /\
      (es <> [] ->
         exists er,
           restart_entry es rs (num_restarts_of rs / 2) er /\
           GetMiddleKey b = Some (ResultOk (e_key er))).
Proof.
  intros d es rs WF.
  exists (mkBlock d (len d) (restarts_of d rs) None None).
  split; [exact (Block_Block_well_formed d es rs WF)|].
  destruct (wf_bounds d es rs WF) as [HR Hnr].
  pose proof (wf_num_restarts _ _ _ WF) as Hnum.
  split.
  - intros ->. destruct (wf_empty d rs WF) as [_ Hlen].
    unfold GetMiddleKey. simpl. rewrite Hlen. reflexivity.
  - intros Hne.
    set (i := num_restarts_of rs / 2).
    assert (Hi : 0 <= i < num_restarts_of rs)
      by (subst i; Z.div_mod_to_equations; lia).
    destruct (restart_nth rs i Hi) as [r Hnth].
    destruct (wf_restart_entries_from d es rs WF r (nth_error_In _ _ Hnth) Hne)
      as (before & er & after & Hes & Hoff & Hsh & Hfrom).
    exists er. split.
    { split; [lia|]. exists r. split; [exact Hnth|].
      split; [rewrite Hes; apply in_elt|exact Hoff]. }
    destruct Hfrom as (Hlt & Hat & _). apply entry_at_Some in Hat.
    destruct Hat as (h & delta & Hh & _ & Hdelta & Her).
    rewrite Her in Hsh. simpl in Hsh.
    pose proof (wf_restart_array _ _ _ WF _ _ Hnth) as Hfix.
    rewrite Z2Nat.id in Hfix by lia.
    assert (Hbig : 8 < len d).
    { pose proof (DecodeEntry_Some _ _ _ _ Hh).
      pose proof (DecodeFixed32_Some _ _ _ Hfix).
      unfold restarts_of, num_restarts_of in *. lia. }
    unfold GetMiddleKey. simpl.
    replace (len d <? kMinBlockSize) with false
      by (symmetry; apply Z.ltb_ge; unfold kMinBlockSize; lia).
    replace (len d =? kMinBlockSize) with false
      by (symmetry; apply Z.eqb_neq; unfold kMinBlockSize; lia).
    rewrite Hnum. fold i. rewrite Hfix, Hh, Hsh. simpl. rewrite Hdelta.
    rewrite Her. simpl. rewrite Hsh. reflexivity.
Qed.

Lemma GetMiddleKey_of_well_formed_block_witness :
  exists b,
    Block_Block block_a_cd_f = Some b /\
    (entries_a_cd_f = [] ->
       GetMiddleKey b = Some (ResultError (Incomplete "Empty block"))) /\
    (entries_a_cd_f <> [] ->
       exists er,
         restart_entry entries_a_cd_f [0; 4; 12]
           (num_restarts_of [0; 4; 12] / 2) er /\
         GetMiddleKey b = Some (ResultOk (e_key er))).
Proof.
  apply (GetMiddleKey_of_well_formed_block block_a_cd_f entries_a_cd_f
           [0; 4; 12]).
  exact well_formed_a_cd_f.
Defined.

(** ** Cursors that [NewIterator] does not initialize *)

(** X17.  For a block the constructor marked degenerate or that is shorter
    than the minimum, and for a block whose restart count is zero,
    [NewIterator] only sets the status of the cursor it is given
    (BadBlockContents, and OK) and does not attach the buffer.  On such a
    cursor, handed in uninitialized, [Seek], [SeekToFirst] and [SeekToLast]
    do nothing: the cursor keeps its status and stays as invalid as it
    was. *)
Theorem NewIterator_leaves_cursor_unattached :
  forall (b : Block) (cmp : Comparator) (it : BlockIter)
         (total_order_seek : bool),
    data_ it = None ->
    b_size_ b < kMinBlockSize \/
    NumRestarts (b_data_ b) (b_size_ b) = Some 0 ->
    exists c,
      NewIterator b cmp (Some it) total_order_seek = Some (BlockIterator c) /\
      status_ c = (if b_size_ b <? kMinBlockSize
                   then BadBlockContentsError else OK) /\
      Valid c = Valid it /\
      (forall o, o <> OpNext -> o <> OpPrev -> run_op o c = Some c).
Proof.
  intros b cmp it tos Hnull Hbad.
  assert (Hinert : forall s o,
            o <> OpNext -> o <> OpPrev ->
            run_op o (SetStatus it s) = Some (SetStatus it s)).
  { intros s o H1 H2.
    destruct o; try contradiction; simpl;
      unfold Seek, SeekToFirst, SeekToLast; simpl; rewrite Hnull; reflexivity. }
  unfold NewIterator.
  destruct (b_size_ b <? kMinBlockSize) eqn:Hsz.
  - exists (SetStatus it BadBlockContentsError).
    split; [reflexivity|]. split; [reflexivity|]. split; [reflexivity|].
    apply Hinert.
  - destruct Hbad as [Hbad|Hbad]; [apply Z.ltb_ge in Hsz; lia|].
    rewrite Hbad. simpl.
    exists (SetStatus it OK).
    split; [reflexivity|]. split; [reflexivity|]. split; [reflexivity|].
    apply Hinert.
Qed.

Lemma NewIterator_leaves_cursor_unattached_witness :
  exists b c,
    Block_Block block_seven_zeros = Some b /\
    NewIterator b bytewise (Some BlockIter_default) false
    = Some (BlockIterator c) /\
    status_ c = BadBlockContentsError /\
    Valid c = Valid BlockIter_default /\
    (forall o, o <> OpNext -> o <> OpPrev -> run_op o c = Some c).
Proof.
  exists (mkBlock block_seven_zeros 7 3 None None).
  assert (Hshort : b_size_ (mkBlock block_seven_zeros 7 3 None None)
                   < kMinBlockSize) by reflexivity.
  destruct (NewIterator_leaves_cursor_unattached
              (mkBlock block_seven_zeros 7 3 None None) bytewise
              BlockIter_default false eq_refl (or_introl Hshort))
    as (c & H1 & H2 & H3 & H4).
  exists c. split; [vm_compute; reflexivity|]. auto.
Defined.

(** ** A prefix-index seek on a cursor whose status is not OK *)

(** X18.  The search over the candidates of a prefix index gives up after
    its first comparison when the status of the cursor is not OK.  So on a
    well-formed block that holds at least one entry, [Seek] through a
    prefix index that proposes at least one candidate, all of them inside
    the restart array, leaves such a cursor exactly as it was: it is not
    moved and not invalidated. *)
Theorem prefix_seek_with_bad_status_does_not_move :
  forall (cmp : Comparator) (d : Bytes) (es : list Entry) (rs : list Z)
         (c : BlockIter) (pi : BlockPrefixIndex) (target : Bytes),
    well_formed d es rs -> es <> [] ->
    cursor_over d rs c -> comparator_ c = Some cmp ->
    prefix_index_ c = Some pi -> status_ c <> OK ->
    pi target <> [] ->
    Z.of_nat (List.length (pi target)) < 2 ^ 31 ->
    (forall id, In id (pi target) -> 0 <= id < num_restarts_of rs) ->
    Seek c target = Some c.
Proof.
  intros cmp d es rs c pi target WF Hne Hc Hcmp Hpi Hst Hids Hsmall Hvalid.
  set (ids := pi target) in *.
  set (n := Z.of_nat (List.length ids)) in *.
  assert (Hn1 : 1 <= n) by (subst n; destruct ids; [contradiction|simpl; lia]).
  assert (Hsmall' : n < 2147483648) by exact Hsmall.
  pose proof Hc as (Hd & _).
  unfold Seek, PrefixSeek. rewrite Hd, Hpi. fold ids. fold n.
  replace (n =? 0) with false by (symmetry; apply Z.eqb_neq; lia).
  unfold BinaryBlockIndexSeek.
  rewrite (u32_small (n - 1)) by (change (2 ^ 32) with 4294967296; lia).
  replace (Z.to_nat (n - 1 - 0) + 2)%nat with (S (Z.to_nat (n - 1 - 0) + 1))
    by lia.
  cbn [BinaryBlockIndexSeek_loop].
  replace (0 <=? n - 1) with true by (symmetry; apply Z.leb_le; lia).
  rewrite (u32_small (0 + (n - 1))) by (change (2 ^ 32) with 4294967296; lia).
  assert (Hm : 0 <= (0 + (n - 1)) / 2 < n) by (Z.div_mod_to_equations; lia).
  destruct (block_id_defined ids _ Hm) as [id Hid]. rewrite Hid.
  destruct (block_id_Some _ _ _ Hid) as [_ Hin].
  destruct (CompareBlockKey_wf cmp d es rs WF Hne c target id Hc Hcmp
              (Hvalid id Hin))
    as (er & after & _ & _ & ->).
  destruct (status_ c) eqn:E; [contradiction| |]; reflexivity.
Qed.

Lemma prefix_seek_with_bad_status_does_not_move_witness :
  Seek cursor_a_cd_f_prefix_bad (bytes_of [98]%N)
  = Some cursor_a_cd_f_prefix_bad.
Proof.
  apply (prefix_seek_with_bad_status_does_not_move bytewise block_a_cd_f
           entries_a_cd_f [0; 4; 12] cursor_a_cd_f_prefix_bad
           prefix_index_0_2 (bytes_of [98]%N) well_formed_a_cd_f).
  - discriminate.
  - repeat split.
  - reflexivity.
  - reflexivity.
  - discriminate.
  - discriminate.
  - reflexivity.
  - intros id [<-|[<-|[]]]; unfold num_restarts_of; simpl; lia.
Defined.

(** ** Seeks forget the position *)

Lemma ParseNextKey_set_current : forall c x,
  ParseNextKey (set_current c x) = ParseNextKey c.
Proof. intros [] x. reflexivity. Qed.

Lemma Seek_scan_set_current : forall fuel c x target,
  Seek_scan fuel (set_current c x) target = Seek_scan fuel c target.
Proof.
  intros [|fuel] c x target; simpl; [reflexivity|].
  rewrite ParseNextKey_set_current. reflexivity.
Qed.

Lemma SeekToLast_walk_set_current : forall fuel c x,
  SeekToLast_walk fuel (set_current c x) = SeekToLast_walk fuel c.
Proof.
  intros [|fuel] c x; simpl; [reflexivity|].
  rewrite ParseNextKey_set_current. reflexivity.
Qed.

(** The cursor [SeekToRestartPoint] leaves depends on the position before
    in [current_] only. *)
Lemma SeekToRestartPoint_forgets : forall c1 c2 i,
  same_but_position c1 c2 ->
  SeekToRestartPoint c1 i
  = option_map (fun c => set_current c (current_ c1)) (SeekToRestartPoint c2 i).
Proof.
  intros [cm1 d1 R1 n1 cur1 ri1 k1 v1 s1 h1 p1]
         [cm2 d2 R2 n2 cur2 ri2 k2 v2 s2 h2 p2] i
         ((E1 & E2 & E3 & E4 & E5 & E6) & E7).
  simpl in *. subst.
  unfold SeekToRestartPoint, GetRestartPoint. simpl.
  destruct d1 as [d|]; [|reflexivity]. simpl.
  destruct (DecodeFixed32 d (R1 + i * 4)); reflexivity.
Qed.

Lemma CorruptionError_forgets : forall c1 c2,
  same_but_position c1 c2 -> CorruptionError c1 = CorruptionError c2.
Proof.
  intros [] [] ((E1 & E2 & E3 & E4 & E5 & E6) & E7). simpl in *. subst.
  reflexivity.
Qed.

Lemma BinarySeek_probe_forgets : forall c1 c2 target l r,
  same_but_position c1 c2 ->
  BinarySeek_probe c1 target l r = BinarySeek_probe c2 target l r.
Proof.
  intros [] [] target l r ((E1 & E2 & E3 & E4 & E5 & E6) & E7).
  simpl in *. subst. reflexivity.
Qed.

Lemma BinarySeek_loop_forgets : forall fuel c1 c2 target l r,
  same_but_position c1 c2 ->
  BinarySeek_loop fuel c1 target l r
  = match BinarySeek_loop fuel c2 target l r with
    | Some (_, Some index) => Some (c1, Some index)
    | Some (_, None) => Some (CorruptionError c2, None)
    | None => None
    end.
Proof.
  induction fuel as [|fuel IH]; intros c1 c2 target l r H; simpl;
    [reflexivity|].
  destruct (l <? r); [|reflexivity].
  rewrite (BinarySeek_probe_forgets c1 c2 target l r H).
  destruct (BinarySeek_probe c2 target l r) as [p|]; [|reflexivity].
  destruct (BinarySeek_branch p l r) as [[l' r']|].
  - apply IH. exact H.
  - rewrite (CorruptionError_forgets c1 c2 H). reflexivity.
Qed.

(** The three seeks on cursors that differ in their position only. *)
Lemma seeks_forget :
  forall (c1 c2 : BlockIter) (target : Bytes),
    same_but_position c1 c2 ->
    data_ c1 <> None ->
    SeekToFirst c1 = SeekToFirst c2 /\
    SeekToLast c1 = SeekToLast c2 /\
    (hash_index_ c1 = None -> prefix_index_ c1 = None ->
     Seek c1 target = Seek c2 target).
Proof.
  intros c1 c2 target H Hinit.
  pose proof H as ((E1 & E2 & E3 & E4 & E5 & E6) & E7).
  destruct (data_ c1) as [d|] eqn:Hd; [clear Hinit|contradiction].
  split; [|split].
  - unfold SeekToFirst. rewrite E2, Hd.
    rewrite (SeekToRestartPoint_forgets c1 c2 0 H).
    destruct (SeekToRestartPoint c2 0) as [r|]; [|reflexivity]. simpl.
    rewrite ParseNextKey_set_current. reflexivity.
  - unfold SeekToLast. rewrite E2, Hd, E4.
    rewrite (SeekToRestartPoint_forgets c1 c2 _ H).
    destruct (SeekToRestartPoint c2 (u32 (num_restarts_ c1 - 1))) as [r|];
      [|reflexivity].
    simpl. destruct r. apply SeekToLast_walk_set_current.
  - intros Hhash Hprefix. unfold Seek.
    rewrite E2, Hd, E6, Hprefix, E5, Hhash, E4. unfold BinarySeek.
    rewrite (BinarySeek_loop_forgets _ c1 c2 _ _ _ H).
    destruct (BinarySeek_loop (Z.to_nat (u32 (num_restarts_ c1 - 1) - 0) + 1)
                c2 target 0 (u32 (num_restarts_ c1 - 1)))
      as [[c' [index|]]|] eqn:Hloop; [| |reflexivity].
    + apply BinarySeek_loop_result in Hloop. subst c'.
      rewrite (SeekToRestartPoint_forgets c1 c2 index H).
      destruct (SeekToRestartPoint c2 index) as [r|]; [|reflexivity].
      simpl. destruct r. apply Seek_scan_set_current.
    + apply BinarySeek_loop_result in Hloop. subst c'. reflexivity.
Qed.

(** X19.  A seek does not depend on where the cursor was.  Two
    initialized cursors over the same buffer that differ in their position
    only (current offset, restart index, key and value; one of them may be
    invalid or in the state a corruption left it in) are taken to the same
    cursor by [SeekToFirst], by [SeekToLast] and, without hash or prefix
    index, by [Seek]. *)
Theorem seeks_forget_the_position :
  forall (c1 c2 : BlockIter) (target : Bytes),
    same_but_position c1 c2 ->
    data_ c1 <> None ->
    SeekToFirst c1 = SeekToFirst c2 /\
    SeekToLast c1 = SeekToLast c2 /\
    (hash_index_ c1 = None -> prefix_index_ c1 = None ->
     Seek c1 target = Seek c2 target).
Proof. exact seeks_forget. Qed.

Lemma seeks_forget_the_position_witness :
  SeekToFirst cursor_abc_def_at_def = SeekToFirst cursor_abc_def /\
  SeekToLast cursor_abc_def_at_def = SeekToLast cursor_abc_def /\
  (hash_index_ cursor_abc_def_at_def = None ->
   prefix_index_ cursor_abc_def_at_def = None ->
   Seek cursor_abc_def_at_def (bytes_of [98]%N)
   = Seek cursor_abc_def (bytes_of [98]%N)).
Proof.
  apply (seeks_forget_the_position cursor_abc_def_at_def cursor_abc_def
           (bytes_of [98]%N)).
  - split; [repeat split|reflexivity].
  - discriminate.
Defined.

(** X20.  Seeking twice is seeking once.  On a well-formed block, a cursor
    that [SeekToFirst], [SeekToLast] or (without hash or prefix index)
    [Seek(target)] has positioned is left exactly as it is by the same
    call made again. *)
Theorem seeks_are_idempotent :
  forall (cmp : Comparator) (d : Bytes) (es : list Entry) (rs : list Z)
         (c : BlockIter) (target : Bytes),
    well_formed d es rs -> cursor_over d rs c ->
    (exists c', SeekToFirst c = Some c' /\ SeekToFirst c' = Some c') /\
    (exists c', SeekToLast c = Some c' /\ SeekToLast c' = Some c') /\
    (comparator_ c = Some cmp ->
     hash_index_ c = None -> prefix_index_ c = None ->
     exists c', Seek c target = Some c' /\ Seek c' target = Some c').
Proof.
  intros cmp d es rs c target WF Hc.
  pose proof Hc as (Hd & _).
  assert (Hinit : data_ c <> None) by congruence.
  split; [|split].
  - assert (H : exists c', SeekToFirst c = Some c' /\ same_but_position c c').
    { destruct es as [|e es'] eqn:Hes.
      - destruct (SeekToFirst_none d [] rs WF c eq_refl Hc)
          as (c' & Hseek & _ & Hfr & Hst).
        exists c'. split; [exact Hseek|split; assumption].
      - destruct (SeekToFirst_first d _ rs WF c e es' eq_refl Hc)
          as (c' & Hseek & _ & Hfr & Hst & _).
        exists c'. split; [exact Hseek|split; assumption]. }
    destruct H as (c' & Hseek & Hsame).
    exists c'. split; [exact Hseek|].
    rewrite <- (proj1 (seeks_forget c c' target Hsame Hinit)). exact Hseek.
  - assert (H : exists c', SeekToLast c = Some c' /\ same_but_position c c').
    { destruct (nil_or_snoc _ es) as [Hes|(b & e & Hes)].
      - destruct (SeekToLast_none d es rs WF c Hes Hc)
          as (c' & Hseek & _ & Hfr & Hst).
        exists c'. split; [exact Hseek|split; assumption].
      - destruct (SeekToLast_last d es rs WF c b e Hes Hc)
          as (c' & Hseek & _ & Hfr & Hst & _).
        exists c'. split; [exact Hseek|split; assumption]. }
    destruct H as (c' & Hseek & Hsame).
    exists c'. split; [exact Hseek|].
    rewrite <- (proj1 (proj2 (seeks_forget c c' target Hsame Hinit))).
    exact Hseek.
  - intros Hcmp Hhash Hprefix.
    destruct (Seek_positioned cmp d es rs c target WF Hc Hcmp Hhash Hprefix)
      as (c' & Hseek & _ & Hst & Hfr).
    exists c'. split; [exact Hseek|].
    rewrite <- (proj2 (proj2 (seeks_forget c c' target
                                (conj Hfr Hst) Hinit)) Hhash Hprefix).
    exact Hseek.
Qed.

Lemma seeks_are_idempotent_witness :
  (exists c', SeekToFirst cursor_abc_def = Some c' /\
              SeekToFirst c' = Some c') /\
  (exists c', SeekToLast cursor_abc_def = Some c' /\
              SeekToLast c' = Some c') /\
  (comparator_ cursor_abc_def = Some bytewise ->
   hash_index_ cursor_abc_def = None -> prefix_index_ cursor_abc_def = None ->
   exists c', Seek cursor_abc_def (bytes_of [98]%N) = Some c' /\
              Seek c' (bytes_of [98]%N) = Some c').
Proof.
  apply (seeks_are_idempotent bytewise block_abc_def entries_abc_def [0; 7]
           cursor_abc_def (bytes_of [98]%N) well_formed_abc_def).
  repeat split.
Defined.

(** ** There and back *)

(** X21.  [Next] then [Prev] is a round trip: from a cursor that is valid
    at an entry of a well-formed block which has a successor, [Next] moves
    to the successor and [Prev] from there comes back to the entry, with
    the same key and the same value; the status is not touched. *)
Theorem next_prev_round_trip :
  forall (d : Bytes) (es : list Entry) (rs : list Z)
         (before after : list Entry) (e n : Entry) (c : BlockIter),
    well_formed d es rs ->
    es = before ++ e :: n :: after ->
    cursor_at d rs c e ->
    exists c1 c2,
      Next c = Some c1 /\ Valid c1 = true /\ at_entry c1 n /\
      Prev c1 = Some c2 /\ Valid c2 = true /\ at_entry c2 e /\
      key_ c2 = key_ c /\ value_ c2 = value_ c /\ status_ c2 = status_ c.
Proof.
  intros d es rs before after e n c WF Hes Hcat.
  pose proof Hcat as (Hc & Hat & _).
  destruct (Next_successor d es rs WF c before e n after Hes Hcat)
    as (c1 & Hnext & Hat1 & Hfr1 & Hst1 & Hri1).
  assert (Hc1 : cursor_over d rs c1) by (eapply cursor_over_frame; eauto).
  destruct (Prev_predecessor d es rs WF c1 before e n after Hes
              (conj Hc1 (conj Hat1 Hri1)))
    as (c2 & Hprev & Hat2 & Hfr2 & Hst2 & _).
  assert (Hc2 : cursor_over d rs c2) by (eapply cursor_over_frame; eauto).
  exists c1, c2. split; [exact Hnext|].
  split.
  { apply (at_entry_Valid d es rs WF c1 n); auto.
    rewrite Hes. apply in_or_app. right. right. left. reflexivity. }
  split; [exact Hat1|]. split; [exact Hprev|].
  split.
  { apply (at_entry_Valid d es rs WF c2 e); auto. rewrite Hes. apply in_elt. }
  split; [exact Hat2|].
  destruct Hat as (_ & Hk & Hv). destruct Hat2 as (_ & Hk2 & Hv2).
  split; [congruence|]. split; congruence.
Qed.

Lemma next_prev_round_trip_witness :
  exists c1 c2,
    Next cursor_abc_def_at_abc = Some c1 /\ Valid c1 = true /\
    at_entry c1 (mkEntry 7 0 (bytes_of [100; 101; 102]%N) 13 1) /\
    Prev c1 = Some c2 /\ Valid c2 = true /\
    at_entry c2 (mkEntry 0 0 (bytes_of [97; 98; 99]%N) 6 1) /\
    key_ c2 = key_ cursor_abc_def_at_abc /\
    value_ c2 = value_ cursor_abc_def_at_abc /\
    status_ c2 = status_ cursor_abc_def_at_abc.
Proof.
  apply (next_prev_round_trip block_abc_def entries_abc_def [0; 7] [] []
           (mkEntry 0 0 (bytes_of [97; 98; 99]%N) 6 1)
           (mkEntry 7 0 (bytes_of [100; 101; 102]%N) 13 1)
           cursor_abc_def_at_abc well_formed_abc_def eq_refl).
  split; [repeat split|]. split; [repeat split|]. crunch.
Defined.

(** ** Opening a well-formed block *)

(** X22.  [NewIterator] over a well-formed block to which a hash and a
    prefix index have been attached.  The constructor accepts the buffer,
    and [NewIterator] hands out a cursor that reads the block with the
    comparator given, not yet valid, with the status of the cursor passed
    in (OK for a fresh one); with [total_order_seek] both indexes are left
    out of the cursor, otherwise both are attached. *)
Theorem NewIterator_on_well_formed_block :
  forall (d : Bytes) (es : list Entry) (rs : list Z) (cmp : Comparator)
         (iter : option BlockIter) (total_order_seek : bool)
         (hash_index : BlockHashIndex) (prefix_index : BlockPrefixIndex),
    well_formed d es rs ->
    exists b c,
      Block_Block d = Some b /\
      NewIterator (SetBlockPrefixIndex (SetBlockHashIndex b hash_index)
                     prefix_index)
        cmp iter total_order_seek
      = Some (BlockIterator c) /\
      cursor_over d rs c /\ comparator_ c = Some cmp /\
      invalidated c /\
      hash_index_ c = (if total_order_seek then None else Some hash_index) /\
      prefix_index_ c
      = (if total_order_seek then None else Some prefix_index) /\
      status_ c = match iter with Some it => status_ it | None => OK end.
Proof.
  intros d es rs cmp iter tos hi pi WF.
  destruct (wf_bounds d es rs WF) as [HR Hnr].
  pose proof (wf_num_restarts _ _ _ WF) as Hnum.
  pose proof (len_nonneg d) as Hlen.
  assert (Hlen' : len d = restarts_of d rs + (num_restarts_of rs + 1) * 4)
    by (unfold restarts_of, num_restarts_of; lia).
  exists (mkBlock d (len d) (restarts_of d rs) None None).
  exists (Initialize (match iter with Some it => it | None => BlockIter_default end)
            cmp d (restarts_of d rs) (num_restarts_of rs)
            (if tos then None else Some hi) (if tos then None else Some pi)).
  split; [exact (Block_Block_well_formed d es rs WF)|].
  split.
  { unfold NewIterator. simpl.
    replace (len d <? kMinBlockSize) with false
      by (symmetry; apply Z.ltb_ge; unfold kMinBlockSize; lia).
    rewrite Hnum.
    replace (num_restarts_of rs =? 0) with false
      by (symmetry; apply Z.eqb_neq; lia).
    destruct iter; reflexivity. }
  split; [repeat split|]. split; [reflexivity|].
  split.
  { split; [|split; reflexivity]. unfold Valid. simpl. apply Z.ltb_irrefl. }
  split; [reflexivity|]. split; [reflexivity|].
  destruct iter; reflexivity.
Qed.

Lemma NewIterator_on_well_formed_block_witness :
  exists b c,
    Block_Block block_a_cd_f = Some b /\
    NewIterator (SetBlockPrefixIndex (SetBlockHashIndex b hash_index_1_2)
                   prefix_index_0_2)
      bytewise None false
    = Some (BlockIterator c) /\
    cursor_over block_a_cd_f [0; 4; 12] c /\ comparator_ c = Some bytewise /\
    invalidated c /\
    hash_index_ c = Some hash_index_1_2 /\
    prefix_index_ c = Some prefix_index_0_2 /\
    status_ c = OK.
Proof.
  apply (NewIterator_on_well_formed_block block_a_cd_f entries_a_cd_f
           [0; 4; 12] bytewise None false hash_index_1_2 prefix_index_0_2).
  exact well_formed_a_cd_f.
Defined.

(** ** Damaged restart points *)

(** The first parse after [SeekToRestartPoint(i)]. *)
Lemma ParseNextKey_at_restart_point : forall c d i r c0,
  data_ c = Some d -> GetRestartPoint c i = Some r ->
  SeekToRestartPoint c i = Some c0 ->
  (r < restarts_ c -> probe_fails c d r ->
   ParseNextKey c0 = Some (CorruptionError c, false)) /\
  (restarts_ c <= r ->
   exists c', ParseNextKey c0 = Some (c', false) /\ invalidated c' /\
              status_ c' = status_ c /\ same_frame c c').
Proof.
  intros c d i r c0 Hd Hr Hseek.
  unfold SeekToRestartPoint in Hseek.
  change (GetRestartPoint (set_restart_index (set_key c []) i) i)
    with (GetRestartPoint c i) in Hseek.
  rewrite Hr in Hseek. injection Hseek as <-.
  assert (Hr32 : 0 <= r < 2 ^ 32).
  { unfold GetRestartPoint in Hr. rewrite Hd in Hr.
    apply DecodeFixed32_Some in Hr. lia. }
  assert (Hoff : u32 (r + 0) = r) by (rewrite Z.add_0_r; apply u32_small; lia).
  split.
  - intros Hlt Hfail. unfold ParseNextKey, NextEntryOffset. simpl.
    rewrite Hd, Hoff.
    replace (restarts_ c <=? r) with false by (symmetry; apply Z.leb_gt; lia).
    destruct Hfail as [Hnone|(h & Hh & Hsh)].
    + rewrite Hnone. destruct c; reflexivity.
    + rewrite Hh. pose proof (DecodeEntry_Some _ _ _ _ Hh) as (_ & Hsh0 & _).
      replace (len [] <? shared h) with true
        by (symmetry; apply Z.ltb_lt; unfold len; simpl; lia).
      destruct c; reflexivity.
  - intros Hge. unfold ParseNextKey, NextEntryOffset. simpl.
    rewrite Hd, Hoff.
    replace (restarts_ c <=? r) with true by (symmetry; apply Z.leb_le; lia).
    eexists. split; [reflexivity|].
    split; [|split; [reflexivity|repeat split]].
    split; [|split; reflexivity]. unfold Valid. simpl. apply Z.ltb_irrefl.
Qed.

(** X23.  An entry at a restart point must decode and share nothing.
    [SeekToFirst] and [SeekToLast] start from a cleared key, so when the
    entry at their restart point (the first, the last) lies in front of the
    restart array and does not decode, or declares a shared prefix, they
    end in the state of [CorruptionError]. *)
Theorem seek_to_damaged_restart_point_is_corruption :
  forall (c : BlockIter) (d : Bytes) (i r : Z),
    data_ c = Some d ->
    GetRestartPoint c i = Some r -> r < restarts_ c ->
    probe_fails c d r ->
    (i = 0 -> SeekToFirst c = Some (CorruptionError c)) /\
    (i = u32 (num_restarts_ c - 1) -> SeekToLast c = Some (CorruptionError c)).
Proof.
  intros c d i r Hd Hr Hlt Hfail.
  assert (Hseek : exists c0, SeekToRestartPoint c i = Some c0).
  { unfold SeekToRestartPoint.
    change (GetRestartPoint (set_restart_index (set_key c []) i) i)
      with (GetRestartPoint c i).
    rewrite Hr. eexists. reflexivity. }
  destruct Hseek as [c0 Hseek].
  destruct (ParseNextKey_at_restart_point c d i r c0 Hd Hr Hseek)
    as [Hparse _].
  specialize (Hparse Hlt Hfail).
  split; intros ->.
  - unfold SeekToFirst. rewrite Hd, Hseek, Hparse. reflexivity.
  - unfold SeekToLast. rewrite Hd, Hseek.
    replace (Z.to_nat (restarts_ c0) + 2)%nat
      with (S (Z.to_nat (restarts_ c0) + 1)) by lia.
    simpl. rewrite Hparse. reflexivity.
Qed.

Lemma seek_to_damaged_restart_point_is_corruption_witness :
  SeekToFirst cursor_shared_at_restart
  = Some (CorruptionError cursor_shared_at_restart) /\
  SeekToLast cursor_shared_at_restart
  = Some (CorruptionError cursor_shared_at_restart).
Proof.
  destruct (seek_to_damaged_restart_point_is_corruption
              cursor_shared_at_restart block_shared_at_restart 0 0
              eq_refl eq_refl eq_refl) as [H1 H2].
  - right. exists (mkHeader 3 1 1 0). split; [reflexivity|discriminate].
  - split; [apply H1|apply H2]; reflexivity.
Defined.

(** X24.  A restart offset that points at or behind the restart array is
    treated in two ways.  [SeekToFirst] and [SeekToLast], finding it at
    their restart point, take the block to be at its end: the cursor
    becomes invalid and the status is not touched.  A probe of the binary
    searches ([CompareBlockKey], and the loop of [BinarySeek]) at a restart
    point with such an offset reports corruption. *)
Theorem restart_offset_behind_entries :
  forall (c : BlockIter) (d : Bytes) (i r : Z) (target : Bytes),
    data_ c = Some d ->
    GetRestartPoint c i = Some r -> restarts_ c <= r ->
    (i = 0 ->
     exists c', SeekToFirst c = Some c' /\ invalidated c' /\
                status_ c' = status_ c) /\
    (i = u32 (num_restarts_ c - 1) ->
     exists c', SeekToLast c = Some c' /\ invalidated c' /\
                status_ c' = status_ c) /\
    CompareBlockKey c i target = Some (CorruptionError c, 1) /\
    (forall fuel left right,
       BinarySeek_mid left right = i -> left < right ->
       BinarySeek_loop (S fuel) c target left right
       = Some (CorruptionError c, None)).
Proof.
  intros c d i r target Hd Hr Hge.
  assert (Hseek : exists c0, SeekToRestartPoint c i = Some c0).
  { unfold SeekToRestartPoint.
    change (GetRestartPoint (set_restart_index (set_key c []) i) i)
      with (GetRestartPoint c i).
    rewrite Hr. eexists. reflexivity. }
  destruct Hseek as [c0 Hseek].
  destruct (ParseNextKey_at_restart_point c d i r c0 Hd Hr Hseek)
    as [_ Hparse].
  destruct (Hparse Hge) as (c' & Hp & Hinv & Hst & _).
  assert (Hnone : DecodeEntry d r (restarts_ c) = None).
  { unfold DecodeEntry.
    replace (restarts_ c - r <? 3) with true
      by (symmetry; apply Z.ltb_lt; lia).
    reflexivity. }
  split; [|split; [|split]].
  - intros ->. exists c'. split; [|split; assumption].
    unfold SeekToFirst. rewrite Hd, Hseek, Hp. reflexivity.
  - intros ->. exists c'. split; [|split; assumption].
    unfold SeekToLast. rewrite Hd, Hseek.
    replace (Z.to_nat (restarts_ c0) + 2)%nat
      with (S (Z.to_nat (restarts_ c0) + 1)) by lia.
    simpl. rewrite Hp. reflexivity.
  - unfold CompareBlockKey. rewrite Hr, Hd, Hnone. reflexivity.
  - intros fuel left right Hmid Hlt. simpl.
    replace (left <? right) with true by (symmetry; apply Z.ltb_lt; lia).
    unfold BinarySeek_probe. rewrite Hmid, Hr, Hd, Hnone. reflexivity.
Qed.

Lemma restart_offset_behind_entries_witness :
  (exists c', SeekToFirst cursor_restart_beyond = Some c' /\ invalidated c' /\
              status_ c' = status_ cursor_restart_beyond) /\
  CompareBlockKey cursor_restart_beyond 0 (bytes_of [97]%N)
  = Some (CorruptionError cursor_restart_beyond, 1).
Proof.
  destruct (restart_offset_behind_entries cursor_restart_beyond
              block_restart_beyond 0 9 (bytes_of [97]%N) eq_refl eq_refl)
    as (H1 & _ & H3 & _).
  - vm_compute. intros H; discriminate H.
  - split; [apply H1; reflexivity|exact H3].
Defined.

(** ** Arbitrary block contents *)





Section Robust.

Variables (cmp : Comparator) (d : Bytes).













End Robust.





(** ** The entry in front of a target *)

Lemma first_split_unique : forall (A : Type) (P : A -> Prop) b1 x1 a1 b2 x2 a2,
  b1 ++ x1 :: a1 = b2 ++ x2 :: a2 ->
  Forall P b1 -> ~ P x1 -> Forall P b2 -> ~ P x2 ->
  b1 = b2 /\ x1 = x2 /\ a1 = a2.
Proof.
  intros A P b1. induction b1 as [|y b1 IH];
    intros x1 a1 b2 x2 a2 H H1 Hx1 H2 Hx2; destruct b2 as [|z b2];
    simpl in H.
  - injection H as -> ->. auto.
  - injection H as -> _. inversion H2; subst. contradiction.
  - injection H as -> _. inversion H1; subst. contradiction.
  - injection H as -> H. inversion H1; subst. inversion H2; subst.
    destruct (IH x1 a1 b2 x2 a2 H) as (-> & -> & ->); auto.
Qed.

(** X26.  [Seek] then [Prev] finds the last key below the target.  On an
    ordered well-formed block (cursor without hash or prefix index), let
    [p] and [e] be neighbours with key(p) < target <= key(e): [Seek]
    lands on [e], and [Prev] from there lands on [p].  When the first
    entry already has a key >= target, [Seek] lands on it and [Prev] leaves
    the cursor invalid.  The status is not touched. *)
Theorem Seek_then_Prev_finds_last_key_below :
  forall (cmp : Comparator) (d : Bytes) (es : list Entry) (rs : list Z)
         (c : BlockIter) (target : Bytes),
    total_order cmp -> well_formed d es rs ->
    keys_ascending cmp es -> restart_keys_strict cmp es rs ->
    cursor_over d rs c -> comparator_ c = Some cmp ->
    hash_index_ c = None -> prefix_index_ c = None ->
    (forall before p e after,
       es = before ++ p :: e :: after ->
       cmp (e_key p) target < 0 -> 0 <= cmp (e_key e) target ->
       exists c1 c2,
         Seek c target = Some c1 /\ Valid c1 = true /\ at_entry c1 e /\
         Prev c1 = Some c2 /\ Valid c2 = true /\ at_entry c2 p /\
         status_ c2 = status_ c) /\
    (forall e after,
       es = e :: after -> 0 <= cmp (e_key e) target ->
       exists c1 c2,
         Seek c target = Some c1 /\ Valid c1 = true /\ at_entry c1 e /\
         Prev c1 = Some c2 /\ invalidated c2 /\ status_ c2 = status_ c).
Proof.
  intros cmp d es rs c target ORD WF ASC STR Hc Hcmp Hhash Hprefix.
  destruct (Seek_lower_bound cmp d es rs c target ORD WF ASC STR Hc Hcmp
              Hhash Hprefix)
    as (c1 & Hseek & Hst & Hfr & Hri & Hres).
  assert (Hc1 : cursor_over d rs c1) by (eapply cursor_over_frame; eauto).
  assert (Hlands : forall before e after,
            es = before ++ e :: after ->
            Forall (below cmp target) before -> 0 <= cmp (e_key e) target ->
            Valid c1 = true /\ at_entry c1 e /\ cursor_at d rs c1 e).
  { intros before e after Hes Hb Hge.
    destruct Hres as [(b' & e' & a' & Hes' & Hat & Hge' & Hb')|(_ & Hall)].
    - rewrite Hes in Hes'.
      destruct (first_split_unique _ (below cmp target) _ _ _ _ _ _ Hes'
                  Hb ltac:(unfold below; lia) Hb' ltac:(unfold below; lia))
        as (_ & <- & _).
      assert (Hv : Valid c1 = true).
      { apply (at_entry_Valid d es rs WF c1 e); auto.
        rewrite Hes. apply in_elt. }
      split; [exact Hv|]. split; [exact Hat|].
      split; [exact Hc1|]. split; [exact Hat|exact (Hri Hv)].
    - exfalso. rewrite Forall_forall in Hall.
      specialize (Hall e ltac:(rewrite Hes; apply in_elt)).
      unfold below in Hall. lia. }
  split.
  - intros before p e after Hes Hp He.
    assert (Hes' : es = (before ++ [p]) ++ e :: after)
      by (rewrite Hes, <- app_assoc; reflexivity).
    destruct (Hlands (before ++ [p]) e after Hes') as (Hv & Hat & Hcat);
      [|exact He|].
    { apply Forall_app. split; [|constructor; [exact Hp|constructor]].
      unfold keys_ascending in ASC. rewrite Hes in ASC.
      apply sorted_app_left in ASC.
      eapply Forall_impl; [|exact ASC]. simpl. intros x Hx. unfold below.
      eapply cmp_le_lt_trans; eauto. }
    destruct (Prev_predecessor d es rs WF c1 before p e after Hes Hcat)
      as (c2 & Hprev & Hat2 & Hfr2 & Hst2 & _).
    exists c1, c2. split; [exact Hseek|]. split; [exact Hv|].
    split; [exact Hat|]. split; [exact Hprev|].
    split.
    { apply (at_entry_Valid d es rs WF c2 p);
        [eapply cursor_over_frame; eauto|rewrite Hes; apply in_elt|exact Hat2]. }
    split; [exact Hat2|congruence].
  - intros e after Hes He.
    destruct (Hlands [] e after Hes ltac:(constructor) He) as (Hv & Hat & Hcat).
    destruct (Prev_first d es rs WF c1 e after Hes Hcat)
      as (c2 & Hprev & Hinv & _ & Hst2 & _).
    exists c1, c2. split; [exact Hseek|]. split; [exact Hv|].
    split; [exact Hat|]. split; [exact Hprev|]. split; [exact Hinv|congruence].
Qed.

Lemma Seek_then_Prev_finds_last_key_below_witness :
  exists c1 c2,
    Seek cursor_a_cd_f (bytes_of [101]%N) = Some c1 /\ Valid c1 = true /\
    at_entry c1 (mkEntry 12 0 (bytes_of [102]%N) 16 0) /\
    Prev c1 = Some c2 /\ Valid c2 = true /\
    at_entry c2 (mkEntry 8 0 (bytes_of [100]%N) 12 0) /\
    status_ c2 = status_ cursor_a_cd_f.
Proof.
  apply (proj1 (Seek_then_Prev_finds_last_key_below bytewise block_a_cd_f
                  entries_a_cd_f [0; 4; 12] cursor_a_cd_f (bytes_of [101]%N)
                  bytewise_total_order well_formed_a_cd_f
                  ltac:(repeat constructor; crunch)
                  ltac:(apply keys_increasing_restart_keys_strict;
                        repeat constructor)
                  ltac:(repeat split) eq_refl eq_refl eq_refl)
           [mkEntry 0 0 (bytes_of [97]%N) 4 0; mkEntry 4 0 (bytes_of [99]%N) 8 0]
           (mkEntry 8 0 (bytes_of [100]%N) 12 0)
           (mkEntry 12 0 (bytes_of [102]%N) 16 0) []).
  - reflexivity.
  - reflexivity.
  - discriminate.
Defined.

(** ** The prefix-index seek and seek monotonicity *)



Section EveryEntryRestarts.

Variables (cmp : Comparator) (d : Bytes) (es : list Entry) (rs : list Z).
Hypothesis WF : well_formed d es rs.
Hypothesis ALL : rs = map e_off es.




End EveryEntryRestarts.





(** ** Operations that meet a decode failure *)

Lemma CorruptionError_frame : forall c c',
  same_frame c c' -> CorruptionError c' = CorruptionError c.
Proof.
  intros c c' (H1 & H2 & H3 & H4 & H5 & H6). unfold CorruptionError.
  rewrite H1, H2, H3, H4, H5, H6. reflexivity.
Qed.

Lemma decode_fails_ParseNextKey : forall c,
  decode_fails c -> ParseNextKey c = Some (CorruptionError c, false).
Proof.
  intros c (d & off & Hd & Hoff & Hlt & Hfail). unfold ParseNextKey.
  rewrite Hd, Hoff. simpl.
  replace (restarts_ c <=? off) with false by (symmetry; apply Z.leb_gt; lia).
  destruct Hfail as [-> |(h & -> & Hsh)].
  - destruct c; reflexivity.
  - replace (len (key_ c) <? shared h) with true
      by (symmetry; apply Z.ltb_lt; lia).
    destruct c; reflexivity.
Qed.

Lemma probe_fails_CompareBlockKey : forall c i target,
  probe_fails_at c i ->
  CompareBlockKey c i target = Some (CorruptionError c, 1).
Proof.
  intros c i target (d & r & Hd & Hr & Hfail).
  unfold CompareBlockKey. rewrite Hr, Hd.
  destruct Hfail as [-> |(h & -> & Hsh)]; [reflexivity|].
  replace (shared h =? 0) with false by (symmetry; apply Z.eqb_neq; lia).
  reflexivity.
Qed.

Lemma probe_fails_BinarySeek_probe : forall c target l r,
  probe_fails_at c (BinarySeek_mid l r) ->
  BinarySeek_probe c target l r = Some ProbeCorrupt.
Proof.
  intros c target l r (d & rp & Hd & Hr & Hfail).
  unfold BinarySeek_probe. rewrite Hr, Hd.
  destruct Hfail as [-> |(h & -> & Hsh)]; [reflexivity|].
  replace (shared h =? 0) with false by (symmetry; apply Z.eqb_neq; lia).
  reflexivity.
Qed.

(** The loop of [BinarySeek] comes to every state it reaches with fuel to
    spare. *)
Lemma BinarySeek_loop_reaches : forall c target l0 r0 l r,
  0 <= l0 <= r0 -> r0 < 2 ^ 31 ->
  BinarySeek_reaches c target l0 r0 l r ->
  forall fuel, r0 - l0 < Z.of_nat fuel ->
  exists fuel',
    r - l < Z.of_nat fuel' /\
    BinarySeek_loop fuel c target l0 r0 = BinarySeek_loop fuel' c target l r.
Proof.
  intros c target l0 r0 l r H0 Hr0 Hreach.
  induction Hreach as [|l r p l' r' Hreach IH Hlr Hp Hb]; intros fuel Hfuel.
  - exists fuel. split; [exact Hfuel|reflexivity].
  - destruct (IH fuel Hfuel) as (fuel1 & Hf1 & Heq).
    destruct (BinarySeek_reaches_range _ _ _ _ _ _ H0 Hr0 Hreach)
      as (R1 & R2 & R3).
    assert (Hr0' : r0 < 2147483648) by exact Hr0.
    pose proof (BinarySeek_mid_bounds l r ltac:(lia) Hlr ltac:(lia)) as [_ Hm].
    destruct fuel1 as [|fuel1]; [simpl in Hf1; lia|].
    exists fuel1. split.
    + pose proof (BinarySeek_probe_mid _ _ _ _ _ Hp) as Hmid.
      destruct p as [|mid|mid|mid]; simpl in Hb; try discriminate;
        injection Hb as <- <-; subst mid.
      * lia.
      * rewrite u32_small by (change (2 ^ 32) with 4294967296; lia). lia.
      * lia.
    + rewrite Heq. simpl.
      replace (l <? r) with true by (symmetry; apply Z.ltb_lt; lia).
      rewrite Hp. simpl. rewrite Hb. reflexivity.
Qed.

Lemma BinarySeek_meets_failure : forall c target l0 r0 l r,
  0 <= l0 <= r0 -> r0 < 2 ^ 31 ->
  BinarySeek_reaches c target l0 r0 l r -> l < r ->
  probe_fails_at c (BinarySeek_mid l r) ->
  BinarySeek c target l0 r0 = Some (CorruptionError c, None).
Proof.
  intros c target l0 r0 l r H0 Hr0 Hreach Hlr Hfail.
  unfold BinarySeek.
  destruct (BinarySeek_loop_reaches c target l0 r0 l r H0 Hr0 Hreach
              (Z.to_nat (r0 - l0) + 1) ltac:(lia)) as (fuel & Hfuel & ->).
  destruct fuel as [|fuel]; [simpl in Hfuel; lia|]. simpl.
  replace (l <? r) with true by (symmetry; apply Z.ltb_lt; lia).
  rewrite (probe_fails_BinarySeek_probe c target l r Hfail). reflexivity.
Qed.

(** The same for the loop of [BinaryBlockIndexSeek]. *)
Lemma BinaryBlockIndexSeek_reaches_range : forall c target ids l0 r0 l r,
  0 <= l0 -> r0 < 2 ^ 31 ->
  BinaryBlockIndexSeek_reaches c target ids l0 r0 l r ->
  l0 <= l /\ r <= r0.
Proof.
  intros c target ids l0 r0 l r H0 Hr0 Hreach.
  change (2 ^ 31) with 2147483648 in Hr0.
  induction Hreach as [|l r id v Hreach IH Hlr Hid Hc Hv
                       |l r id v Hreach IH Hlr Hid Hc Hv]; [lia| |].
  - destruct IH as [I1 I2].
    rewrite (u32_small (l + r)) by (change (2 ^ 32) with 4294967296; lia).
    assert (l <= (l + r) / 2 <= r) by (Z.div_mod_to_equations; lia).
    rewrite u32_small by (change (2 ^ 32) with 4294967296; lia). lia.
  - destruct IH as [I1 I2].
    rewrite (u32_small (l + r)) by (change (2 ^ 32) with 4294967296; lia).
    assert (l <= (l + r) / 2 <= r) by (Z.div_mod_to_equations; lia). lia.
Qed.

Lemma BinaryBlockIndexSeek_loop_reaches : forall c target ids l0 r0 l r,
  status_ c = OK -> 0 <= l0 -> r0 < 2 ^ 31 ->
  BinaryBlockIndexSeek_reaches c target ids l0 r0 l r ->
  forall fuel, r0 - l0 + 1 < Z.of_nat fuel ->
  exists fuel',
    r - l + 1 < Z.of_nat fuel' /\
    BinaryBlockIndexSeek_loop fuel c target ids l0 r0
    = BinaryBlockIndexSeek_loop fuel' c target ids l r.
Proof.
  intros c target ids l0 r0 l r Hst H0 Hr0 Hreach.
  induction Hreach as [|l r id v Hreach IH Hlr Hid Hc Hv
                       |l r id v Hreach IH Hlr Hid Hc Hv]; intros fuel Hfuel.
  - exists fuel. split; [exact Hfuel|reflexivity].
  - destruct (IH fuel Hfuel) as (fuel1 & Hf1 & Heq).
    destruct (BinaryBlockIndexSeek_reaches_range _ _ _ _ _ _ _ H0 Hr0 Hreach)
      as [R1 R2].
    assert (Hr0' : r0 < 2147483648) by exact Hr0.
    destruct fuel1 as [|fuel1]; [simpl in Hf1; lia|].
    exists fuel1.
    assert (Hmid : u32 (l + r) / 2 = (l + r) / 2)
      by (rewrite u32_small by (change (2 ^ 32) with 4294967296; lia);
          reflexivity).
    assert (Hm : l <= (l + r) / 2 <= r) by (Z.div_mod_to_equations; lia).
    split.
    + rewrite Hmid.
      rewrite u32_small by (change (2 ^ 32) with 4294967296; lia). lia.
    + rewrite Heq. simpl.
      replace (l <=? r) with true by (symmetry; apply Z.leb_le; lia).
      rewrite Hid. simpl. rewrite Hc. simpl. rewrite Hst. simpl.
      replace (v <? 0) with true by (symmetry; apply Z.ltb_lt; lia).
      reflexivity.
  - destruct (IH fuel Hfuel) as (fuel1 & Hf1 & Heq).
    destruct (BinaryBlockIndexSeek_reaches_range _ _ _ _ _ _ _ H0 Hr0 Hreach)
      as [R1 R2].
    assert (Hr0' : r0 < 2147483648) by exact Hr0.
    destruct fuel1 as [|fuel1]; [simpl in Hf1; lia|].
    exists fuel1.
    assert (Hmid : u32 (l + r) / 2 = (l + r) / 2)
      by (rewrite u32_small by (change (2 ^ 32) with 4294967296; lia);
          reflexivity).
    assert (Hm : l <= (l + r) / 2 < r) by (Z.div_mod_to_equations; lia).
    split.
    + rewrite Hmid. lia.
    + rewrite Heq. simpl.
      replace (l <=? r) with true by (symmetry; apply Z.leb_le; lia).
      rewrite Hid. simpl. rewrite Hc. simpl. rewrite Hst. simpl.
      replace (v <? 0) with false by (symmetry; apply Z.ltb_ge; lia).
      replace (l =? r) with false by (symmetry; apply Z.eqb_neq; lia).
      reflexivity.
Qed.

Lemma BinaryBlockIndexSeek_meets_failure : forall c target ids l0 r0 l r id,
  status_ c = OK -> 0 <= l0 -> r0 < 2 ^ 31 ->
  BinaryBlockIndexSeek_reaches c target ids l0 r0 l r -> l <= r ->
  block_id ids (u32 (l + r) / 2) = Some id ->
  probe_fails_at c id ->
  BinaryBlockIndexSeek c target ids l0 r0 = Some (CorruptionError c, None).
Proof.
  intros c target ids l0 r0 l r id Hst H0 Hr0 Hreach Hlr Hid Hfail.
  unfold BinaryBlockIndexSeek.
  destruct (BinaryBlockIndexSeek_reaches_range _ _ _ _ _ _ _ H0 Hr0 Hreach)
    as [R1 R2].
  destruct (BinaryBlockIndexSeek_loop_reaches c target ids l0 r0 l r Hst H0 Hr0
              Hreach (Z.to_nat (r0 - l0) + 2) ltac:(lia))
    as (fuel & Hfuel & ->).
  destruct fuel as [|fuel]; [simpl in Hfuel; lia|]. simpl.
  replace (l <=? r) with true by (symmetry; apply Z.leb_le; lia).
  rewrite Hid. simpl.
  rewrite (probe_fails_CompareBlockKey c id target Hfail). reflexivity.
Qed.

(** The gap check of [BinaryBlockIndexSeek] on a restart point that fails
    to decode. *)
Lemma BinaryBlockIndexSeek_settle_meets_failure :
  forall c target ids left_bound left id,
    0 <= left_bound <= left -> left < 2 ^ 32 -> 0 < id < 2 ^ 32 ->
    block_id ids left = Some id ->
    gap_before ids left_bound left id ->
    probe_fails_at c (id - 1) ->
    BinaryBlockIndexSeek_settle c target ids left_bound left left
    = Some (CorruptionError c, None).
Proof.
  intros c target ids lb l id Hl Hl32 Hid32 Hid Hgap Hfail.
  unfold BinaryBlockIndexSeek_settle. rewrite Z.eqb_refl, Hid. simpl.
  replace (0 <? id) with true by (symmetry; apply Z.ltb_lt; lia).
  rewrite (u32_small (id - 1)) by lia.
  rewrite (probe_fails_CompareBlockKey c (id - 1) target Hfail).
  destruct (l =? lb) eqn:Elb; [reflexivity|].
  apply Z.eqb_neq in Elb. rewrite (u32_small (l - 1)) by lia.
  destruct Hgap as [Hgap|Hgap]; [lia|].
  destruct (block_id_Some _ _ _ Hid) as [Hrange _].
  destruct (block_id_defined ids (l - 1) ltac:(lia)) as [prev Hprev].
  rewrite Hprev. simpl.
  replace (prev =? id - 1) with false
    by (symmetry; apply Z.eqb_neq; congruence).
  reflexivity.
Qed.

(** A successful [ParseNextKey] moves on by at least three bytes and stays
    in front of the restart array. *)
Lemma ParseNextKey_advances : forall c c1,
  restarts_ c < 2 ^ 32 ->
  ParseNextKey c = Some (c1, true) ->
  same_frame c c1 /\
  exists off off1,
    NextEntryOffset c = Some off /\ NextEntryOffset c1 = Some off1 /\
    0 <= off /\ off + 3 <= off1 <= restarts_ c.
Proof.
  intros c c1 HR Hp.
  pose proof (ParseNextKey_frame _ _ _ Hp) as Hfr.
  split; [exact Hfr|].
  apply ParseNextKey_true in Hp.
  destruct Hp as (d & off & h & delta & Hd & Hoff & Hlt & Hh & _ & _ & Hadv).
  apply advance_restart_index_frame in Hadv. destruct Hadv as [ri ->].
  pose proof (NextEntryOffset_Some _ _ Hoff) as (o & n & _ & _ & Hrange).
  destruct (DecodeEntry_end d off (restarts_ c) h ltac:(lia) HR Hh)
    as [He1 He2].
  exists off, (key_ptr h + u32 (non_shared h + value_length h)).
  split; [exact Hoff|]. split; [|lia].
  unfold NextEntryOffset. simpl. rewrite Hd, He1. reflexivity.
Qed.

Lemma walk_on : forall c c1 off fuel,
  restarts_ c < 2 ^ 32 ->
  ParseNextKey c = Some (c1, true) ->
  NextEntryOffset c = Some off ->
  Z.max 0 (restarts_ c - off) < Z.of_nat (S fuel) ->
  same_frame c c1 /\ restarts_ c1 < 2 ^ 32 /\
  exists off1,
    NextEntryOffset c1 = Some off1 /\
    Z.max 0 (restarts_ c1 - off1) < Z.of_nat fuel.
Proof.
  intros c c1 off fuel HR Hp Hoff Hfuel.
  destruct (ParseNextKey_advances c c1 HR Hp)
    as (Hfr & off0 & off1 & Hoff0 & Hoff1 & H0 & Hstep).
  rewrite Hoff in Hoff0. injection Hoff0 as <-.
  pose proof Hfr as (_ & _ & Hr1 & _).
  split; [exact Hfr|]. split; [rewrite Hr1; exact HR|].
  exists off1. split; [exact Hoff1|]. rewrite Hr1. lia.
Qed.

Lemma SeekToLast_walk_meets_failure : forall c cn,
  walks SeekToLast_goes_on c cn -> decode_fails cn ->
  forall fuel off,
    restarts_ c < 2 ^ 32 ->
    NextEntryOffset c = Some off ->
    Z.max 0 (restarts_ c - off) < Z.of_nat fuel ->
    SeekToLast_walk fuel c = Some (CorruptionError c).
Proof.
  intros c cn Hwalk Hfail.
  induction Hwalk as [c|c c1 c2 Hp Hon Hwalk IH];
    intros fuel off HR Hoff Hfuel;
    (destruct fuel as [|fuel]; [simpl in Hfuel; lia|]); simpl.
  - rewrite (decode_fails_ParseNextKey c Hfail). reflexivity.
  - rewrite Hp.
    destruct (walk_on c c1 off fuel HR Hp Hoff Hfuel)
      as (Hfr & HR1 & off1 & Hoff1 & Hfuel1).
    destruct Hon as (off1' & Hoff1' & Hlt).
    rewrite Hoff1'.
    replace (off1' <? restarts_ c1) with true
      by (symmetry; apply Z.ltb_lt; lia).
    rewrite Hoff1 in Hoff1'. injection Hoff1' as <-.
    rewrite (IH Hfail fuel off1 HR1 Hoff1 Hfuel1).
    rewrite (CorruptionError_frame c c1 Hfr). reflexivity.
Qed.

Lemma Prev_walk_meets_failure : forall original c cn,
  walks (Prev_goes_on original) c cn -> decode_fails cn ->
  forall fuel off,
    restarts_ c < 2 ^ 32 ->
    NextEntryOffset c = Some off ->
    Z.max 0 (restarts_ c - off) < Z.of_nat fuel ->
    Prev_walk fuel original c = Some (CorruptionError c).
Proof.
  intros original c cn Hwalk Hfail.
  induction Hwalk as [c|c c1 c2 Hp Hon Hwalk IH];
    intros fuel off HR Hoff Hfuel;
    (destruct fuel as [|fuel]; [simpl in Hfuel; lia|]); simpl.
  - rewrite (decode_fails_ParseNextKey c Hfail). reflexivity.
  - rewrite Hp.
    destruct (walk_on c c1 off fuel HR Hp Hoff Hfuel)
      as (Hfr & HR1 & off1 & Hoff1 & Hfuel1).
    destruct Hon as (off1' & Hoff1' & Hlt).
    rewrite Hoff1'.
    replace (off1' <? original) with true
      by (symmetry; apply Z.ltb_lt; lia).
    rewrite Hoff1 in Hoff1'. injection Hoff1' as <-.
    rewrite (IH Hfail fuel off1 HR1 Hoff1 Hfuel1).
    rewrite (CorruptionError_frame c c1 Hfr). reflexivity.
Qed.

Lemma Seek_scan_meets_failure : forall target c cn,
  walks (Seek_goes_on target) c cn -> decode_fails cn ->
  forall fuel off,
    restarts_ c < 2 ^ 32 ->
    NextEntryOffset c = Some off ->
    Z.max 0 (restarts_ c - off) < Z.of_nat fuel ->
    Seek_scan fuel c target = Some (CorruptionError c).
Proof.
  intros target c cn Hwalk Hfail.
  induction Hwalk as [c|c c1 c2 Hp Hon Hwalk IH];
    intros fuel off HR Hoff Hfuel;
    (destruct fuel as [|fuel]; [simpl in Hfuel; lia|]); simpl.
  - rewrite (decode_fails_ParseNextKey c Hfail). reflexivity.
  - rewrite Hp. simpl.
    destruct (walk_on c c1 off fuel HR Hp Hoff Hfuel)
      as (Hfr & HR1 & off1 & Hoff1 & Hfuel1).
    destruct Hon as (v & Hv & Hlt).
    rewrite Hv. simpl.
    replace (0 <=? v) with false by (symmetry; apply Z.leb_gt; lia).
    rewrite (IH Hfail fuel off1 HR1 Hoff1 Hfuel1).
    rewrite (CorruptionError_frame c c1 Hfr). reflexivity.
Qed.

(** Where a loop starts after [SeekToRestartPoint]. *)
Lemma SeekToRestartPoint_start : forall c i c0,
  restarts_ c < 2 ^ 32 ->
  SeekToRestartPoint c i = Some c0 ->
  same_frame c c0 /\ restarts_ c0 < 2 ^ 32 /\
  (exists d, data_ c = Some d) /\
  exists off,
    NextEntryOffset c0 = Some off /\
    Z.max 0 (restarts_ c0 - off) < Z.of_nat (Z.to_nat (restarts_ c0) + 2).
Proof.
  intros c i c0 HR Hseek. unfold SeekToRestartPoint in Hseek.
  destruct (GetRestartPoint (set_restart_index (set_key c []) i) i)
    as [r|] eqn:Hr; [|discriminate].
  injection Hseek as <-.
  split; [repeat split|]. split; [exact HR|].
  unfold GetRestartPoint in Hr. simpl in Hr.
  destruct (data_ c) as [d|] eqn:Hd; [|discriminate].
  split; [exists d; reflexivity|].
  exists (u32 (r + 0)). split.
  - unfold NextEntryOffset. simpl. rewrite Hd. reflexivity.
  - simpl. pose proof (u32_range (r + 0)). lia.
Qed.

Lemma Prev_rewind_frame : forall fuel original c c' b,
  Prev_rewind fuel original c = Some (c', b) -> same_frame c c'.
Proof.
  induction fuel as [|fuel IH]; intros original c c' b H; simpl in H;
    [discriminate|].
  destruct (GetRestartPoint c (restart_index_ c)) as [rp|]; [|discriminate].
  destruct (original <=? rp).
  - destruct (restart_index_ c =? 0).
    + injection H as <- _. repeat split.
    + apply IH in H. eapply same_frame_trans; [|exact H]. repeat split.
  - injection H as <- _. repeat split.
Qed.

Lemma Next_meets_failure : forall c,
  decode_fails c -> Next c = Some (CorruptionError c).
Proof.
  intros c Hfail. unfold Next.
  rewrite (decode_fails_ParseNextKey c Hfail). reflexivity.
Qed.

Lemma SeekToFirst_meets_failure : forall c c0,
  SeekToRestartPoint c 0 = Some c0 -> decode_fails c0 ->
  SeekToFirst c = Some (CorruptionError c).
Proof.
  intros c c0 Hseek Hfail. unfold SeekToFirst.
  assert (Hfr : same_frame c c0).
  { unfold SeekToRestartPoint in Hseek.
    destruct (GetRestartPoint _ _); [|discriminate].
    injection Hseek as <-. repeat split. }
  pose proof Hfail as (d0 & off & Hd0 & _).
  pose proof Hfr as (_ & Hd & _). rewrite Hd0 in Hd. rewrite <- Hd.
  rewrite Hseek. simpl.
  rewrite (decode_fails_ParseNextKey c0 Hfail).
  simpl. rewrite (CorruptionError_frame c c0 Hfr). reflexivity.
Qed.

Lemma SeekToLast_meets_failure : forall c c0 cn,
  restarts_ c < 2 ^ 32 ->
  SeekToRestartPoint c (u32 (num_restarts_ c - 1)) = Some c0 ->
  walks SeekToLast_goes_on c0 cn -> decode_fails cn ->
  SeekToLast c = Some (CorruptionError c).
Proof.
  intros c c0 cn HR Hseek Hwalk Hfail.
  destruct (SeekToRestartPoint_start c _ c0 HR Hseek)
    as (Hfr & HR0 & (d & Hd) & off & Hoff & Hfuel).
  unfold SeekToLast. rewrite Hd, Hseek. simpl.
  rewrite (SeekToLast_walk_meets_failure c0 cn Hwalk Hfail _ off HR0 Hoff
             Hfuel).
  rewrite (CorruptionError_frame c c0 Hfr). reflexivity.
Qed.

Lemma Prev_meets_failure : forall c c1 c0 cn,
  restarts_ c < 2 ^ 32 ->
  Prev_rewind (Z.to_nat (restart_index_ c) + 1) (current_ c) c
  = Some (c1, false) ->
  SeekToRestartPoint c1 (restart_index_ c1) = Some c0 ->
  walks (Prev_goes_on (current_ c)) c0 cn -> decode_fails cn ->
  Prev c = Some (CorruptionError c).
Proof.
  intros c c1 c0 cn HR Hrew Hseek Hwalk Hfail.
  pose proof (Prev_rewind_frame _ _ _ _ _ Hrew) as Hfr1.
  assert (HR1 : restarts_ c1 < 2 ^ 32).
  { destruct Hfr1 as (_ & _ & -> & _). exact HR. }
  destruct (SeekToRestartPoint_start c1 _ c0 HR1 Hseek)
    as (Hfr & HR0 & _ & off & Hoff & Hfuel).
  unfold Prev. rewrite Hrew. simpl. rewrite Hseek. simpl.
  rewrite (Prev_walk_meets_failure (current_ c) c0 cn Hwalk Hfail _ off HR0
             Hoff Hfuel).
  rewrite (CorruptionError_frame c c0); [reflexivity|].
  eapply same_frame_trans; eauto.
Qed.

Lemma Seek_unfold : forall c target,
  Seek c target
  = match data_ c with
    | None => Some c
    | Some _ =>
        match Seek_index c target with
        | Some (c1, None) => Some c1
        | Some (c1, Some index) =>
            match SeekToRestartPoint c1 index with
            | Some c0 => Seek_scan (Z.to_nat (restarts_ c0) + 2) c0 target
            | None => None
            end
        | None => None
        end
    end.
Proof.
  intros c target. unfold Seek, Seek_index.
  destruct (data_ c); [|reflexivity].
  match goal with
  | |- context [match ?x with _ => _ end] => destruct x as [[c1 [index|]]|]
  end; reflexivity.
Qed.

Lemma Seek_index_meets_failure : forall c target i,
  probe_fails_at c i ->
  Seek_index c target = Some (CorruptionError c, None) ->
  Seek c target = Some (CorruptionError c).
Proof.
  intros c target i (d & r & Hd & _) Hidx.
  rewrite Seek_unfold, Hd, Hidx. reflexivity.
Qed.

Lemma Seek_scan_from_meets_failure : forall c target index c0 cn,
  restarts_ c < 2 ^ 32 ->
  Seek_index c target = Some (c, Some index) ->
  SeekToRestartPoint c index = Some c0 ->
  walks (Seek_goes_on target) c0 cn -> decode_fails cn ->
  Seek c target = Some (CorruptionError c).
Proof.
  intros c target index c0 cn HR Hidx Hseek Hwalk Hfail.
  destruct (SeekToRestartPoint_start c index c0 HR Hseek)
    as (Hfr & HR0 & (d & Hd) & off & Hoff & Hfuel).
  rewrite Seek_unfold, Hd, Hidx, Hseek.
  rewrite (Seek_scan_meets_failure target c0 cn Hwalk Hfail _ off HR0 Hoff
             Hfuel).
  rewrite (CorruptionError_frame c c0 Hfr). reflexivity.
Qed.

(** C5.  A decode failure puts the cursor into the state of
    [CorruptionError] in the same step, and the status never returns to OK
    afterwards.  The state has current_ = restarts_,
    restart_index_ = num_restarts_, an empty key, a cleared value and the
    status BadEntryInBlock.  [ParseNextKey] enters it when the codec
    rejects the entry or the entry shares more bytes than the previous key
    has; [CompareBlockKey] and a round of [BinarySeek] enter it when the
    entry at the restart offset is rejected or has a shared prefix.  Every
    operation that meets such a failure returns in that state: [Next] when
    the entry behind the current one fails; [SeekToFirst] when the entry at
    restart point 0 fails; [SeekToLast], [Prev] and the linear search of
    [Seek] when the entry fails that their walk comes to after any number
    of entries parsed without failure ([restarts_] being a 32-bit value);
    [Seek] when a probe fails that its binary search reaches, without
    index or inside the bucket of a hash index, when a comparison fails
    that the search over the candidates of a prefix index reaches, and when
    the restart point of the gap check fails.  An operation that starts
    with status OK and ends with another status ends in exactly that state,
    and no operation, nor any sequence of operations, brings a status that
    is not OK back to OK. *)
Theorem corruption_is_eager_and_terminal :
  forall (c : BlockIter),
    corrupt (CorruptionError c) /\
    (forall d off,
       data_ c = Some d -> NextEntryOffset c = Some off ->
       off < restarts_ c -> parse_fails c d off ->
       ParseNextKey c = Some (CorruptionError c, false)) /\
    (forall d i r target,
       data_ c = Some d -> GetRestartPoint c i = Some r ->
       probe_fails c d r ->
       CompareBlockKey c i target = Some (CorruptionError c, 1) /\
       (forall fuel left right,
          BinarySeek_mid left right = i -> left < right ->
          BinarySeek_loop (S fuel) c target left right
          = Some (CorruptionError c, None))) /\
    (decode_fails c -> Next c = Some (CorruptionError c)) /\
    (forall c0,
       SeekToRestartPoint c 0 = Some c0 -> decode_fails c0 ->
       SeekToFirst c = Some (CorruptionError c)) /\
    (restarts_ c < 2 ^ 32 ->
       (forall c0 cn,
          SeekToRestartPoint c (u32 (num_restarts_ c - 1)) = Some c0 ->
          walks SeekToLast_goes_on c0 cn -> decode_fails cn ->
          SeekToLast c = Some (CorruptionError c)) /\
       (forall c1 c0 cn,
          Prev_rewind (Z.to_nat (restart_index_ c) + 1) (current_ c) c
          = Some (c1, false) ->
          SeekToRestartPoint c1 (restart_index_ c1) = Some c0 ->
          walks (Prev_goes_on (current_ c)) c0 cn -> decode_fails cn ->
          Prev c = Some (CorruptionError c)) /\
       (forall target index c0 cn,
          Seek_index c target = Some (c, Some index) ->
          SeekToRestartPoint c index = Some c0 ->
          walks (Seek_goes_on target) c0 cn -> decode_fails cn ->
          Seek c target = Some (CorruptionError c))) /\
    (forall target,
       (forall l r,
          prefix_index_ c = None -> hash_index_ c = None ->
          0 < num_restarts_ c < 2 ^ 31 ->
          BinarySeek_reaches c target 0 (num_restarts_ c - 1) l r -> l < r ->
          probe_fails_at c (BinarySeek_mid l r) ->
          Seek c target = Some (CorruptionError c)) /\
       (forall hash_index first num l r,
          prefix_index_ c = None -> hash_index_ c = Some hash_index ->
          hash_index target = Some (first, num) ->
          0 <= first -> 1 <= num -> first + num - 1 < 2 ^ 31 ->
          BinarySeek_reaches c target first (first + num - 1) l r -> l < r ->
          probe_fails_at c (BinarySeek_mid l r) ->
          Seek c target = Some (CorruptionError c)) /\
       (forall prefix_index l r id,
          prefix_index_ c = Some prefix_index -> status_ c = OK ->
          prefix_index target <> [] ->
          Z.of_nat (List.length (prefix_index target)) < 2 ^ 31 ->
          BinaryBlockIndexSeek_reaches c target (prefix_index target) 0
            (Z.of_nat (List.length (prefix_index target)) - 1) l r ->
          l <= r ->
          block_id (prefix_index target) (u32 (l + r) / 2) = Some id ->
          probe_fails_at c id ->
          Seek c target = Some (CorruptionError c)) /\
       (forall prefix_index l id,
          prefix_index_ c = Some prefix_index ->
          prefix_index target <> [] ->
          Z.of_nat (List.length (prefix_index target)) < 2 ^ 31 ->
          BinaryBlockIndexSeek_loop
            (Z.to_nat (Z.of_nat (List.length (prefix_index target)) - 1 - 0) + 2)
            c target (prefix_index target) 0
            (Z.of_nat (List.length (prefix_index target)) - 1)
          = Some (c, Some (l, l)) ->
          block_id (prefix_index target) l = Some id ->
          0 < id < 2 ^ 32 ->
          gap_before (prefix_index target) 0 l id ->
          probe_fails_at c (id - 1) ->
          Seek c target = Some (CorruptionError c))) /\
    (forall o c',
       run_op o c = Some c' ->
       (status_ c <> OK -> status_ c' <> OK) /\
       (status_ c = OK -> status_ c' <> OK -> corrupt c')) /\
    (forall os c',
       run_ops os c = Some c' -> status_ c <> OK -> status_ c' <> OK).
Proof.
  intros c. split; [apply corrupt_CorruptionError|].
  split; [|split; [|split; [|split; [|split; [|split; [|split]]]]]].
  - intros d off Hd Hoff Hlt Hfail.
    apply decode_fails_ParseNextKey. exists d, off. auto.
  - intros d i r target Hd Hr Hfail.
    assert (Hat : probe_fails_at c i) by (exists d, r; auto).
    split; [apply probe_fails_CompareBlockKey; exact Hat|].
    intros fuel left right Hmid Hlt. simpl.
    replace (left <? right) with true by (symmetry; apply Z.ltb_lt; lia).
    rewrite probe_fails_BinarySeek_probe by (rewrite Hmid; exact Hat).
    reflexivity.
  - apply Next_meets_failure.
  - apply SeekToFirst_meets_failure.
  - intros HR. split; [|split].
    + intros c0 cn. apply SeekToLast_meets_failure. exact HR.
    + intros c1 c0 cn. apply Prev_meets_failure. exact HR.
    + intros target index c0 cn. apply Seek_scan_from_meets_failure.
      exact HR.
  - intros target.
    pose proof (Seek_index_meets_failure c target) as Hfrom_index.
    split; [|split; [|split]].
    + intros l r Hprefix Hhash Hn Hreach Hlr Hfail.
      apply (Hfrom_index _ Hfail). unfold Seek_index.
      rewrite Hprefix, Hhash.
      assert (Hn' : num_restarts_ c < 2147483648) by apply Hn.
      rewrite u32_small by (change (2 ^ 32) with 4294967296; lia).
      apply (BinarySeek_meets_failure c target 0 (num_restarts_ c - 1) l r);
        auto; try lia; change (2 ^ 31) with 2147483648; lia.
    + intros hi first num l r Hprefix Hhash Hhit Hfirst Hnum Hsmall Hreach Hlr
        Hfail.
      apply (Hfrom_index _ Hfail). unfold Seek_index, HashSeek.
      rewrite Hprefix, Hhash. simpl. rewrite Hhit.
      assert (Hsmall' : first + num - 1 < 2147483648) by exact Hsmall.
      rewrite u32_small by (change (2 ^ 32) with 4294967296; lia).
      apply (BinarySeek_meets_failure c target first (first + num - 1) l r);
        auto; lia.
    + intros pi l r id Hpi Hst Hne Hsmall Hreach Hlr Hid Hfail.
      apply (Hfrom_index _ Hfail). unfold Seek_index, PrefixSeek.
      rewrite Hpi. simpl.
      set (n := Z.of_nat (List.length (pi target))) in *.
      assert (Hn1 : 1 <= n)
        by (subst n; destruct (pi target); [contradiction|simpl; lia]).
      assert (Hsmall' : n < 2147483648) by exact Hsmall.
      replace (n =? 0) with false by (symmetry; apply Z.eqb_neq; lia).
      rewrite u32_small by (change (2 ^ 32) with 4294967296; lia).
      apply (BinaryBlockIndexSeek_meets_failure c target (pi target) 0 (n - 1)
               l r id); auto; try lia; change (2 ^ 31) with 2147483648; lia.
    + intros pi l id Hpi Hne Hsmall Hloop Hid Hid32 Hgap Hfail.
      apply (Hfrom_index _ Hfail). unfold Seek_index, PrefixSeek.
      rewrite Hpi. simpl.
      set (n := Z.of_nat (List.length (pi target))) in *.
      assert (Hn1 : 1 <= n)
        by (subst n; destruct (pi target); [contradiction|simpl; lia]).
      assert (Hsmall' : n < 2147483648) by exact Hsmall.
      replace (n =? 0) with false by (symmetry; apply Z.eqb_neq; lia).
      rewrite u32_small by (change (2 ^ 32) with 4294967296; lia).
      unfold BinaryBlockIndexSeek. rewrite Hloop.
      destruct (block_id_Some _ _ _ Hid) as [Hl _]. fold n in Hl.
      apply (BinaryBlockIndexSeek_settle_meets_failure c target (pi target) 0
               l id); auto; try lia; change (2 ^ 32) with 4294967296; lia.
  - intros o c' H. apply run_op_carried in H. split.
    + intros Hst. destruct H as [H|H]; [congruence|].
      apply corrupt_not_ok. exact H.
    + intros Hst Hst'. destruct H as [H|H]; [congruence|exact H].
  - intros os c'. apply run_ops_not_ok.
Qed.

Lemma corruption_is_eager_and_terminal_witness :
  walks SeekToLast_goes_on cursor_a_then_long_value_restart0
    cursor_a_then_long_value_at_a /\
  decode_fails cursor_a_then_long_value_at_a /\
  SeekToLast cursor_a_then_long_value
  = Some (CorruptionError cursor_a_then_long_value) /\
  Seek cursor_a_then_long_value (bytes_of [98]%N)
  = Some (CorruptionError cursor_a_then_long_value) /\
  Next cursor_a_then_long_value_at_a
  = Some (CorruptionError cursor_a_then_long_value_at_a) /\
  corrupt (CorruptionError cursor_a_then_long_value).
Proof.
  assert (Hparse : ParseNextKey cursor_a_then_long_value_restart0
                   = Some (cursor_a_then_long_value_at_a, true)) by crunch.
  assert (Hwalk : walks SeekToLast_goes_on cursor_a_then_long_value_restart0
                    cursor_a_then_long_value_at_a).
  { apply (walks_step _ _ cursor_a_then_long_value_at_a).
    - exact Hparse.
    - exists 4. split; [crunch|reflexivity].
    - apply walks_here. }
  assert (Hscan : walks (Seek_goes_on (bytes_of [98]%N))
                    cursor_a_then_long_value_restart0
                    cursor_a_then_long_value_at_a).
  { apply (walks_step _ _ cursor_a_then_long_value_at_a).
    - exact Hparse.
    - exists (-1). split; [crunch|reflexivity].
    - apply walks_here. }
  assert (Hfail : decode_fails cursor_a_then_long_value_at_a).
  { exists block_a_then_long_value, 4.
    split; [reflexivity|]. split; [crunch|]. split; [reflexivity|].
    left. crunch. }
  split; [exact Hwalk|]. split; [exact Hfail|].
  destruct (corruption_is_eager_and_terminal cursor_a_then_long_value)
    as (Hstate & _ & _ & _ & _ & Hloops & _).
  destruct Hloops as (Hlast & _ & Hseek); [crunch|].
  split.
  { apply (Hlast cursor_a_then_long_value_restart0
             cursor_a_then_long_value_at_a); [crunch|exact Hwalk|exact Hfail]. }
  split.
  { apply (Hseek (bytes_of [98]%N) 0 cursor_a_then_long_value_restart0
             cursor_a_then_long_value_at_a);
      [crunch|crunch|exact Hscan|exact Hfail]. }
  split; [|exact Hstate].
  destruct (corruption_is_eager_and_terminal cursor_a_then_long_value_at_a)
    as (_ & _ & _ & Hnext & _).
  exact (Hnext Hfail).
Defined.
